(** * PwnyNextGen intelligence core: a shallow embedding and its properties

    The Python sources modelled here are
    [nextgen/tactical_engine.py], [nextgen/channel_bandit.py],
    [nextgen/bayesian_optimizer.py], [nextgen/pineapd_adapter.py] and
    [nextgen/__init__.py].

    Conventions of the embedding.
    - Python [float] and [int] values that take part in arithmetic are exact
      rationals ([Q]); comparisons are the exact ones.  Rounding,
      infinities other than the optimizer's initial [-inf], and NaN are
      outside the model.  Overflow is in the model where Python raises for
      it: the [x ** 2] of the Gaussian process is a function that may raise
      [OverflowError], and whose result may be 0 for a tiny [x].
    - [dict]s are finite maps ([gmap]); a [dict.get(k, d)] is a lookup with a
      default; a [defaultdict] is a map read with its default.
    - Objects mutated in place are records passed in and returned.
    - [time.time()] is an explicit argument.
    - The module-level generator [random] is the sequence of its results,
      and the agent behind the adapter is the function that says which of
      its calls raise; properties hold for every such sequence and agent. *)

From Stdlib Require Import QArith ZArith String Ascii List Lia Lqa Qminmax Qpower.
From Stdlib Require Import Sorted DecimalString DecimalZ.
From stdpp Require Import base gmap strings list fin_maps sorting.

Open Scope Q_scope.

(** ** Python helpers *)

(** Strict comparison on rationals as a boolean ([a < b]). *)
Definition Qlt_bool (a b : Q) : bool := negb (Qle_bool b a).

(** [int] -> [float] conversions. *)
Definition QofN (n : nat) : Q := inject_Z (Z.of_nat n).

(** [str.lower()] and [str.upper()] on ASCII text. *)
Definition ascii_lower (c : ascii) : ascii :=
  let n := nat_of_ascii c in
  if ((65 <=? n) && (n <=? 90))%nat then ascii_of_nat (n + 32) else c.

Definition ascii_upper (c : ascii) : ascii :=
  let n := nat_of_ascii c in
  if ((97 <=? n) && (n <=? 122))%nat then ascii_of_nat (n - 32) else c.

Fixpoint str_map (f : ascii -> ascii) (s : string) : string :=
  match s with
  | EmptyString => EmptyString
  | String c s' => String (f c) (str_map f s')
  end.

Definition lower : string -> string := str_map ascii_lower.
Definition upper : string -> string := str_map ascii_upper.

(** [needle in hay] for strings. *)
Fixpoint str_in (needle hay : string) : bool :=
  String.prefix needle hay ||
  match hay with
  | EmptyString => false
  | String _ hay' => str_in needle hay'
  end.

(** [l[:k]] with Python's reading of a negative bound. *)
Definition slice_to {A} (l : list A) (k : Z) : list A :=
  if (k <? 0)%Z
  then firstn (Z.to_nat (Z.of_nat (length l) + k)) l
  else firstn (Z.to_nat k) l.

(** Exceptions raised by the modelled code, and results of calls that may
    raise. *)
Inductive exn :=
  ValueError | ZeroDivisionError | KeyError | IndexError | OverflowError.

Inductive result (A : Type) : Type :=
| Ok (a : A)
| Raise (e : exn).
Arguments Ok {A} a.
Arguments Raise {A} e.

#[global] Instance result_bind : MBind result :=
  fun A B (k : A -> result B) (r : result A) =>
    match r with
    | Ok a => k a
    | Raise e => Raise e
    end.

(** [l[i]] for a non-negative index. *)
Definition get {A} (l : list A) (i : nat) : result A :=
  match l !! i with
  | Some a => Ok a
  | None => Raise IndexError
  end.

(** [l[i] = x] for a non-negative index. *)
Definition set {A} (l : list A) (i : nat) (x : A) : result (list A) :=
  if (i <? length l)%nat then Ok (<[i := x]> l) else Raise IndexError.

(** [for x in xs: acc = f(acc, x)], stopping at the first exception. *)
Fixpoint foldM {A B} (f : B -> A -> result B) (acc : B) (xs : list A) : result B :=
  match xs with
  | [] => Ok acc
  | x :: xs' => acc' ← f acc x; foldM f acc' xs'
  end.

(** [[f(x) for x in xs]], stopping at the first exception. *)
Fixpoint mapM {A B} (f : A -> result B) (xs : list A) : result (list B) :=
  match xs with
  | [] => Ok []
  | x :: xs' => y ← f x; ys ← mapM f xs'; Ok (y :: ys)
  end.

(** [a / b] on floats. *)
Definition py_div (a b : Q) : result Q :=
  if Qeq_bool b 0 then Raise ZeroDivisionError else Ok (a / b).

(** [sum(...)] over floats. *)
Definition Qsum (l : list Q) : Q := fold_left Qplus l 0.

(** Keys of a state dict: [int] in memory, [str] where the code calls
    [str(ch)] (and after a trip through JSON). *)
Inductive pykey := KInt (z : Z) | KStr (s : string).

#[global] Instance pykey_eq_dec : EqDecision pykey.
Proof. solve_decision. Defined.

#[global] Instance pykey_countable : Countable pykey :=
  inj_countable'
    (fun k => match k with KInt z => inl z | KStr s => inr s end)
    (fun x => match x with inl z => KInt z | inr s => KStr s end)
    (fun k => match k with KInt _ => eq_refl | KStr _ => eq_refl end).

(** [str(ch)] for an [int]. *)
Definition str (ch : Z) : string := NilZero.string_of_int (Z.to_int ch).

(** [int(k)]: the identity on an [int]; on a [str], a decimal numeral with an
    optional minus sign is parsed and anything else raises [ValueError]
    (the other spellings Python accepts, such as a leading [+], blanks or
    underscores, are not modelled). *)
Definition int (k : pykey) : result Z :=
  match k with
  | KInt z => Ok z
  | KStr s =>
      match NilZero.int_of_string s with
      | Some d => Ok (Z.of_int d)
      | None => Raise ValueError
      end
  end.

(** A [dict] with integer keys as the list of its items in insertion order:
    [d[k] = v] replaces the value of a key in place and appends a new key. *)
Fixpoint dict_set {V} (d : list (Z * V)) (k : Z) (v : V) : list (Z * V) :=
  match d with
  | [] => [(k, v)]
  | kv :: d' =>
      if (fst kv =? k)%Z then (k, v) :: d' else kv :: dict_set d' k v
  end.

(** [d.get(k)] *)
Fixpoint dict_get {V} (d : list (Z * V)) (k : Z) : option V :=
  match d with
  | [] => None
  | kv :: d' => if (fst kv =? k)%Z then Some (snd kv) else dict_get d' k
  end.

(** [d.keys()] *)
Definition dict_keys {V} (d : list (Z * V)) : list Z := map fst d.

(** Operational modes ([MODE_ACTIVE], [MODE_PASSIVE], [MODE_ASSIST]). *)
Inductive Mode := MODE_ACTIVE | MODE_PASSIVE | MODE_ASSIST.

(** ** tactical_engine.py *)

(** Attack type constants. *)
Inductive Attack :=
| ATTACK_ASSOC_DEAUTH
| ATTACK_DEAUTH_ONLY
| ATTACK_BROADCAST_DEAUTH
| ATTACK_ASSOC_ONLY
| ATTACK_SKIP.

Definition Attack_eqb (a b : Attack) : bool :=
  match a, b with
  | ATTACK_ASSOC_DEAUTH, ATTACK_ASSOC_DEAUTH
  | ATTACK_DEAUTH_ONLY, ATTACK_DEAUTH_ONLY
  | ATTACK_BROADCAST_DEAUTH, ATTACK_BROADCAST_DEAUTH
  | ATTACK_ASSOC_ONLY, ATTACK_ASSOC_ONLY
  | ATTACK_SKIP, ATTACK_SKIP => true
  | _, _ => false
  end.

(** Client and AP dicts.  A field is [None] when the key is absent. *)
Record Client := mkClient {
  client_mac : option string;
  client_last_seen : option Q;
  client_last_seen_at : option Q
}.

Record AP := mkAP {
  ap_mac : option string;
  ap_hostname : option string;
  ap_channel : option Z;
  ap_rssi : option Z;
  ap_encryption : option string;
  ap_clients : option (list Client);
  ap_last_seen : option Q;
  ap_last_seen_at : option Q
}.

Module CaptureContext.

(** A value of [_captured]: [{timestamp, path?, type}]. *)
Record capture := mkCapture {
  cap_timestamp : Q;
  cap_path : option string;
  cap_type : string
}.

Record t := mk {
  _captured : gmap string capture;
  _pmkids : gset string;
  _captured_clients : gmap string (gset string);
  _interactions : gmap string nat;
  _epoch_interactions : gmap string nat
}.

(** The context built over a missing or empty handshake directory. *)
Definition empty : t := mk ∅ ∅ ∅ ∅ ∅.

Definition get_new_clients (c : t) (ap_mac : string) (current_clients : list Client)
  : list string :=
  let ap_mac := lower ap_mac in
  let captured := default ∅ (_captured_clients c !! ap_mac) in
  foldr (fun client new =>
           let client_mac := lower (default ""%string (client_mac client)) in
           if negb (String.eqb client_mac "") && bool_decide (client_mac ∉ captured)
           then client_mac :: new else new)
        [] current_clients.

Definition has_handshake (c : t) (mac : string) : bool :=
  bool_decide (is_Some (_captured c !! lower mac)).

Definition has_pmkid (c : t) (mac : string) : bool :=
  bool_decide (lower mac ∈ _pmkids c).

(** [record_handshake(mac, handshake_type='full', client_mac=None)];
    [now] is the value of [time.time()]. *)
Definition record_handshake (c : t) (now : Q) (mac : string)
    (handshake_type : string) (client_mac : option string) : t :=
  let mac := lower mac in
  let captured := <[mac := mkCapture now None handshake_type]> (_captured c) in
  let pmkids :=
    if String.eqb handshake_type "pmkid" then {[mac]} ∪ _pmkids c else _pmkids c in
  let clients :=
    match client_mac with
    | Some cm =>
        if String.eqb cm "" then _captured_clients c
        else <[mac := {[lower cm]} ∪ default ∅ (_captured_clients c !! mac)]>
               (_captured_clients c)
    | None => _captured_clients c
    end in
  mk captured pmkids clients (_interactions c) (_epoch_interactions c).

Definition get_session_interactions (c : t) (mac : string) : nat :=
  default 0%nat (_interactions c !! lower mac).

Definition get_epoch_interactions (c : t) (mac : string) : nat :=
  default 0%nat (_epoch_interactions c !! lower mac).

Definition record_interaction (c : t) (mac : string) : t :=
  let mac := lower mac in
  mk (_captured c) (_pmkids c) (_captured_clients c)
     (<[mac := S (default 0%nat (_interactions c !! mac))]> (_interactions c))
     (<[mac := S (default 0%nat (_epoch_interactions c !! mac))]>
        (_epoch_interactions c)).

Definition new_epoch (c : t) : t :=
  mk (_captured c) (_pmkids c) (_captured_clients c) (_interactions c) ∅.

(** [[0-9a-fA-F]], [[0-9a-f]] and [[:-]] *)
Definition is_hex (a : ascii) : bool :=
  let n := nat_of_ascii a in
  ((48 <=? n) && (n <=? 57) || (97 <=? n) && (n <=? 102)
   || (65 <=? n) && (n <=? 70))%nat.

Definition is_lower_hex (a : ascii) : bool :=
  let n := nat_of_ascii a in
  ((48 <=? n) && (n <=? 57) || (97 <=? n) && (n <=? 102))%nat.

Definition is_sep (a : ascii) : bool := Ascii.eqb a ":" || Ascii.eqb a "-".

(** A match of [([0-9a-fA-F]{2}[:-]){n}[0-9a-fA-F]{2}] at the start of [s]:
    the text matched. *)
Fixpoint match_mac (n : nat) (s : string) : option string :=
  match n, s with
  | O, String a (String b _) =>
      if is_hex a && is_hex b then Some (String a (String b EmptyString)) else None
  | S n', String a (String b (String p rest)) =>
      if is_hex a && is_hex b && is_sep p
      then option_map (fun g => String a (String b (String p g))) (match_mac n' rest)
      else None
  | _, _ => None
  end.

(** A match of [[0-9a-fA-F]{n}] at the start of [s]. *)
Fixpoint match_hex (n : nat) (s : string) : option string :=
  match n, s with
  | O, _ => Some EmptyString
  | S n', String a rest =>
      if is_hex a then option_map (String a) (match_hex n' rest) else None
  | S _, EmptyString => None
  end.

(** [re.search(pattern, s)] for a pattern given by its matcher: group 0 of
    the leftmost match. *)
Fixpoint re_search (m : string -> option string) (s : string) : option string :=
  match m s with
  | Some g => Some g
  | None =>
      match s with
      | EmptyString => None
      | String _ s' => re_search m s'
      end
  end.

(** [s.replace('-', ':')] *)
Definition replace_dash : string -> string :=
  str_map (fun a => if Ascii.eqb a "-" then ":"%char else a).

(** [':'.join(raw[i:i+2] for i in range(0, 12, 2))] *)
Definition colon_join (raw : string) : string :=
  String.concat ":" (map (fun i => substring i 2 raw) [0; 2; 4; 6; 8; 10]%nat).

(** [s.split(sep)] for a one-character separator. *)
Fixpoint split_on (sep : ascii) (s : string) : list string :=
  match s with
  | EmptyString => [EmptyString]
  | String a s' =>
      if Ascii.eqb a sep then EmptyString :: split_on sep s'
      else match split_on sep s' with
           | p :: ps => String a p :: ps
           | [] => [String a EmptyString]
           end
  end.

Definition _extract_mac (filename : string) : option string :=
  match re_search (match_mac 5) filename with
  | Some g => Some (replace_dash (lower g))
  | None =>
      match re_search (match_hex 12) filename with
      | Some g => let raw := lower g in Some (colon_join raw)
      | None => None
      end
  end.

(** [_extract_ap_client_pair(filename)]; [int16_parses s] tells whether
    [int(s, 16)] returns rather than raising [ValueError]. *)
Definition _extract_ap_client_pair (int16_parses : string -> bool)
    (filename : string) : option string * option string :=
  match split_on "_" filename with
  | _ :: raw_ap :: raw_client :: _ =>
      if ((String.length raw_ap =? 12) && (String.length raw_client =? 12))%nat
      then
        if int16_parses raw_ap && int16_parses raw_client
        then (Some (lower (colon_join raw_ap)), Some (lower (colon_join raw_client)))
        else (None, None)
      else (None, None)
  | _ => (None, None)
  end.

(** [_extract_mac_from_22000(filepath)]; [content] is the list of lines of
    the file, [None] when opening or reading it raises. *)
Definition _extract_mac_from_22000 (content : option (list string))
  : option string :=
  match content with
  | None => None
  | Some lines =>
      (fix scan (lines : list string) : option string :=
         match lines with
         | [] => None
         | line :: rest =>
             if String.prefix "WPA*" line then
               match split_on "*" line with
               | _ :: _ :: _ :: field3 :: _ =>
                   let raw_mac := lower field3 in
                   if (String.length raw_mac =? 12)%nat
                   then Some (colon_join raw_mac)
                   else scan rest
               | _ => scan rest
               end
             else scan rest
         end) lines
  end.

(** Every character of [s] is a hex digit; no character of [s] is [c]. *)
Fixpoint all_hex (s : string) : bool :=
  match s with
  | EmptyString => true
  | String a s' => is_hex a && all_hex s'
  end.

Fixpoint lacks (c : ascii) (s : string) : bool :=
  match s with
  | EmptyString => true
  | String a s' => negb (Ascii.eqb a c) && lacks c s'
  end.

(** A colon-form MAC in lower case: [n + 1] pairs of lower-case hex digits
    separated by colons. *)
Fixpoint canonical_mac (n : nat) (s : string) : Prop :=
  match n, s with
  | O, String a (String b EmptyString) =>
      is_lower_hex a = true /\ is_lower_hex b = true
  | S n', String a (String b (String p rest)) =>
      is_lower_hex a = true /\ is_lower_hex b = true /\ p = ":"%char /\
      canonical_mac n' rest
  | _, _ => False
  end.

(** A file met by [_scan_existing]: its base name, path, modification time
    and, when it can be read, its lines. *)
Record file := mkFile {
  file_basename : string;
  file_path : string;
  file_mtime : Q;
  file_lines : option (list string)
}.

(** [s.endswith(suffix)] *)
Definition endswith (s suffix : string) : bool :=
  let n := String.length s in
  let k := String.length suffix in
  (k <=? n)%nat && String.eqb (substring (n - k) k s) suffix.

(** The body of the loop of [_scan_existing] for one file. *)
Definition _scan_file (int16_parses : string -> bool) (c : t) (f : file) : t :=
  let basename := file_basename f in
  let captured :=
    match _extract_mac basename with
    | Some mac =>
        <[mac := mkCapture (file_mtime f) (Some (file_path f)) "file"]> (_captured c)
    | None => _captured c
    end in
  let clients :=
    match _extract_ap_client_pair int16_parses basename with
    | (Some ap_mac, Some client_mac) =>
        <[ap_mac := {[client_mac]} ∪ default ∅ (_captured_clients c !! ap_mac)]>
          (_captured_clients c)
    | _ => _captured_clients c
    end in
  let captured :=
    if endswith (file_path f) ".22000" then
      match _extract_mac_from_22000 (file_lines f) with
      | Some content_mac =>
          match captured !! content_mac with
          | Some _ => captured
          | None =>
              <[content_mac := mkCapture (file_mtime f) (Some (file_path f)) "file"]>
                captured
          end
      | None => captured
      end
    else captured in
  mk captured (_pmkids c) clients (_interactions c) (_epoch_interactions c).

(** [_scan_existing] over the files the glob patterns yield, in the order
    they are visited, starting from the state the constructor has set up. *)
Definition _scan_existing (int16_parses : string -> bool) (files : list file) : t :=
  fold_left (_scan_file int16_parses) files empty.

(** A call made on a context by its users: [record_handshake],
    [record_interaction] or [new_epoch]. *)
Inductive call :=
| call_record_handshake (now : Q) (mac handshake_type : string)
    (client_mac : option string)
| call_record_interaction (mac : string)
| call_new_epoch.

Definition do_call (c : t) (k : call) : t :=
  match k with
  | call_record_handshake now mac handshake_type client_mac =>
      record_handshake c now mac handshake_type client_mac
  | call_record_interaction mac => record_interaction c mac
  | call_new_epoch => new_epoch c
  end.

(** The context after a sequence of calls. *)
Definition do_calls (c : t) (ks : list call) : t := fold_left do_call ks c.

(** [captured_count] *)
Definition captured_count (c : t) : nat := size (_captured c).

End CaptureContext.

Module TacticalEngine.
Import CaptureContext.

(** The engine's own fields; its [context] is the [CaptureContext.t]
    passed alongside, since the engine and its callers share that object. *)
Record t := mk {
  max_interactions_per_epoch : Z;
  max_targets_per_epoch : Z;
  mode : Mode
}.

Definition get_mac (ap : AP) : string := lower (default ""%string (ap_mac ap)).
Definition get_encryption (ap : AP) : string :=
  upper (default ""%string (ap_encryption ap)).
Definition get_clients (ap : AP) : list Client := default [] (ap_clients ap).
Definition get_rssi (ap : AP) : Z := default (-100)%Z (ap_rssi ap).

(** [encryption in ('', 'OPEN')] *)
Definition is_open (encryption : string) : bool :=
  String.eqb encryption "" || String.eqb encryption "OPEN".

(** [sum(1 for c in clients
         if c.get('last_seen', c.get('last_seen_at', 0)) > now - 120)] *)
Definition active_clients (now : Q) (clients : list Client) : nat :=
  length (filter (fun c =>
    Is_true (Qlt_bool (now - 120)
               (default (default 0 (client_last_seen_at c)) (client_last_seen c))))
    clients).

Definition budget_spent (e : t) (c : CaptureContext.t) (mac : string) : bool :=
  (max_interactions_per_epoch e <=? Z.of_nat (get_epoch_interactions c mac))%Z.

Definition _score_active (e : t) (c : CaptureContext.t) (now : Q) (ap : AP) : Q :=
  let mac := get_mac ap in
  let encryption := get_encryption ap in
  if is_open encryption then -500
  else
    let clients := get_clients ap in
    if has_handshake c mac then
      let new_clients := get_new_clients c mac clients in
      match new_clients with
      | [] => -1000
      | _ =>
          let score := Qmin (QofN (length new_clients) * 2) 8 in
          let session_attacks := get_session_interactions c mac in
          let score := score - QofN session_attacks * 1.5 in
          if budget_spent e c mac then -100 else score
      end
    else
      let score := 0 in
      let score :=
        if str_in "WPA3" encryption || str_in "SAE" encryption then score + 3
        else if str_in "WPA2" encryption || str_in "WPA" encryption then score + 10
        else if str_in "WEP" encryption then score + 1
        else score in
      let num_clients := length clients in
      let score := score + Qmin (QofN num_clients * 3) 15 in
      let score := score + QofN (active_clients now clients) * 2 in
      let rssi := get_rssi ap in
      let score :=
        if (-50 <? rssi)%Z then score + 5
        else if (-65 <? rssi)%Z then score + 3
        else if (-75 <? rssi)%Z then score + 1.5
        else if (-85 <? rssi)%Z then score + 0.5
        else score in
      let last_seen := default (default 0 (ap_last_seen_at ap)) (ap_last_seen ap) in
      let score :=
        if negb (Qeq_bool last_seen 0) && Qlt_bool (now - 60) last_seen then score + 3
        else if negb (Qeq_bool last_seen 0) && Qlt_bool (now - 300) last_seen
             then score + 1
        else score in
      let session_attacks := get_session_interactions c mac in
      let score := score - QofN session_attacks * 1 in
      if budget_spent e c mac then -100 else score.

Definition _score_passive (c : CaptureContext.t) (now : Q) (ap : AP) : Q :=
  let encryption := get_encryption ap in
  if is_open encryption then -500
  else
    let score := 0 in
    let mac := get_mac ap in
    let score := if has_handshake c mac then score - 5 else score in
    let clients := get_clients ap in
    let num_clients := length clients in
    let score := score + QofN num_clients * 5 in
    let score := score + QofN (active_clients now clients) * 4 in
    let rssi := get_rssi ap in
    if (-50 <? rssi)%Z then score + 3
    else if (-65 <? rssi)%Z then score + 2
    else if (-75 <? rssi)%Z then score + 1
    else score.

Definition _score_assist (now : Q) (ap : AP) : Q :=
  let encryption := get_encryption ap in
  if is_open encryption then -500
  else
    let score := 0 in
    let clients := get_clients ap in
    let num_clients := length clients in
    let score := score + QofN num_clients * 8 in
    let score := score + QofN (active_clients now clients) * 5 in
    let rssi := get_rssi ap in
    let score :=
      if (-50 <? rssi)%Z then score + 4
      else if (-65 <? rssi)%Z then score + 3
      else if (-75 <? rssi)%Z then score + 1.5
      else if (-85 <? rssi)%Z then score + 0.5
      else score in
    score + 1.

Definition score_target (e : t) (c : CaptureContext.t) (now : Q) (ap : AP) : Q :=
  match mode e with
  | MODE_PASSIVE => _score_passive c now ap
  | MODE_ASSIST => _score_assist now ap
  | MODE_ACTIVE => _score_active e c now ap
  end.

Definition _select_attack_active (c : CaptureContext.t) (ap : AP) : Attack :=
  let mac := get_mac ap in
  let clients := get_clients ap in
  if has_pmkid c mac then
    match clients with
    | _ :: _ => ATTACK_DEAUTH_ONLY
    | [] => ATTACK_SKIP
    end
  else
    match clients with
    | [] => ATTACK_ASSOC_ONLY
    | _ :: _ => ATTACK_ASSOC_DEAUTH
    end.

Definition _select_attack_assist (ap : AP) : Attack :=
  match get_clients ap with
  | [] => ATTACK_ASSOC_ONLY
  | _ :: _ => ATTACK_BROADCAST_DEAUTH
  end.

Definition select_attack (e : t) (c : CaptureContext.t) (ap : AP) : Attack :=
  match mode e with
  | MODE_PASSIVE => ATTACK_SKIP
  | MODE_ASSIST => _select_attack_assist ap
  | MODE_ACTIVE => _select_attack_active c ap
  end.

(** One plan entry [(ap, attack, score)]. *)
Definition entry : Type := AP * Attack * Q.
Definition entry_score (x : entry) : Q := snd x.
Definition entry_attack (x : entry) : Attack := snd (fst x).

(** What a plan entry must satisfy. *)
Definition entry_ok (x : entry) : Prop :=
  0 < entry_score x /\ entry_attack x <> ATTACK_SKIP.

(** Descending order of scores. *)
Definition score_ge (x y : entry) : Prop := entry_score y <= entry_score x.

(** The scoring loop of [plan_epoch]; the [i]-th AP is scored at clock
    reading [clk i]. *)
Fixpoint scan_targets (e : t) (c : CaptureContext.t) (clk : nat -> Q) (i : nat)
    (all_aps : list AP) : list entry :=
  match all_aps with
  | [] => []
  | ap :: rest =>
      let score := score_target e c (clk i) ap in
      let scored := scan_targets e c clk (S i) rest in
      if Qlt_bool 0 score then
        let attack := select_attack e c ap in
        if negb (Attack_eqb attack ATTACK_SKIP)
        then (ap, attack, score) :: scored
        else scored
      else scored
  end.

(** [scored.sort(key=lambda x: x[2], reverse=True)]: a stable sort into
    descending score order. *)
Fixpoint insert_desc (x : entry) (l : list entry) : list entry :=
  match l with
  | [] => [x]
  | y :: l' =>
      if Qlt_bool (entry_score x) (entry_score y)
      then y :: insert_desc x l'
      else x :: l
  end.

Definition sort_desc (l : list entry) : list entry := foldr insert_desc [] l.

(** [plan_epoch(all_aps)]: the context after the call and the plan. *)
Definition plan_epoch (e : t) (c : CaptureContext.t) (clk : nat -> Q)
    (all_aps : list AP) : CaptureContext.t * list entry :=
  let c := new_epoch c in
  match mode e with
  | MODE_PASSIVE => (c, [])
  | _ =>
      let scored := scan_targets e c clk 0 all_aps in
      (c, slice_to (sort_desc scored) (max_targets_per_epoch e))
  end.

End TacticalEngine.

(** ** channel_bandit.py *)
Module ChannelBandit.

Definition CHANNELS_2G : list Z := map Z.of_nat (seq 1 14).
Definition CHANNELS_5G : list Z :=
  [36; 40; 44; 48; 52; 56; 60; 64;
   100; 104; 108; 112; 116; 120; 124; 128;
   132; 136; 140; 144; 149; 153; 157; 161;
   165; 169; 173; 177]%Z.
Definition _6G_RAW_CHANNELS : list Z :=
  [1; 5; 9; 13; 17; 21; 25; 29; 33; 37; 41; 45;
   49; 53; 57; 61; 65; 69; 73; 77; 81; 85; 89; 93]%Z.
Definition _6G_OFFSET : Z := 190.
Definition CHANNELS_6G : list Z := map (fun ch => ch + _6G_OFFSET)%Z _6G_RAW_CHANNELS.

Inductive Band := Band2G | Band5G | Band6G.

Definition channel_to_band (channel : Z) : Band :=
  if bool_decide (channel ∈ CHANNELS_6G) then Band6G
  else if bool_decide (channel ∈ CHANNELS_5G) then Band5G
  else if bool_decide (channel ∈ CHANNELS_2G) then Band2G
  else if (177 <? channel)%Z then Band6G
  else if (14 <? channel)%Z then Band5G
  else Band2G.

(** One history entry [(timestamp, reward)]. *)
Definition observation : Type := Q * Q.

Record t := mk {
  channels : list Z;
  window_size : Z;
  exploration_bonus : Q;
  mode : Mode;
  _history : gmap Z (list observation);
  _total_scans : gmap Z nat;
  _total_epochs : nat;
  _client_activity : gmap Z (list Z)
}.

(** [ChannelBandit(channels, window_size, exploration_bonus, mode)] *)
Definition new (channels : list Z) (window_size : Z) (exploration_bonus : Q)
    (mode : Mode) : t :=
  mk channels window_size exploration_bonus mode ∅ ∅ 0 ∅.

(** [boost(channel, weight)]; [now] is the value of [time.time()]. *)
Definition boost (b : t) (now : Q) (channel : Z) (weight : Q) : t :=
  if bool_decide (channel ∈ channels b) then
    mk (channels b) (window_size b) (exploration_bonus b) (mode b)
       (<[channel := default [] (_history b !! channel) ++ [(now, weight)]]>
          (_history b))
       (_total_scans b) (_total_epochs b) (_client_activity b)
  else b.

(** [update(channel, reward)] *)
Definition update (b : t) (now : Q) (channel : Z) (reward : Q) : t :=
  mk (channels b) (window_size b) (exploration_bonus b) (mode b)
     (<[channel := default [] (_history b !! channel) ++ [(now, reward)]]>
        (_history b))
     (<[channel := S (default 0%nat (_total_scans b !! channel))]> (_total_scans b))
     (S (_total_epochs b))
     (_client_activity b).

(** The dict built by [get_state]; a field is [None] when its key is
    absent, which [load_state] tolerates. *)
Record state := mkState {
  st_channels : option (list Z);
  st_window_size : option Z;
  st_exploration_bonus : option Q;
  st_mode : option Mode;
  st_history : option (gmap pykey (list observation));
  st_total_scans : option (gmap pykey nat);
  st_total_epochs : option nat;
  st_client_activity : option (gmap pykey (list Z))
}.

Definition get_state (b : t) : state :=
  mkState (Some (channels b))
          (Some (window_size b))
          (Some (exploration_bonus b))
          (Some (mode b))
          (Some (kmap (fun ch => KStr (str ch)) (_history b)))
          (Some (kmap KInt (_total_scans b)))
          (Some (_total_epochs b))
          (Some (kmap (fun ch => KStr (str ch)) (_client_activity b))).

(** [for k, v in src.items(): dst[int(k)] = v] *)
Definition load_items {V} (src : gmap pykey V) (dst : gmap Z V) : result (gmap Z V) :=
  map_fold (fun k v acc => dst ← acc; ch ← int k; Ok (<[ch := v]> dst))
           (Ok dst) src.

Definition load_state (b : t) (s : state) : result t :=
  let window_size := default (window_size b) (st_window_size s) in
  let exploration_bonus := default (exploration_bonus b) (st_exploration_bonus s) in
  history ← load_items (default ∅ (st_history s)) (_history b);
  total_scans ← load_items (default ∅ (st_total_scans s)) (_total_scans b);
  let total_epochs := default 0%nat (st_total_epochs s) in
  client_activity ←
    load_items (default ∅ (st_client_activity s)) (_client_activity b);
  Ok (mk (channels b) window_size exploration_bonus (mode b)
         history total_scans total_epochs client_activity).

Definition raw_6g_to_offset (raw_channel : Z) : Z := (raw_channel + _6G_OFFSET)%Z.
Definition offset_to_raw_6g (offset_channel : Z) : Z := (offset_channel - _6G_OFFSET)%Z.

(** [l[-k:]]: the last [k] elements for a positive [k], the whole list for
    [k = 0], and the list without its first [-k] elements for a negative
    [k]. *)
Definition slice_last {A} (l : list A) (k : Z) : list A :=
  if (0 <? k)%Z then drop (length l - Z.to_nat k) l
  else if (k =? 0)%Z then l
  else drop (Z.to_nat (- k)) l.

(** [sum(1 for _, r in history if r > 0)] *)
Definition count_successes (history : list observation) : nat :=
  length (filter (fun tr : observation => Is_true (Qlt_bool 0 (snd tr))) history).

(** [_get_windowed_stats(channel)]: the bandit afterwards (reading the
    [defaultdict] creates the channel's entry, and a history longer than the
    window is cut) and [(successes, failures)]. *)
Definition _get_windowed_stats (b : t) (channel : Z) : t * (nat * nat) :=
  let history := default [] (_history b !! channel) in
  let history :=
    if (window_size b <? Z.of_nat (length history))%Z
    then slice_last history (window_size b)
    else history in
  let successes := count_successes history in
  let failures := (length history - successes)%nat in
  (mk (channels b) (window_size b) (exploration_bonus b) (mode b)
      (<[channel := history]> (_history b))
      (_total_scans b) (_total_epochs b) (_client_activity b),
   (successes, failures)).

(** [record_client_activity(channel, client_count)] *)
Definition record_client_activity (b : t) (channel : Z) (client_count : Z) : t :=
  let history := default [] (_client_activity b !! channel) ++ [client_count] in
  let history :=
    if (window_size b <? Z.of_nat (length history))%Z
    then slice_last history (window_size b)
    else history in
  mk (channels b) (window_size b) (exploration_bonus b) (mode b)
     (_history b) (_total_scans b) (_total_epochs b)
     (<[channel := history]> (_client_activity b)).

(** [_get_avg_client_activity(channel)], with the bandit afterwards. *)
Definition _get_avg_client_activity (b : t) (channel : Z) : t * Q :=
  let history := default [] (_client_activity b !! channel) in
  (mk (channels b) (window_size b) (exploration_bonus b) (mode b)
      (_history b) (_total_scans b) (_total_epochs b)
      (<[channel := history]> (_client_activity b)),
   match history with
   | [] => 0
   | _ :: _ => inject_Z (fold_left Z.add history 0%Z) / QofN (length history)
   end).

(** One entry of the dict returned by [get_stats]. *)
Record channel_stats := mkStats {
  stats_band : Band;
  stats_scans : nat;
  stats_successes_windowed : nat;
  stats_failures_windowed : nat;
  stats_success_rate : Q
}.

(** [self._total_scans[ch]] read through the [defaultdict]: the value, and
    the map with the entry created. *)
Definition read_scans (b : t) (ch : Z) : t * nat :=
  let n := default 0%nat (_total_scans b !! ch) in
  (mk (channels b) (window_size b) (exploration_bonus b) (mode b)
      (_history b) (<[ch := n]> (_total_scans b)) (_total_epochs b)
      (_client_activity b),
   n).

(** The body of the loop of [get_stats] for one channel. *)
Definition stats_step (acc : t * gmap Z channel_stats) (ch : Z)
  : t * gmap Z channel_stats :=
  let b := fst acc in
  let stats := snd acc in
  let r := _get_windowed_stats b ch in
  let b := fst r in
  let successes := fst (snd r) in
  let failures := snd (snd r) in
  let total := (successes + failures)%nat in
  let rate := if (0 <? total)%nat then QofN successes / QofN total else 0 in
  let rs := read_scans b ch in
  (fst rs,
   <[ch := mkStats (channel_to_band ch) (snd rs) successes failures rate]> stats).

(** [get_stats()], with the bandit afterwards. *)
Definition get_stats (b : t) : t * gmap Z channel_stats :=
  fold_left stats_step (channels b) (b, ∅).

#[global] Instance Band_eq_dec : EqDecision Band.
Proof. solve_decision. Defined.

(** The module-level generator of [random], as the sequence of its results:
    the [n]-th call returns [betavariate n alpha beta] for
    [random.betavariate(alpha, beta)], [random n] for [random.random()], and
    the element at index [pick n mod len(seq)] for [random.choice(seq)]. *)
Record Random := mkRandom {
  betavariate : nat -> nat -> nat -> Q;
  random : nat -> Q;
  pick : nat -> nat
}.

(** [random.choice(seq)] as the [n]-th call, for a non-empty [seq]. *)
Definition choice (rnd : Random) (n : nat) (l : list Z) : Z :=
  nth (pick rnd n mod length l) l 0%Z.

(** The bodies of the scoring loops of [_select_active], [_select_passive]
    and [_select_assist] for one channel: the bandit afterwards, the number
    of random draws made so far, and the channel's score. *)
Definition score_active (rnd : Random) (b : t) (n : nat) (ch : Z) : t * nat * Q :=
  let r := _get_windowed_stats b ch in
  let b := fst r in
  let alpha := (1 + fst (snd r))%nat in
  let beta_param := (1 + snd (snd r))%nat in
  let score := betavariate rnd n alpha beta_param in
  let rs := read_scans b ch in
  (fst rs, S n,
   if (snd rs =? 0)%nat then score + exploration_bonus b else score).

Definition score_passive (rnd : Random) (b : t) (n : nat) (ch : Z) : t * nat * Q :=
  let r := _get_windowed_stats b ch in
  let b := fst r in
  let alpha := (1 + fst (snd r))%nat in
  let beta_param := (1 + snd (snd r))%nat in
  let score := betavariate rnd n alpha beta_param in
  let a := _get_avg_client_activity b ch in
  let b := fst a in
  let score := score + snd a * 0.3 in
  let rs := read_scans b ch in
  (fst rs, S n,
   if (snd rs =? 0)%nat then score + exploration_bonus b else score).

Definition score_assist (rnd : Random) (b : t) (n : nat) (ch : Z) : t * nat * Q :=
  let r := _get_windowed_stats b ch in
  let b := fst r in
  let alpha := (1 + fst (snd r))%nat in
  let beta_param := (1 + snd (snd r))%nat in
  let score := betavariate rnd n alpha beta_param in
  let score := score + random rnd (S n) * 0.3 in
  let rs := read_scans b ch in
  (fst rs, S (S n),
   if (snd rs =? 0)%nat then score + exploration_bonus b * 2.0 else score).

(** [scores = {}; for ch in self.channels: ...; scores[ch] = score] *)
Definition score_loop (score_ch : t -> nat -> Z -> t * nat * Q) (b : t) (n : nat)
  : t * nat * list (Z * Q) :=
  fold_left (fun st ch =>
               let r := score_ch (fst (fst st)) (snd (fst st)) ch in
               (fst (fst r), snd (fst r), dict_set (snd st) ch (snd r)))
            (channels b) (b, n, []).

(** [scores[c]] for a key of [scores], and [scores.get(c, 0)]. *)
Definition score_of (scores : list (Z * Q)) (c : Z) : Q :=
  default 0 (dict_get scores c).

(** [sorted(scores.keys(), key=lambda c: scores[c], reverse=True)]: a
    stable sort into descending score order. *)
Fixpoint insert_by_score (scores : list (Z * Q)) (c : Z) (l : list Z) : list Z :=
  match l with
  | [] => [c]
  | y :: l' =>
      if Qlt_bool (score_of scores c) (score_of scores y)
      then y :: insert_by_score scores c l'
      else c :: l
  end.

Definition ranked (scores : list (Z * Q)) : list Z :=
  foldr (insert_by_score scores) [] (dict_keys scores).

(** [[c for c in self.channels if self._total_scans[c] == 0]], with the
    bandit afterwards. *)
Definition unscanned_channels (b : t) : t * list Z :=
  fold_left (fun st c =>
               let rs := read_scans (fst st) c in
               (fst rs, if (snd rs =? 0)%nat then snd st ++ [c] else snd st))
            (channels b) (b, []).

(** [unscanned = ...
     if unscanned and not any(c in unscanned for c in selected):
         selected[-1] = random.choice(unscanned)] *)
Definition ensure_unscanned (rnd : Random) (b : t) (n : nat) (selected : list Z)
  : result (t * nat * list Z) :=
  let u := unscanned_channels b in
  let b := fst u in
  let unscanned := snd u in
  match unscanned with
  | [] => Ok (b, n, selected)
  | _ :: _ =>
      if existsb (fun c => bool_decide (c ∈ unscanned)) selected
      then Ok (b, n, selected)
      else
        let c := choice rnd n unscanned in
        match selected with
        | [] => Raise IndexError
        | _ :: _ => Ok (b, S n, <[(length selected - 1)%nat := c]> selected)
        end
  end.

(** [self._bands[band]]: the configured channels of a band, in order. *)
Definition _bands (b : t) (band : Band) : list Z :=
  filter (fun ch => channel_to_band ch = band) (channels b).

(** [max(x :: l, key=key)]: the first element with the largest key. *)
Definition max_by (key : Z -> Q) (x : Z) (l : list Z) : Z :=
  fold_left (fun best c => if Qlt_bool (key best) (key c) then c else best) l x.

(** [min(range(n), key=key)] for [n > 0]: the first index with the smallest
    key. *)
Definition min_index (key : nat -> Q) (n : nat) : nat :=
  fold_left (fun best i => if Qlt_bool (key i) (key best) then i else best)
            (seq 1 (n - 1)) 0%nat.

(** The body of the loop of [_ensure_band_diversity] for one band. *)
Definition diversity_step (b : t) (scores : list (Z * Q))
    (st : list Z * list Band) (band : Band) : list Z * list Band :=
  let selected := fst st in
  let bands_represented := snd st in
  match _bands b band with
  | [] => st
  | c0 :: rest =>
      if negb (bool_decide (band ∈ bands_represented))
         && (0 <? length selected)%nat
      then
        let best_ch := max_by (score_of scores) c0 rest in
        let worst_idx :=
          min_index (fun i => score_of scores (nth i selected 0%Z))
                    (length selected) in
        (<[worst_idx := best_ch]> selected, band :: bands_represented)
      else st
  end.

(** [_ensure_band_diversity(selected, scores, k)] *)
Definition _ensure_band_diversity (b : t) (selected : list Z)
    (scores : list (Z * Q)) : list Z :=
  fst (fold_left (diversity_step b scores) [Band2G; Band5G; Band6G]
                 (selected, map channel_to_band selected)).

Definition _select_active (rnd : Random) (b : t) (n : nat) (k : Z)
  : result (t * nat * list Z) :=
  let r := score_loop (score_active rnd) b n in
  let scores := snd r in
  let selected := slice_to (ranked scores) k in
  s ← ensure_unscanned rnd (fst (fst r)) (snd (fst r)) selected;
  if (3 <=? k)%Z
  then Ok (fst s, _ensure_band_diversity (fst (fst s)) (snd s) scores)
  else Ok s.

Definition _select_passive (rnd : Random) (b : t) (n : nat) (k : Z)
  : result (t * nat * list Z) :=
  let r := score_loop (score_passive rnd) b n in
  let scores := snd r in
  let selected := slice_to (ranked scores) k in
  ensure_unscanned rnd (fst (fst r)) (snd (fst r)) selected.

Definition _select_assist (rnd : Random) (b : t) (n : nat) (k : Z)
  : result (t * nat * list Z) :=
  let r := score_loop (score_assist rnd) b n in
  let scores := snd r in
  let selected := slice_to (ranked scores) k in
  s ← ensure_unscanned rnd (fst (fst r)) (snd (fst r)) selected;
  if (3 <=? k)%Z
  then Ok (fst s, _ensure_band_diversity (fst (fst s)) (snd s) scores)
  else Ok s.

(** [select_channels(k)]: the bandit afterwards, the number of random draws
    made so far, and the selected channels. *)
Definition select_channels (rnd : Random) (b : t) (n : nat) (k : Z)
  : result (t * nat * list Z) :=
  if (Z.of_nat (length (channels b)) <=? k)%Z then Ok (b, n, channels b)
  else
    match mode b with
    | MODE_PASSIVE => _select_passive rnd b n k
    | MODE_ASSIST => _select_assist rnd b n k
    | MODE_ACTIVE => _select_active rnd b n k
    end.

(** [sum(d.values())] *)
Definition sum_values (d : gmap Z nat) : nat :=
  map_fold (fun _ n acc => (n + acc)%nat) 0%nat d.

(** [sum(self._total_scans.values())] *)
Definition scans_sum (b : t) : nat := sum_values (_total_scans b).

(** Two states of a bandit with the same configuration and counters: the
    same channels, window, bonus, mode and epoch count, and the same scan
    count for every channel. *)
Definition same_counters (b b' : t) : Prop :=
  channels b' = channels b /\ window_size b' = window_size b /\
  exploration_bonus b' = exploration_bonus b /\ mode b' = mode b /\
  _total_epochs b' = _total_epochs b /\
  forall c, default 0%nat (_total_scans b' !! c)
            = default 0%nat (_total_scans b !! c).

(** What the three scoring bodies share: they leave configuration and
    counters alone. *)
Definition scoring (score_ch : t -> nat -> Z -> t * nat * Q) : Prop :=
  forall b n ch, same_counters b (fst (fst (score_ch b n ch))).

(** A channel the bandit has never scanned. *)
Definition never_scanned (b : t) (c : Z) : Prop :=
  default 0%nat (_total_scans b !! c) = 0%nat.

#[global] Instance never_scanned_dec (b : t) (c : Z) : Decision (never_scanned b c).
Proof. unfold never_scanned. apply _. Defined.

(** What a selection made by bandit [b] for [k] slots satisfies: only
    configured channels, at most [k] of them, some channel if there is one,
    and exactly [min(k, len(channels))] when the channels are distinct. *)
Definition selection_ok (b : t) (k : Z) (sel : list Z) : Prop :=
  Forall (fun c => c ∈ channels b) sel /\
  (length sel <= Z.to_nat k)%nat /\
  (channels b <> [] -> sel <> []) /\
  (NoDup (channels b) -> length sel = Nat.min (Z.to_nat k) (length (channels b))).

(** A call made on a bandit by its users.  [select_channels] is called
    with a positive [k]. *)
Inductive call :=
| call_update (now : Q) (channel : Z) (reward : Q)
| call_boost (now : Q) (channel : Z) (weight : Q)
| call_record_client_activity (channel : Z) (client_count : Z)
| call_get_stats
| call_select_channels (k : positive).

(** The bandit and the number of random draws after a call. *)
Definition do_call (rnd : Random) (st : t * nat) (c : call) : t * nat :=
  let b := fst st in
  let n := snd st in
  match c with
  | call_update now channel reward => (update b now channel reward, n)
  | call_boost now channel weight => (boost b now channel weight, n)
  | call_record_client_activity channel client_count =>
      (record_client_activity b channel client_count, n)
  | call_get_stats => (fst (get_stats b), n)
  | call_select_channels k =>
      match select_channels rnd b n (Z.pos k) with
      | Ok r => fst r
      | Raise _ => st
      end
  end.

Definition do_calls (rnd : Random) (st : t * nat) (cs : list call) : t * nat :=
  fold_left (do_call rnd) cs st.

(** [1 for c in calls if c is an update] *)
Definition is_update (c : call) : bool :=
  match c with
  | call_update _ _ _ => true
  | _ => false
  end.

End ChannelBandit.

(** ** RewardV2 (tactical_engine.py) *)

(** [RewardV2.__call__(epoch_data)] *)
Definition RewardV2 (epoch_data : gmap string Q) : Q :=
  let duration := Qmax (default 1 (epoch_data !! "duration_secs"%string)) 1 in
  let new_unique := default 0 (epoch_data !! "new_unique_handshakes"%string) in
  let repeat := default 0 (epoch_data !! "repeat_handshakes"%string) in
  let capture_rate := (new_unique * 1 + repeat * 0.1) / (duration / 60) in
  let total_attacked := Qmax (default 1 (epoch_data !! "targets_attacked"%string)) 1 in
  let uncaptured_attacked :=
    default total_attacked (epoch_data !! "uncaptured_targets_attacked"%string) in
  let efficiency := uncaptured_attacked / total_attacked in
  let new_aps := default 0 (epoch_data !! "new_aps_discovered"%string) in
  let exploration := Qmin (new_aps * 0.1) 0.3 in
  let channels_with_activity :=
    default 0 (epoch_data !! "channels_with_activity"%string) in
  let total_channels_scanned :=
    Qmax (default 1 (epoch_data !! "channels_scanned"%string)) 1 in
  let coverage := channels_with_activity / total_channels_scanned in
  capture_rate + 0.3 * efficiency + 0.1 * exploration + 0.1 * coverage.

(** The reward formula as the specification writes it, over the eight epoch
    metrics. *)
Definition reward_reference (duration_secs new_unique repeat uncaptured_attacked
    targets_attacked new_aps_discovered channels_with_activity channels_scanned : Q) : Q :=
  let duration_min := Qmax duration_secs 1 / 60 in
  let capture_rate := (new_unique + 0.1 * repeat) / duration_min in
  let efficiency := uncaptured_attacked / Qmax targets_attacked 1 in
  let exploration := Qmin (0.1 * new_aps_discovered) 0.3 in
  let coverage := channels_with_activity / Qmax channels_scanned 1 in
  capture_rate + 0.3 * efficiency + 0.1 * exploration + 0.1 * coverage.

(** ** bayesian_optimizer.py *)
Module GaussianProcess.

Record t := mk {
  length_scale : Q;
  noise : Q;
  X : list (list Q);
  y : list Q
}.

(** [GaussianProcess(length_scale, noise)] *)
Definition new (length_scale noise : Q) : t := mk length_scale noise [] [].

Definition fit (gp : t) (X : list (list Q)) (y : list Q) : t :=
  mk (length_scale gp) (noise gp) X y.

(** The jitter [1e-10]. *)
Definition eps : Q := 1e-10.

(** [M[i][j]] and [M[i][j] = v]. *)
Definition get2 (M : list (list Q)) (i j : nat) : result Q :=
  row ← get M i; get row j.

Definition set2 (M : list (list Q)) (i j : nat) (v : Q) : result (list (list Q)) :=
  row ← get M i; row' ← set row j v; set M i row'.

(** [M] is a list of [n] rows of [n] entries. *)
Definition square (n : nat) (M : list (list Q)) : Prop :=
  length M = n /\ Forall (fun row => length row = n) M.

(** Entry [M[k][k]] exists and is not zero. *)
Definition diag_nonzero (M : list (list Q)) (k : nat) : Prop :=
  exists d, get2 M k k = Ok d /\ ~ d == 0.

(** A triangular system over [M] can be solved for up to [n] unknowns. *)
Definition solvable (n : nat) (M : list (list Q)) : Prop :=
  square n M /\ forall k, (k < n)%nat -> diag_nonzero M k.

Section Math.
(** The C library's [exp] and [sqrt] behind [math.exp] and [math.sqrt],
    as functions on the model's numbers, and the float operation
    [x ** 2]: its value, or [OverflowError] when the result is out of the
    range of a float (a result too small for a float is 0).  Sums,
    differences, products and quotients of floats never raise in Python
    (they overflow to [inf]); only [**], a division by zero, an index out
    of range and [math.sqrt] of a negative number do. *)
Variable libm_exp : Q -> Q.
Variable libm_sqrt : Q -> Q.
Variable float_sq : Q -> result Q.

(** [math.sqrt(x)]: a negative argument raises [ValueError]. *)
Definition math_sqrt (x : Q) : result Q :=
  if Qlt_bool x 0 then Raise ValueError else Ok (libm_sqrt x).

Definition _rbf_kernel (gp : t) (x1 x2 : list Q) : result Q :=
  sq ← mapM (fun ab => float_sq (fst ab - snd ab)) (zip x1 x2);
  let sq_dist := Qsum sq in
  l2 ← float_sq (length_scale gp);
  q ← py_div (-0.5 * sq_dist) l2;
  Ok (libm_exp q).

Definition _kernel_matrix (gp : t) (X : list (list Q)) : result (list (list Q)) :=
  let n := length X in
  mapM (fun i =>
          mapM (fun j =>
                  xi ← get X i;
                  xj ← get X j;
                  k ← _rbf_kernel gp xi xj;
                  if (i =? j)%nat
                  then n2 ← float_sq (noise gp); Ok (k + n2)
                  else Ok k)
               (seq 0 n))
       (seq 0 n).

Definition _kernel_vector (gp : t) (X : list (list Q)) (x : list Q)
  : result (list Q) :=
  mapM (fun xi => _rbf_kernel gp xi x) X.

Definition _cholesky (A : list (list Q)) : result (list (list Q)) :=
  let n := length A in
  let L := replicate n (replicate n 0) in
  foldM (fun L j =>
           sq ← mapM (fun k => ljk ← get2 L j k; float_sq ljk) (seq 0 j);
           let s := Qsum sq in
           ajj ← get2 A j j;
           d ← math_sqrt (Qmax (ajj - s) eps);
           L ← set2 L j j d;
           foldM (fun L i =>
                    pr ← mapM (fun k =>
                                 lik ← get2 L i k;
                                 ljk ← get2 L j k;
                                 Ok (lik * ljk))
                              (seq 0 j);
                    let s := Qsum pr in
                    aij ← get2 A i j;
                    ljj ← get2 L j j;
                    q ← py_div (aij - s) ljj;
                    set2 L i j q)
                 L (seq (j + 1) (n - (j + 1))))
        L (seq 0 n).

Definition _solve_triangular_lower (L : list (list Q)) (b : list Q)
  : result (list Q) :=
  let n := length b in
  foldM (fun x i =>
           pr ← mapM (fun j => lij ← get2 L i j; xj ← get x j; Ok (lij * xj))
                     (seq 0 i);
           let s := Qsum pr in
           bi ← get b i;
           lii ← get2 L i i;
           q ← py_div (bi - s) lii;
           set x i q)
        (replicate n 0) (seq 0 n).

Definition _solve_triangular_upper (U : list (list Q)) (b : list Q)
  : result (list Q) :=
  let n := length b in
  foldM (fun x i =>
           pr ← mapM (fun j => uij ← get2 U i j; xj ← get x j; Ok (uij * xj))
                     (seq (i + 1) (n - (i + 1)));
           let s := Qsum pr in
           bi ← get b i;
           uii ← get2 U i i;
           q ← py_div (bi - s) uii;
           set x i q)
        (replicate n 0) (rev (seq 0 n)).

(** [[[L[j][i] for j in range(len(L))] for i in range(len(L))]] *)
Definition transposed (L : list (list Q)) : result (list (list Q)) :=
  mapM (fun i => mapM (fun j => get2 L j i) (seq 0 (length L))) (seq 0 (length L)).

Definition predict (gp : t) (x : list Q) : result (Q * Q) :=
  match X gp with
  | [] => Ok (0, 1)
  | _ :: _ =>
      K ← _kernel_matrix gp (X gp);
      k ← _kernel_vector gp (X gp) x;
      match _cholesky K with
      | Raise ValueError | Raise ZeroDivisionError => Ok (0, 1)
      | Raise e => Raise e
      | Ok L =>
          alpha ← _solve_triangular_lower L (y gp);
          U ← transposed L;
          alpha ← _solve_triangular_upper U alpha;
          let mean := Qsum (map (fun ak => fst ak * snd ak) (zip alpha k)) in
          v ← _solve_triangular_lower L k;
          kxx ← _rbf_kernel gp x x;
          n2 ← float_sq (noise gp);
          let k_star := kxx + n2 in
          vsq ← mapM float_sq v;
          let variance := k_star - Qsum vsq in
          let variance := Qmax variance eps in
          Ok (mean, variance)
      end
  end.
End Math.

(** Rational stand-ins for the library functions, used to run the model on
    examples: one Newton step from 1 for the square root, a truncated
    series for the exponential, and for [x ** 2] the exact square inside
    the range of a double: [OverflowError] from [2 ** 1024] up, and 0 below
    [2 ** -1075]. *)
Definition sqrt_approx (x : Q) : Q := (x + 1) / 2.
Definition exp_approx (x : Q) : Q := 1 + x + x * x / 2.
Definition sq_range (x : Q) : result Q :=
  let v := x ^ 2 in
  if Qle_bool (2 ^ 1024) v then Raise OverflowError
  else if Qlt_bool v (2 ^ (-1075)) then Ok 0
  else Ok v.

(** A call that returns a value satisfying [P], or raises
    [OverflowError]. *)
Definition returns_or_overflows {A} (P : A -> Prop) (r : result A) : Prop :=
  match r with
  | Ok a => P a
  | Raise e => e = OverflowError
  end.

End GaussianProcess.

Module BayesianOptimizer.

Definition TIMING_PARAMS : list (string * (Q * Q)) :=
  [("recon_time", (5, 120));
   ("hop_recon_time", (2, 60));
   ("min_recon_time", (1, 30));
   ("ap_ttl", (30, 600));
   ("sta_ttl", (30, 600))]%string.

Definition MAX_OBSERVATIONS : nat := 80.

(** [best_reward]: [float('-inf')] until a reward has been seen. *)
Inductive best := NegInf | Fin (r : Q).

(** [reward > self.best_reward] *)
Definition exceeds (reward : Q) (b : best) : bool :=
  match b with
  | NegInf => true
  | Fin r => Qlt_bool r reward
  end.

Record t := mk {
  param_names : list string;
  bounds : list (Q * Q);
  n_dims : nat;
  n_initial : nat;
  n_candidates : nat;
  gp : GaussianProcess.t;
  X_history : list (list Q);
  y_history : list Q;
  param_history : list (gmap string Q);
  best_reward : best;
  best_params : option (gmap string Q)
}.

(** [BayesianOptimizer(parameters, gp_noise, gp_length_scale, n_initial,
    n_candidates)] *)
Definition new (parameters : list (string * (Q * Q))) (gp_noise gp_length_scale : Q)
    (n_initial n_candidates : nat) : t :=
  mk (map fst parameters) (map snd parameters) (length parameters)
     n_initial n_candidates (GaussianProcess.new gp_length_scale gp_noise)
     [] [] [] NegInf None.

Definition _normalize (o : t) (params_dict : gmap string Q) : result (list Q) :=
  mapM (fun nb =>
          let name := fst nb in
          let lo := fst (snd nb) in
          let hi := snd (snd nb) in
          match params_dict !! name with
          | None => Raise KeyError
          | Some val => Ok (if Qlt_bool lo hi then (val - lo) / (hi - lo) else 0.5)
          end)
       (zip (param_names o) (bounds o)).

(** [max(l)] on a list of floats: the first maximal element. *)
Fixpoint max_from (x : Q) (l : list Q) : Q :=
  match l with
  | [] => x
  | y :: l' => max_from (if Qlt_bool x y then y else x) l'
  end.

Definition list_max (l : list Q) : result Q :=
  match l with
  | [] => Raise ValueError
  | x :: l' => Ok (max_from x l')
  end.

(** [l.index(v)] *)
Fixpoint index (l : list Q) (v : Q) : result nat :=
  match l with
  | [] => Raise ValueError
  | y :: l' => if Qeq_bool y v then Ok 0%nat else i ← index l' v; Ok (S i)
  end.

Definition observe (o : t) (params_dict : gmap string Q) (reward : Q) : result t :=
  x ← _normalize o params_dict;
  let X := X_history o ++ [x] in
  let y := y_history o ++ [reward] in
  let P := param_history o ++ [params_dict] in
  let best_reward' :=
    if exceeds reward (best_reward o) then Fin reward else best_reward o in
  let best_params' :=
    if exceeds reward (best_reward o) then Some params_dict else best_params o in
  if (MAX_OBSERVATIONS <? length X)%nat then
    m ← list_max y;
    best_idx ← index y m;
    XyP ← (if (best_idx <? length X - MAX_OBSERVATIONS + 1)%nat then
             xb ← get X best_idx;
             X ← set X 0 xb;
             yb ← get y best_idx;
             y ← set y 0 yb;
             pb ← get P best_idx;
             P ← set P 0 pb;
             Ok (X, y, P)
           else Ok (X, y, P));
    let X := fst (fst XyP) in
    let y := snd (fst XyP) in
    let P := snd XyP in
    let excess := (length X - MAX_OBSERVATIONS)%nat in
    Ok (mk (param_names o) (bounds o) (n_dims o) (n_initial o) (n_candidates o)
           (gp o) (drop excess X) (drop excess y) (drop excess P)
           best_reward' best_params')
  else
    Ok (mk (param_names o) (bounds o) (n_dims o) (n_initial o) (n_candidates o)
           (gp o) X y P best_reward' best_params').

(** A run of [observe] calls on one optimizer.  A call that raises leaves
    the optimizer as the caller sees it afterwards; from a fresh optimizer
    the only such call is one whose [params_dict] lacks a parameter name,
    which raises in [_normalize] before anything is updated. *)
Definition observe_all (o : t) (calls : list (gmap string Q * Q)) : t :=
  fold_left (fun o call =>
               match observe o (fst call) (snd call) with
               | Ok o' => o'
               | Raise _ => o
               end)
            calls o.

(** [self.best_reward >= y] *)
Definition best_ge (b : best) (y : Q) : Prop :=
  match b with
  | NegInf => False
  | Fin r => y <= r
  end.

(** What every [observe] keeps true of the three history arrays and the
    best reward. *)
Definition history_ok (o : t) : Prop :=
  length (X_history o) = length (y_history o) /\
  length (param_history o) = length (y_history o) /\
  (length (y_history o) <= MAX_OBSERVATIONS)%nat /\
  Forall (best_ge (best_reward o)) (y_history o).

(** [_denormalize(x)] *)
Definition _denormalize (o : t) (x : list Q) : result (gmap string Q) :=
  foldM (fun params inb =>
           let i := fst inb in
           let name := fst (snd inb) in
           let lo := fst (snd (snd inb)) in
           let hi := snd (snd (snd inb)) in
           xi ← get x i;
           Ok (<[name := lo + xi * (hi - lo)]> params))
        ∅ (imap (fun i nb => (i, nb)) (zip (param_names o) (bounds o))).

(** [get_best()] *)
Definition get_best (o : t) : option (gmap string Q) * best :=
  (best_params o, best_reward o).

(** Whether [observe] records a call: its [params_dict] has every parameter
    name of [o]. *)
Definition normalizes (o : t) (call : gmap string Q * Q) : bool :=
  match _normalize o (fst call) with
  | Ok _ => true
  | Raise _ => false
  end.

(** The rewards of the calls of a run that [observe] records. *)
Definition accepted (o : t) (calls : list (gmap string Q * Q)) : list Q :=
  map snd (List.filter (normalizes o) calls).

(** [get_best()] is the largest reward of [seen], with the parameters of a
    call of [calls] that earned it. *)
Definition best_of (o : t) (seen : list Q) (calls : list (gmap string Q * Q))
  : Prop :=
  match get_best o with
  | (params, NegInf) => seen = [] /\ params = None
  | (params, Fin r) =>
      r ∈ seen /\ Forall (fun y => y <= r) seen /\
      exists p, params = Some p /\ (p, r) ∈ calls
  end.

End BayesianOptimizer.

(** ** pineapd_adapter.py *)
Module PineapdAdapter.
Import TacticalEngine.

(** The calls the adapter makes on the agent: [agent.associate(ap)],
    [agent.deauth(ap, sta)] and [agent.broadcast_deauth(ap)]. *)
Inductive command :=
| Associate (ap : AP)
| Deauth (ap : AP) (sta : Client)
| BroadcastDeauth (ap : AP).

(** The calls made so far, oldest first, each with whether it returned
    ([true]) or raised ([false]). *)
Definition trace : Type := list (command * bool).

(** The agent as the adapter sees it: whether a call returns or raises,
    given the calls made before it. *)
Definition agent : Type := trace -> command -> bool.

(** [try: <call>; ... except Exception: ...]: the outcome of the call and
    the trace afterwards. *)
Definition try_call (ag : agent) (tr : trace) (cmd : command) : bool * trace :=
  let ok := ag tr cmd in
  (ok, tr ++ [(cmd, ok)]).

Definition _associate_only (ag : agent) (tr : trace) (ap : AP) : bool * trace :=
  try_call ag tr (Associate ap).

Definition _broadcast_deauth (ag : agent) (tr : trace) (ap : AP) : bool * trace :=
  try_call ag tr (BroadcastDeauth ap).

Definition _deauth_clients (ag : agent) (tr : trace) (ap : AP) : bool * trace :=
  match get_clients ap with
  | [] => _broadcast_deauth ag tr ap
  | _ :: _ =>
      fold_left (fun st sta =>
                   let r := try_call ag (snd st) (Deauth ap sta) in
                   (fst st || fst r, snd r))
                (get_clients ap) (false, tr)
  end.

Definition _assoc_then_deauth (ag : agent) (tr : trace) (ap : AP) : bool * trace :=
  let tr := snd (_associate_only ag tr ap) in
  match get_clients ap with
  | [] => (true, snd (_broadcast_deauth ag tr ap))
  | _ :: _ =>
      (true,
       fold_left (fun tr sta => snd (try_call ag tr (Deauth ap sta)))
                 (get_clients ap) tr)
  end.

(** [execute_attack(ap, attack_type)]: the value returned and the trace
    afterwards. *)
Definition execute_attack (ag : agent) (tr : trace) (ap : AP) (attack_type : Attack)
  : bool * trace :=
  match attack_type with
  | ATTACK_SKIP => (false, tr)
  | _ =>
      let mac := default ""%string (ap_mac ap) in
      if String.eqb mac "" then (false, tr)
      else
        match attack_type with
        | ATTACK_ASSOC_DEAUTH => _assoc_then_deauth ag tr ap
        | ATTACK_DEAUTH_ONLY => _deauth_clients ag tr ap
        | ATTACK_BROADCAST_DEAUTH => _broadcast_deauth ag tr ap
        | ATTACK_ASSOC_ONLY => _associate_only ag tr ap
        | ATTACK_SKIP => (false, tr)
        end
  end.

(** The deauthentication calls for an AP: one per known client, or one
    broadcast when no client is known. *)
Definition deauth_commands (ap : AP) : list command :=
  match get_clients ap with
  | [] => [BroadcastDeauth ap]
  | _ :: _ => map (Deauth ap) (get_clients ap)
  end.

(** The calls an attack on an AP consists of. *)
Definition commands_for (ap : AP) (attack_type : Attack) : list command :=
  if String.eqb (default ""%string (ap_mac ap)) "" then []
  else
    match attack_type with
    | ATTACK_ASSOC_DEAUTH => Associate ap :: deauth_commands ap
    | ATTACK_DEAUTH_ONLY => deauth_commands ap
    | ATTACK_BROADCAST_DEAUTH => [BroadcastDeauth ap]
    | ATTACK_ASSOC_ONLY => [Associate ap]
    | ATTACK_SKIP => []
    end.

(** The trace [tr'] extends [tr] by the calls [cmds], in order, each with
    the outcome the agent gave at that point. *)
Fixpoint issued (ag : agent) (tr : trace) (cmds : list command) : trace :=
  match cmds with
  | [] => tr
  | cmd :: cmds' => issued ag (tr ++ [(cmd, ag tr cmd)]) cmds'
  end.

End PineapdAdapter.

(** ** nextgen/__init__.py *)
Module NextGenBrain.

(** [sorted(set(channels))] *)
Definition sorted_set (channels : list Z) : list Z :=
  merge_sort Z.le (remove_dups channels).

(** The channel list the constructor starts from; [supported] is
    [agent._supported_channels], [None] when the agent has no such
    attribute.  An absent or empty list falls back to 2.4 GHz channels
    1 to 11. *)
Definition sensor_channels (supported : option (list Z)) : list Z :=
  let channels :=
    match supported with
    | Some (c :: cs) => c :: cs
    | _ => []
    end in
  match channels with
  | [] => map Z.of_nat (seq 1 11)
  | _ :: _ => channels
  end.

(** The channel list [NextGenBrain.__init__] hands to the bandit. *)
Definition bandit_channels (supported : option (list Z)) : list Z :=
  let channels := sensor_channels supported in
  let channels := sorted_set channels in
  filter (fun ch => (ch <= 177)%Z) channels.

(** The bandit built by the constructor. *)
Definition init_bandit (supported : option (list Z)) (bandit_window : Z) (mode : Mode)
  : ChannelBandit.t :=
  ChannelBandit.new (bandit_channels supported) bandit_window 0.1 mode.

(** The brain's components and epoch counters.  The tactical engine works
    on the brain's own context object, so the context is held once.  The
    optimizer, which only [on_epoch] uses, is left out. *)
Record t := mk {
  _mode : Mode;
  _bandit : ChannelBandit.t;
  _context : CaptureContext.t;
  _tactical : TacticalEngine.t;
  _epoch_new_handshakes : nat;
  _epoch_repeat_handshakes : nat;
  _epoch_targets_attacked : nat;
  _epoch_uncaptured_attacked : nat;
  _epoch_channels_scanned : nat;
  _epoch_channels_with_activity : nat;
  _epoch_new_aps : nat;
  _known_ap_macs : gset string
}.

(** [select_channels(k)] *)
Definition select_channels (rnd : ChannelBandit.Random) (br : t) (n : nat) (k : Z)
  : result (t * nat * list Z) :=
  let k :=
    match _mode br with
    | MODE_ASSIST =>
        Z.max k (Z.of_nat (length (ChannelBandit.channels (_bandit br))) / 2)
    | _ => k
    end in
  r ← ChannelBandit.select_channels rnd (_bandit br) n k;
  let channels := snd r in
  Ok (mk (_mode br) (fst (fst r)) (_context br) (_tactical br)
         (_epoch_new_handshakes br) (_epoch_repeat_handshakes br)
         (_epoch_targets_attacked br) (_epoch_uncaptured_attacked br)
         (_epoch_channels_scanned br + length channels)
         (_epoch_channels_with_activity br) (_epoch_new_aps br)
         (_known_ap_macs br),
      snd (fst r), channels).

(** The first loop of [plan_attacks]: the known MACs and the count of new
    APs afterwards. *)
Definition track_new_aps (known : gset string) (new_aps : nat)
    (access_points : list AP) : gset string * nat :=
  fold_left (fun st ap =>
               let mac := lower (default ""%string (ap_mac ap)) in
               if negb (String.eqb mac "") && bool_decide (mac ∉ fst st)
               then ({[mac]} ∪ fst st, S (snd st))
               else st)
            access_points (known, new_aps).

(** The second loop of [plan_attacks]: the clients seen per channel. *)
Definition channel_clients (access_points : list AP) : list (Z * nat) :=
  fold_left (fun d ap =>
               let ch := default 0%Z (ap_channel ap) in
               if (0 <? ch)%Z
               then dict_set d ch
                      (default 0%nat (dict_get d ch)
                       + length (TacticalEngine.get_clients ap))%nat
               else d)
            access_points [].

(** The third loop of [plan_attacks]; [boost_clk i] is the value of
    [time.time()] in the [i]-th iteration. *)
Definition feed_bandit (b : ChannelBandit.t) (boost_clk : nat -> Q)
    (items : list (Z * nat)) : ChannelBandit.t :=
  fst (fold_left (fun st item =>
                    let ch := fst item in
                    let count := snd item in
                    let b :=
                      ChannelBandit.record_client_activity (fst st) ch
                        (Z.of_nat count) in
                    let b :=
                      if (0 <? count)%nat
                      then ChannelBandit.boost b (boost_clk (snd st)) ch
                             (Qmin (QofN count * 0.1) 0.5)
                      else b in
                    (b, S (snd st)))
                 items (b, 0%nat)).

(** [plan_attacks(access_points)]; [clk i] is the value of [time.time()]
    when the [i]-th AP is scored. *)
Definition plan_attacks (br : t) (boost_clk clk : nat -> Q) (access_points : list AP)
  : t * list TacticalEngine.entry :=
  let tracked := track_new_aps (_known_ap_macs br) (_epoch_new_aps br)
                   access_points in
  let bandit := feed_bandit (_bandit br) boost_clk (channel_clients access_points) in
  let planned := TacticalEngine.plan_epoch (_tactical br) (_context br) clk
                   access_points in
  let context := fst planned in
  let plan := snd planned in
  let uncaptured :=
    length (List.filter
              (fun x : TacticalEngine.entry =>
                 negb (CaptureContext.has_handshake context
                         (default ""%string (ap_mac (fst (fst x))))))
              plan) in
  (mk (_mode br) bandit context (_tactical br)
      (_epoch_new_handshakes br) (_epoch_repeat_handshakes br)
      (length plan) uncaptured
      (_epoch_channels_scanned br) (_epoch_channels_with_activity br)
      (snd tracked) (fst tracked),
   plan).

(** [execute_attack(ap, attack_type)]: the brain and the agent's trace
    afterwards, and the value returned. *)
Definition execute_attack (br : t) (ag : PineapdAdapter.agent)
    (tr : PineapdAdapter.trace) (ap : AP) (attack_type : Attack)
  : t * bool * PineapdAdapter.trace :=
  match attack_type with
  | ATTACK_SKIP => (br, false, tr)
  | _ =>
      let mac := lower (default ""%string (ap_mac ap)) in
      let context :=
        if String.eqb mac "" then _context br
        else CaptureContext.record_interaction (_context br) mac in
      let r := PineapdAdapter.execute_attack ag tr ap attack_type in
      (mk (_mode br) (_bandit br) context (_tactical br)
          (_epoch_new_handshakes br) (_epoch_repeat_handshakes br)
          (_epoch_targets_attacked br) (_epoch_uncaptured_attacked br)
          (_epoch_channels_scanned br) (_epoch_channels_with_activity br)
          (_epoch_new_aps br) (_known_ap_macs br),
       fst r, snd r)
  end.

(** [on_handshake(ap_mac, channel)]; [now] and [now'] are the values of
    [time.time()] in [record_handshake] and in the bandit's [update]. *)
Definition on_handshake (br : t) (now now' : Q) (ap_mac : string) (channel : Z) : t :=
  let ap_mac := lower ap_mac in
  let is_new := negb (CaptureContext.has_handshake (_context br) ap_mac) in
  let context := CaptureContext.record_handshake (_context br) now ap_mac "full" None in
  let bandit :=
    if (0 <? channel)%Z then ChannelBandit.update (_bandit br) now' channel 1
    else _bandit br in
  mk (_mode br) bandit context (_tactical br)
     (if is_new then S (_epoch_new_handshakes br) else _epoch_new_handshakes br)
     (if is_new then _epoch_repeat_handshakes br
      else S (_epoch_repeat_handshakes br))
     (_epoch_targets_attacked br) (_epoch_uncaptured_attacked br)
     (_epoch_channels_scanned br) (_epoch_channels_with_activity br)
     (_epoch_new_aps br) (_known_ap_macs br).

(** [on_channel_scanned(channel, had_activity)] *)
Definition on_channel_scanned (br : t) (now : Q) (channel : Z) (had_activity : bool)
  : t :=
  mk (_mode br)
     (if had_activity then _bandit br
      else ChannelBandit.update (_bandit br) now channel 0)
     (_context br) (_tactical br)
     (_epoch_new_handshakes br) (_epoch_repeat_handshakes br)
     (_epoch_targets_attacked br) (_epoch_uncaptured_attacked br)
     (_epoch_channels_scanned br)
     (if had_activity then S (_epoch_channels_with_activity br)
      else _epoch_channels_with_activity br)
     (_epoch_new_aps br) (_known_ap_macs br).

(** [has_handshake(mac)] *)
Definition has_handshake (br : t) (mac : string) : bool :=
  CaptureContext.has_handshake (_context br) mac.

(** What the main loop does with the brain between two [on_epoch] calls. *)
Inductive event :=
| ev_plan_attacks (boost_clk clk : nat -> Q) (access_points : list AP)
| ev_execute_attack (ap : AP) (attack_type : Attack)
| ev_on_handshake (now now' : Q) (ap_mac : string) (channel : Z)
| ev_on_channel_scanned (now : Q) (channel : Z) (had_activity : bool).

(** The brain and the agent's trace after an event. *)
Definition do_event (ag : PineapdAdapter.agent) (st : t * PineapdAdapter.trace)
    (e : event) : t * PineapdAdapter.trace :=
  let br := fst st in
  let tr := snd st in
  match e with
  | ev_plan_attacks boost_clk clk access_points =>
      (fst (plan_attacks br boost_clk clk access_points), tr)
  | ev_execute_attack ap attack_type =>
      let r := execute_attack br ag tr ap attack_type in
      (fst (fst r), snd r)
  | ev_on_handshake now now' ap_mac channel =>
      (on_handshake br now now' ap_mac channel, tr)
  | ev_on_channel_scanned now channel had_activity =>
      (on_channel_scanned br now channel had_activity, tr)
  end.

Definition do_events (ag : PineapdAdapter.agent) (st : t * PineapdAdapter.trace)
    (es : list event) : t * PineapdAdapter.trace :=
  fold_left (do_event ag) es st.

(** Whether an event is an [on_handshake], and whether it makes the bandit
    record a scan. *)
Definition is_handshake (e : event) : bool :=
  match e with
  | ev_on_handshake _ _ _ _ => true
  | _ => false
  end.

Definition is_scan (e : event) : bool :=
  match e with
  | ev_on_handshake _ _ _ channel => (0 <? channel)%Z
  | ev_on_channel_scanned _ _ had_activity => negb had_activity
  | _ => false
  end.

End NextGenBrain.

(** ** Concrete values used in examples *)
Module Examples.

Definition client1 : Client :=
  mkClient (Some "11:22:33:44:55:66"%string) (Some 1000) None.

(** A WPA2 access point with one client, as the unit tests build it. *)
Definition ap_one_client : AP :=
  mkAP (Some "aa:bb:cc:dd:ee:ff"%string) (Some "TestAP"%string) (Some 6%Z)
       (Some (-60)%Z) (Some "WPA2"%string) (Some [client1]) (Some 1000) None.

Definition ap_no_clients : AP :=
  mkAP (Some "aa:bb:cc:dd:ee:ff"%string) (Some "TestAP"%string) (Some 6%Z)
       (Some (-60)%Z) (Some "WPA2"%string) (Some []) (Some 1000) None.

Definition engine : TacticalEngine.t := TacticalEngine.mk 3 20 MODE_ACTIVE.

Definition now : Q := 1000.
Definition clock (_ : nat) : Q := 1000.

(** A clock read five minutes after [now]. *)
Definition later_clock (_ : nat) : Q := 1300.

(** [ctx.record_handshake("aa:bb:cc:dd:ee:ff")] on a new context. *)
Definition captured : CaptureContext.t :=
  CaptureContext.record_handshake CaptureContext.empty 999
    "aa:bb:cc:dd:ee:ff" "full" None.

(** Three [record_interaction] calls on a new context. *)
Definition interacted3 : CaptureContext.t :=
  CaptureContext.record_interaction
    (CaptureContext.record_interaction
       (CaptureContext.record_interaction CaptureContext.empty "aa:bb:cc:dd:ee:ff")
       "aa:bb:cc:dd:ee:ff")
    "aa:bb:cc:dd:ee:ff".

(** The high-activity metrics dict of the unit tests. *)
Definition high_metrics : gmap string Q :=
  list_to_map
    [("duration_secs", 60); ("new_unique_handshakes", 3);
     ("repeat_handshakes", 0); ("targets_attacked", 5);
     ("uncaptured_targets_attacked", 5); ("channels_scanned", 5);
     ("channels_with_activity", 3); ("new_aps_discovered", 2)]%string.

(** An optimizer over the default timing parameters. *)
Definition optimizer : BayesianOptimizer.t :=
  BayesianOptimizer.new BayesianOptimizer.TIMING_PARAMS 0.1 0.5 10 200.

Definition params_best : gmap string Q :=
  list_to_map
    [("recon_time", 60); ("hop_recon_time", 30); ("min_recon_time", 15);
     ("ap_ttl", 300); ("sta_ttl", 300)]%string.

Definition params_other : gmap string Q :=
  list_to_map
    [("recon_time", 5); ("hop_recon_time", 2); ("min_recon_time", 1);
     ("ap_ttl", 30); ("sta_ttl", 30)]%string.

(** [MAX_OBSERVATIONS + 50] observations, the first of which is the best. *)
Definition best_first_calls : list (gmap string Q * Q) :=
  (params_best, 10) :: repeat (params_other, 0) 129.

(** A process fitted to two observations, and a query point. *)
Definition gp : GaussianProcess.t :=
  GaussianProcess.fit (GaussianProcess.new 0.5 0.1) [[0; 0]; [1; 0.5]] [1; 2].

Definition query : list Q := [0.5; 0.5].

(** A random source that always draws one half and picks the first
    element. *)
Definition rnd : ChannelBandit.Random :=
  ChannelBandit.mkRandom (fun _ _ _ => 0.5) (fun _ => 0.5) (fun _ => 0%nat).

(** A passive bandit over four channels, two of them scanned. *)
Definition bandit : ChannelBandit.t :=
  ChannelBandit.update
    (ChannelBandit.update
       (ChannelBandit.new [1; 6; 11; 36]%Z 30 0.1 MODE_PASSIVE) 1 1%Z 0)
    2 6%Z 1.

(** The brain the constructor builds in a given mode over an empty
    handshake directory, for an agent without a channel list. *)
Definition brain (mode : Mode) : NextGenBrain.t :=
  NextGenBrain.mk mode (NextGenBrain.init_bandit None 30 mode)
    CaptureContext.empty (TacticalEngine.mk 3 20 mode) 0 0 0 0 0 0 0 ∅.

(** An agent whose every call raises. *)
Definition failing_agent : PineapdAdapter.agent := fun _ _ => false.

End Examples.

(** * Properties *)

(** ** Helper facts *)

Lemma Qlt_bool_iff (a b : Q) : Qlt_bool a b = true <-> a < b.
Proof.
  unfold Qlt_bool. rewrite negb_true_iff. split.
  - intros H. apply Qnot_le_lt. intros Hle.
    apply Qle_bool_iff in Hle. congruence.
  - intros H. destruct (Qle_bool b a) eqn:E; [|reflexivity].
    apply Qle_bool_iff in E. exfalso. exact (Qlt_not_le _ _ H E).
Qed.

Lemma Qlt_bool_false (a b : Q) : Qlt_bool a b = false <-> b <= a.
Proof.
  unfold Qlt_bool. rewrite negb_false_iff. apply Qle_bool_iff.
Qed.

Lemma ascii_lower_idemp (a : ascii) : ascii_lower (ascii_lower a) = ascii_lower a.
Proof.
  destruct a as [[] [] [] [] [] [] [] []]; reflexivity.
Qed.

Lemma lower_idemp (s : string) : lower (lower s) = lower s.
Proof.
  induction s as [|a s IH]; simpl; [reflexivity|].
  unfold lower in *. simpl. now rewrite ascii_lower_idemp, IH.
Qed.

Lemma QofN_S (n : nat) : QofN (S n) == QofN n + 1.
Proof.
  unfold QofN. rewrite Nat2Z.inj_succ, <- Z.add_1_r, inject_Z_plus. reflexivity.
Qed.

Lemma slice_to_nonneg {A} (l : list A) (k : Z) :
  (0 <= k)%Z -> slice_to l k = firstn (Z.to_nat k) l.
Proof.
  intros Hk. unfold slice_to.
  destruct (k <? 0)%Z eqn:E; [|reflexivity].
  apply Z.ltb_lt in E. lia.
Qed.

Lemma slice_to_nil {A} (k : Z) : slice_to (@nil A) k = [].
Proof.
  unfold slice_to. destruct (k <? 0)%Z; apply firstn_nil.
Qed.

(** ** Capture context *)
Section ContextFacts.
Import CaptureContext.

Lemma record_interaction_session c mac :
  get_session_interactions (record_interaction c mac) mac
  = S (get_session_interactions c mac).
Proof.
  unfold get_session_interactions, record_interaction. simpl.
  now rewrite lookup_insert_eq.
Qed.

Lemma record_interaction_epoch c mac :
  get_epoch_interactions (record_interaction c mac) mac
  = S (get_epoch_interactions c mac).
Proof.
  unfold get_epoch_interactions, record_interaction. simpl.
  now rewrite lookup_insert_eq.
Qed.

Lemma record_interaction_has_handshake c mac m :
  has_handshake (record_interaction c mac) m = has_handshake c m.
Proof. reflexivity. Qed.

Lemma new_epoch_epoch c mac : get_epoch_interactions (new_epoch c) mac = 0%nat.
Proof.
  unfold get_epoch_interactions, new_epoch. simpl. now rewrite lookup_empty.
Qed.


End ContextFacts.

(** ** Tactical engine *)
Section TacticalFacts.
Import CaptureContext TacticalEngine.

Lemma get_session_interactions_lower c mac :
  get_session_interactions c (lower mac) = get_session_interactions c mac.
Proof. unfold get_session_interactions. now rewrite lower_idemp. Qed.

Lemma get_epoch_interactions_lower c mac :
  get_epoch_interactions c (lower mac) = get_epoch_interactions c mac.
Proof. unfold get_epoch_interactions. now rewrite lower_idemp. Qed.


Lemma get_new_clients_new_epoch c mac clients :
  get_new_clients (new_epoch c) mac clients = get_new_clients c mac clients.
Proof. reflexivity. Qed.

Lemma Attack_eqb_eq a b : Attack_eqb a b = true <-> a = b.
Proof. destruct a, b; simpl; split; intros H; reflexivity || discriminate. Qed.

Lemma scan_targets_ok e c clk i all_aps :
  Forall entry_ok (scan_targets e c clk i all_aps).
Proof.
  revert i. induction all_aps as [|ap rest IH]; intros i; simpl.
  - constructor.
  - destruct (Qlt_bool 0 (score_target e c (clk i) ap)) eqn:Hs; [|apply IH].
    destruct (Attack_eqb (select_attack e c ap) ATTACK_SKIP) eqn:Ha; simpl; [apply IH|].
    constructor; [|apply IH]. split; simpl.
    + now apply Qlt_bool_iff.
    + intros Heq. unfold entry_attack in Heq. simpl in Heq.
      apply Attack_eqb_eq in Heq. rewrite Heq in Ha. discriminate.
Qed.

Lemma insert_desc_Forall (P : entry -> Prop) x l :
  P x -> Forall P l -> Forall P (insert_desc x l).
Proof.
  intros Hx Hl. induction Hl as [|y l Hy Hl IH]; simpl.
  - repeat constructor. exact Hx.
  - destruct (Qlt_bool (entry_score x) (entry_score y)); repeat constructor; auto.
Qed.

Lemma sort_desc_Forall (P : entry -> Prop) l :
  Forall P l -> Forall P (sort_desc l).
Proof.
  induction 1 as [|x l Hx Hl IH]; simpl; [constructor|].
  now apply insert_desc_Forall.
Qed.

Lemma insert_desc_sorted x l :
  StronglySorted score_ge l -> StronglySorted score_ge (insert_desc x l).
Proof.
  induction 1 as [|y l Hl IH Hy]; simpl.
  - repeat constructor.
  - destruct (Qlt_bool (entry_score x) (entry_score y)) eqn:E.
    + apply Qlt_bool_iff in E. constructor; [exact IH|].
      apply insert_desc_Forall; [|exact Hy].
      unfold score_ge. now apply Qlt_le_weak.
    + apply Qlt_bool_false in E. constructor.
      * now constructor.
      * constructor; [exact E|].
        eapply Forall_impl; [exact Hy|].
        intros z Hz. unfold score_ge in *. eapply Qle_trans; eassumption.
Qed.

Lemma sort_desc_sorted l : StronglySorted score_ge (sort_desc l).
Proof.
  induction l as [|x l IH]; simpl; [constructor|].
  now apply insert_desc_sorted.
Qed.

Lemma firstn_sorted (R : entry -> entry -> Prop) n l :
  StronglySorted R l -> StronglySorted R (firstn n l).
Proof.
  intros Hl. revert n. induction Hl as [|x l Hl IH Hx]; intros [|n]; simpl;
    try constructor.
  - apply IH.
  - now apply Forall_take.
Qed.

End TacticalFacts.

Section TacticalClaims.
Import CaptureContext TacticalEngine.

(** Claim C6.  For every AP list, clock and context, and every engine whose
    [max_targets_per_epoch] is a non-negative count, each entry
    [(ap, variant, score)] of the plan returned by [plan_epoch] has
    [score > 0] and [variant <> SKIP], the plan is in descending order of
    score, it has at most [max_targets_per_epoch] entries, and in PASSIVE
    mode it is empty. *)
Theorem plan_epoch_invariants (e : TacticalEngine.t) (c : CaptureContext.t)
    (clk : nat -> Q) (all_aps : list AP) :
  (0 <= max_targets_per_epoch e)%Z ->
  let plan := snd (plan_epoch e c clk all_aps) in
  Forall entry_ok plan /\
  StronglySorted score_ge plan /\
  (Z.of_nat (length plan) <= max_targets_per_epoch e)%Z /\
  (mode e = MODE_PASSIVE -> plan = []).
Proof.
  intros Hk plan. subst plan. unfold plan_epoch.
  assert (Hgen :
    let plan := slice_to (sort_desc (scan_targets e (new_epoch c) clk 0 all_aps))
                         (max_targets_per_epoch e) in
    Forall entry_ok plan /\ StronglySorted score_ge plan /\
    (Z.of_nat (length plan) <= max_targets_per_epoch e)%Z).
  { cbv zeta. rewrite slice_to_nonneg by exact Hk. repeat split.
    - apply Forall_take, sort_desc_Forall, scan_targets_ok.
    - apply firstn_sorted, sort_desc_sorted.
    - pose proof (firstn_le_length (Z.to_nat (max_targets_per_epoch e))
                    (sort_desc (scan_targets e (new_epoch c) clk 0 all_aps))).
      lia. }
  destruct (mode e) eqn:Hm; simpl.
  - destruct Hgen as (H1 & H2 & H3). repeat split; auto. discriminate.
  - split; [constructor|]. split; [constructor|].
    split; [simpl; lia|reflexivity].
  - destruct Hgen as (H1 & H2 & H3). repeat split; auto. discriminate.
Qed.

Lemma plan_epoch_invariants_witness :
  let plan := snd (plan_epoch Examples.engine CaptureContext.empty Examples.clock
                     [Examples.ap_one_client; Examples.ap_no_clients]) in
  Forall entry_ok plan /\
  StronglySorted score_ge plan /\
  (Z.of_nat (length plan) <= 20)%Z /\
  (mode Examples.engine = MODE_PASSIVE -> plan = []).
Proof.
  apply (plan_epoch_invariants Examples.engine CaptureContext.empty Examples.clock
           [Examples.ap_one_client; Examples.ap_no_clients]).
  simpl. lia.
Defined.

End TacticalClaims.

Section TacticalScenarios.
Import CaptureContext TacticalEngine.





End TacticalScenarios.

Section BudgetSaturation.
Import CaptureContext TacticalEngine.

(** For an encrypted AP without a handshake on record, the ACTIVE score is
    a base value that depends on the AP and the clock only, less one point
    per session interaction, unless the epoch budget is spent. *)
Lemma score_active_uncaptured now ap :
  is_open (get_encryption ap) = false ->
  exists base : Q, forall e c,
    has_handshake c (get_mac ap) = false ->
    _score_active e c now ap
    = if budget_spent e c (get_mac ap) then -100
      else base - QofN (get_session_interactions c (get_mac ap)) * 1.
Proof.
  intros Hopen. eexists. intros e c Hhs.
  unfold _score_active. rewrite Hopen, Hhs. cbv zeta. reflexivity.
Qed.

Lemma select_attack_active_clients c ap :
  get_clients ap <> [] -> _select_attack_active c ap <> ATTACK_SKIP.
Proof.
  intros Hcl. unfold _select_attack_active.
  destruct (has_pmkid c (get_mac ap)), (get_clients ap); congruence.
Qed.

(** Claim C2, as amended.  ACTIVE engine with a per-epoch budget of 3, an
    encrypted AP without a handshake on record, with clients, whose score
    starts positive.  After three [record_interaction(mac)] calls
    [score_target(ap)] is [-100], whenever it is asked.  A following
    [plan_epoch([ap])] first resets the epoch counters, so it scores the AP
    at what its score before the three interactions would be at the time of
    the [plan_epoch] call, less 3 (one point per session interaction), and
    plans it exactly when that is positive.  The clock matters because the
    score's recency and active-client bonuses are read off [time.time()]
    again. *)
Theorem budget_saturation (e : TacticalEngine.t) (c : CaptureContext.t)
    (now : Q) (clk : nat -> Q) (mac : string) (ap : AP) :
  mode e = MODE_ACTIVE ->
  max_interactions_per_epoch e = 3%Z ->
  (1 <= max_targets_per_epoch e)%Z ->
  get_mac ap = lower mac ->
  is_open (get_encryption ap) = false ->
  has_handshake c (get_mac ap) = false ->
  get_clients ap <> [] ->
  0 < score_target e c now ap ->
  let c3 := record_interaction (record_interaction (record_interaction c mac) mac) mac in
  (forall later, score_target e c3 later ap = -100) /\
  exists s : Q,
    s == score_target e c (clk 0%nat) ap - 3 /\
    plan_epoch e c3 clk [ap]
    = (new_epoch c3,
       if Qlt_bool 0 s then [(ap, select_attack e c3 ap, s)] else []).
Proof.
  intros Hmode Hbudget Htargets Hmac Hopen Hhs Hcl Hpos c3.
  destruct (score_active_uncaptured now ap Hopen) as [base Hbase].
  destruct (score_active_uncaptured (clk 0%nat) ap Hopen) as [base0 Hbase0].
  unfold score_target in *. rewrite Hmode in *.
  assert (Hsess : get_session_interactions c3 (get_mac ap)
                  = S (S (S (get_session_interactions c (get_mac ap))))).
  { subst c3. rewrite Hmac, !get_session_interactions_lower.
    now rewrite !record_interaction_session. }
  assert (Hep : get_epoch_interactions c3 (get_mac ap)
                = S (S (S (get_epoch_interactions c (get_mac ap))))).
  { subst c3. rewrite Hmac, !get_epoch_interactions_lower.
    now rewrite !record_interaction_epoch. }
  assert (Hhs3 : has_handshake c3 (get_mac ap) = false) by exact Hhs.
  assert (Hhs3' : has_handshake (new_epoch c3) (get_mac ap) = false) by exact Hhs.
  assert (Hspent0 : budget_spent e c (get_mac ap) = false).
  { destruct (budget_spent e c (get_mac ap)) eqn:E; [|reflexivity].
    rewrite (Hbase e c Hhs), E in Hpos. discriminate Hpos. }
  split.
  - intros later.
    destruct (score_active_uncaptured later ap Hopen) as [base1 Hbase1].
    rewrite (Hbase1 e c3 Hhs3). unfold budget_spent. rewrite Hep, Hbudget.
    destruct (3 <=? Z.of_nat (S (S (S (get_epoch_interactions c (get_mac ap))))))%Z
      eqn:E; [reflexivity|].
    apply Z.leb_gt in E. lia.
  - exists (base0 - QofN (get_session_interactions (new_epoch c3) (get_mac ap)) * 1).
    split.
    + rewrite (Hbase0 e c Hhs), Hspent0.
      change (get_session_interactions (new_epoch c3) (get_mac ap))
        with (get_session_interactions c3 (get_mac ap)).
      rewrite Hsess, !QofN_S. ring.
    + unfold plan_epoch. rewrite Hmode. simpl.
      unfold score_target. rewrite Hmode.
      assert (Hscore : _score_active e (new_epoch c3) (clk 0%nat) ap
                       = base0 - QofN (get_session_interactions (new_epoch c3)
                                         (get_mac ap)) * 1).
      { rewrite (Hbase0 e (new_epoch c3) Hhs3').
        unfold budget_spent. now rewrite new_epoch_epoch, Hbudget. }
      rewrite Hscore.
      unfold select_attack. rewrite Hmode.
      change (_select_attack_active (new_epoch c3) ap)
        with (_select_attack_active c3 ap).
      destruct (Qlt_bool 0 _) eqn:Es.
      * pose proof (select_attack_active_clients c3 ap Hcl) as Hne.
        destruct (Attack_eqb (_select_attack_active c3 ap) ATTACK_SKIP) eqn:Ea.
        { apply Attack_eqb_eq in Ea. contradiction. }
        simpl. rewrite slice_to_nonneg by lia.
        destruct (Z.to_nat (max_targets_per_epoch e)) eqn:En; [lia|].
        simpl. now rewrite firstn_nil.
      * simpl. now rewrite slice_to_nil.
Qed.

Lemma budget_saturation_witness :
  (forall later,
     score_target Examples.engine Examples.interacted3 later Examples.ap_one_client
     = -100) /\
  exists s : Q,
    s == score_target Examples.engine CaptureContext.empty (Examples.later_clock 0%nat)
           Examples.ap_one_client - 3 /\
    plan_epoch Examples.engine Examples.interacted3 Examples.later_clock
      [Examples.ap_one_client]
    = (new_epoch Examples.interacted3,
       if Qlt_bool 0 s
       then [(Examples.ap_one_client,
              select_attack Examples.engine Examples.interacted3
                Examples.ap_one_client, s)]
       else []).
Proof.
  apply (budget_saturation Examples.engine CaptureContext.empty Examples.now
           Examples.later_clock "aa:bb:cc:dd:ee:ff" Examples.ap_one_client);
    try reflexivity.
  - simpl. lia.
  - discriminate.
Defined.

(** Claim C2 fails as stated: after the three interactions the score is
    [-100], yet the following [plan_epoch] resets the epoch counters and
    plans the AP, at score [21 - 3]. *)
Lemma budget_saturation_counterexample :
  0 < score_target Examples.engine CaptureContext.empty Examples.now
        Examples.ap_one_client /\
  score_target Examples.engine Examples.interacted3 Examples.now
    Examples.ap_one_client == -100 /\
  exists s : Q,
    s == 18 /\
    snd (plan_epoch Examples.engine Examples.interacted3 Examples.clock
           [Examples.ap_one_client])
    = [(Examples.ap_one_client, ATTACK_ASSOC_DEAUTH, s)].
Proof.
  split; [reflexivity|]. split; [reflexivity|].
  eexists. split; [|vm_compute; reflexivity]. reflexivity.
Qed.

End BudgetSaturation.

(** ** Channel bandit *)
Section BanditFacts.
Import ChannelBandit.

(** [int(str(ch)) == ch] *)
Lemma int_str (ch : Z) : int (KStr (str ch)) = Ok ch.
Proof.
  unfold int, str. rewrite NilZero.isi.
  - now rewrite DecimalZ.of_to.
  - destruct ch as [|p|p]; simpl; try discriminate.
    intros [= H]. exact (DecimalPos.Unsigned.to_uint_nonnil p H).
  - destruct ch as [|p|p]; simpl; try discriminate.
    intros [= H]. exact (DecimalPos.Unsigned.to_uint_nonnil p H).
Qed.

Lemma int_KInt (ch : Z) : int (KInt ch) = Ok ch.
Proof. reflexivity. Qed.

Lemma int_left_inverse_inj (f : Z -> pykey) :
  (forall z, int (f z) = Ok z) -> Inj (=) (=) f.
Proof.
  intros H a b Hab.
  assert (E : Ok a = Ok b) by (rewrite <- (H a), <- (H b), Hab; reflexivity).
  now injection E.
Qed.

(** Loading a dict whose keys are the images of distinct channels under a
    conversion that [int] undoes, into a bandit without entries, gives the
    original map back. *)
Lemma load_items_kmap {V} (f : Z -> pykey) (m : gmap Z V) :
  (forall z, int (f z) = Ok z) ->
  load_items (kmap f m) ∅ = Ok m.
Proof.
  intros Hint. pose proof (int_left_inverse_inj f Hint) as Hinj.
  unfold load_items.
  induction m as [|i x m Hi IH] using map_ind.
  - rewrite kmap_empty. apply map_fold_empty.
  - rewrite (kmap_insert f (Inj0 := Hinj)). rewrite map_fold_insert_L.
    + rewrite IH. simpl. rewrite Hint. reflexivity.
    + intros j1 j2 z1 z2 acc Hne H1 H2.
      rewrite <- (kmap_insert f (Inj0 := Hinj)) in H1, H2.
      apply (lookup_kmap_Some f (Inj0 := Hinj)) in H1 as (a & -> & _).
      apply (lookup_kmap_Some f (Inj0 := Hinj)) in H2 as (b & -> & _).
      destruct acc as [d|err]; simpl; [|reflexivity].
      rewrite !Hint. simpl. f_equal.
      apply insert_insert_ne. congruence.
    + rewrite (lookup_kmap f (Inj0 := Hinj)). exact Hi.
Qed.

End BanditFacts.

Section BanditClaims.
Import ChannelBandit.

(** Claim C3, as amended.  For every bandit [b], [load_state(b.get_state())]
    on a second, newly constructed bandit over the same channel list
    succeeds and gives that bandit [b]'s per-channel observation history,
    total-scan counters, total epoch count, client-activity windows,
    window size and exploration bonus; the mode stays the one the second
    bandit was constructed with. *)
Theorem load_state_get_state (b : ChannelBandit.t) (window_size' : Z)
    (exploration_bonus' : Q) (mode' : Mode) :
  load_state (new (channels b) window_size' exploration_bonus' mode') (get_state b)
  = Ok (mk (channels b) (window_size b) (exploration_bonus b) mode'
           (_history b) (_total_scans b) (_total_epochs b) (_client_activity b)).
Proof.
  unfold load_state, get_state, new. simpl.
  rewrite !load_items_kmap by (first [exact int_str | exact int_KInt]).
  reflexivity.
Qed.

(** Claim C3 fails as stated for the mode: a PASSIVE bandit's state loaded
    into a bandit constructed in ACTIVE mode leaves that bandit ACTIVE. *)
Lemma load_state_get_state_counterexample :
  let b := update (new [1; 6; 11]%Z 30 0.1 MODE_PASSIVE) 5 6%Z 1 in
  exists b2,
    load_state (new [1; 6; 11]%Z 30 0.1 MODE_ACTIVE) (get_state b) = Ok b2 /\
    mode b2 <> mode b /\
    _history b2 = _history b /\
    _total_epochs b2 = _total_epochs b.
Proof.
  intros b. eexists. split.
  - vm_compute. reflexivity.
  - repeat split. discriminate.
Qed.



End BanditClaims.

(** ** Orchestrator *)
Section BrainClaims.
Import ChannelBandit NextGenBrain.


Lemma CHANNELS_6G_lower_bound (ch : Z) : ch ∈ CHANNELS_6G -> (191 <= ch)%Z.
Proof.
  unfold CHANNELS_6G. rewrite list_elem_of_fmap. intros (raw & -> & Hraw).
  unfold _6G_RAW_CHANNELS, _6G_OFFSET in *.
  repeat (apply elem_of_cons in Hraw as [-> | Hraw]; [lia|]).
  now apply elem_of_nil in Hraw.
Qed.



End BrainClaims.

(** ** Reward *)
Section RewardClaims.

Lemma Qmax_one_nonzero (a : Q) : ~ Qmax a 1 == 0.
Proof.
  intros H. pose proof (Q.le_max_r a 1) as Hle. rewrite H in Hle.
  revert Hle. apply Qlt_not_le. reflexivity.
Qed.

(** Claim C8.  For every epoch-metrics dict carrying the eight metrics,
    [RewardV2] returns the specification's formula:
    [(new_unique + 0.1 repeat) / (max(duration_secs, 1) / 60)
     + 0.3 (uncaptured_attacked / max(targets_attacked, 1))
     + 0.1 min(0.1 new_aps_discovered, 0.3)
     + 0.1 (channels_with_activity / max(channels_scanned, 1))]. *)
Theorem RewardV2_reference (epoch_data : gmap string Q)
    (duration_secs new_unique repeat uncaptured_attacked targets_attacked
     new_aps_discovered channels_with_activity channels_scanned : Q) :
  epoch_data !! "duration_secs"%string = Some duration_secs ->
  epoch_data !! "new_unique_handshakes"%string = Some new_unique ->
  epoch_data !! "repeat_handshakes"%string = Some repeat ->
  epoch_data !! "uncaptured_targets_attacked"%string = Some uncaptured_attacked ->
  epoch_data !! "targets_attacked"%string = Some targets_attacked ->
  epoch_data !! "new_aps_discovered"%string = Some new_aps_discovered ->
  epoch_data !! "channels_with_activity"%string = Some channels_with_activity ->
  epoch_data !! "channels_scanned"%string = Some channels_scanned ->
  RewardV2 epoch_data
  == reward_reference duration_secs new_unique repeat uncaptured_attacked
       targets_attacked new_aps_discovered channels_with_activity channels_scanned.
Proof.
  intros Hd Hn Hr Hu Ht Ha Hc Hs.
  unfold RewardV2, reward_reference.
  rewrite Hd, Hn, Hr, Hu, Ht, Ha, Hc, Hs. simpl default.
  pose proof (Qmax_one_nonzero duration_secs) as HD.
  pose proof (Qmax_one_nonzero targets_attacked) as HT.
  pose proof (Qmax_one_nonzero channels_scanned) as HS.
  set (D := Qmax duration_secs 1) in *.
  set (T := Qmax targets_attacked 1) in *.
  set (S := Qmax channels_scanned 1) in *.
  assert (HE : Qmin (new_aps_discovered * 0.1) 0.3
               == Qmin (0.1 * new_aps_discovered) 0.3).
  { apply Q.min_compat; [ring|reflexivity]. }
  rewrite HE. set (E := Qmin (0.1 * new_aps_discovered) 0.3).
  field. repeat split; assumption.
Qed.

Lemma RewardV2_reference_witness :
  RewardV2 Examples.high_metrics == reward_reference 60 3 0 5 5 2 3 5.
Proof.
  apply (RewardV2_reference Examples.high_metrics 60 3 0 5 5 2 3 5);
    reflexivity.
Defined.

End RewardClaims.

(** ** Bayesian optimizer *)
Section OptimizerFacts.
Import BayesianOptimizer.

Lemma get_Ok {A} (l : list A) i a : get l i = Ok a -> l !! i = Some a.
Proof. unfold get. destruct (l !! i); intros [=]. now subst. Qed.

Lemma get_lt {A} (l : list A) i : (i < length l)%nat -> exists a, get l i = Ok a.
Proof.
  intros Hi. unfold get. destruct (lookup_lt_is_Some_2 l i Hi) as [a ->]. eauto.
Qed.

Lemma set_Ok {A} (l : list A) i a l' :
  set l i a = Ok l' -> l' = <[i := a]> l /\ (i < length l)%nat.
Proof.
  unfold set. destruct (i <? length l)%nat eqn:E; intros [=]. subst.
  apply Nat.ltb_lt in E. auto.
Qed.

Lemma set_lt {A} (l : list A) i a :
  (i < length l)%nat -> set l i a = Ok (<[i := a]> l).
Proof. intros Hi. unfold set. apply Nat.ltb_lt in Hi. now rewrite Hi. Qed.

Lemma max_from_elem (x : Q) (l : list Q) : max_from x l ∈ x :: l.
Proof.
  revert x. induction l as [|y l IH]; intros x; simpl.
  - apply list_elem_of_here.
  - specialize (IH (if Qlt_bool x y then y else x)).
    apply elem_of_cons in IH as [-> | IH].
    + destruct (Qlt_bool x y); [right|]; apply list_elem_of_here.
    + right. now right.
Qed.

Lemma index_elem (l : list Q) (v : Q) :
  v ∈ l -> exists i, index l v = Ok i /\ (i < length l)%nat.
Proof.
  induction l as [|y l IH]; intros Hv.
  - now apply elem_of_nil in Hv.
  - simpl. destruct (Qeq_bool y v) eqn:E.
    + exists 0%nat. split; [reflexivity|lia].
    + apply elem_of_cons in Hv as [-> | Hv].
      * rewrite Qeq_bool_refl in E. discriminate.
      * destruct (IH Hv) as (i & -> & Hi). exists (S i). split; [reflexivity|lia].
Qed.

Lemma index_lt (l : list Q) (v : Q) i : index l v = Ok i -> (i < length l)%nat.
Proof.
  revert i. induction l as [|y l IH]; intros i; simpl; [discriminate|].
  destruct (Qeq_bool y v).
  - intros [= <-]. lia.
  - destruct (index l v) as [j|] eqn:E; simpl; [|discriminate].
    intros [= <-]. specialize (IH j eq_refl). lia.
Qed.

Lemma best_ge_update (b : best) (reward y : Q) :
  best_ge b y -> best_ge (if exceeds reward b then Fin reward else b) y.
Proof.
  destruct b as [|r]; simpl; [tauto|].
  intros Hy. destruct (Qlt_bool r reward) eqn:E; simpl; [|exact Hy].
  apply Qlt_bool_iff in E. apply Qlt_le_weak in E. eapply Qle_trans; eassumption.
Qed.

Lemma best_ge_new (b : best) (reward : Q) :
  best_ge (if exceeds reward b then Fin reward else b) reward.
Proof.
  destruct b as [|r]; simpl; [apply Qle_refl|].
  destruct (Qlt_bool r reward) eqn:E; simpl; [apply Qle_refl|].
  now apply Qlt_bool_false in E.
Qed.

Lemma history_ok_new parameters gp_noise gp_length_scale n_initial n_candidates :
  history_ok (new parameters gp_noise gp_length_scale n_initial n_candidates).
Proof.
  unfold history_ok, new. simpl. repeat split; try lia. constructor.
Qed.

(** One successful [observe] keeps the arrays aligned, capped and below the
    best reward. *)
Lemma observe_history_ok o params_dict reward o' :
  history_ok o -> observe o params_dict reward = Ok o' -> history_ok o'.
Proof.
  intros (HX & HP & Hcap & Hbest). unfold observe.
  destruct (_normalize o params_dict) as [x|] eqn:En; simpl; [|discriminate].
  set (b' := if exceeds reward (best_reward o) then Fin reward else best_reward o).
  assert (Hbest' : Forall (best_ge b') (y_history o ++ [reward])).
  { apply Forall_app. split.
    - eapply Forall_impl; [exact Hbest|]. intros y Hy. now apply best_ge_update.
    - repeat constructor. apply best_ge_new. }
  destruct (MAX_OBSERVATIONS <? length (X_history o ++ [x]))%nat eqn:Elen.
  - destruct (list_max (y_history o ++ [reward])) as [m|] eqn:Em; simpl;
      [|discriminate].
    destruct (index (y_history o ++ [reward]) m) as [i|] eqn:Ei; simpl;
      [|discriminate].
    destruct (i <? length (X_history o ++ [x]) - MAX_OBSERVATIONS + 1)%nat.
    + destruct (get (X_history o ++ [x]) i) as [xb|] eqn:E1; simpl; [|discriminate].
      destruct (set (X_history o ++ [x]) 0 xb) as [X1|] eqn:E2; simpl;
        [|discriminate].
      destruct (get (y_history o ++ [reward]) i) as [yb|] eqn:E3; simpl;
        [|discriminate].
      destruct (set (y_history o ++ [reward]) 0 yb) as [y1|] eqn:E4; simpl;
        [|discriminate].
      destruct (get (param_history o ++ [params_dict]) i) as [pb|] eqn:E5; simpl;
        [|discriminate].
      destruct (set (param_history o ++ [params_dict]) 0 pb) as [P1|] eqn:E6; simpl;
        [|discriminate].
      intros [= <-]. unfold history_ok. simpl.
      apply set_Ok in E2 as [-> _]. apply set_Ok in E4 as [-> _].
      apply set_Ok in E6 as [-> _]. apply get_Ok in E3.
      rewrite !length_drop, !length_insert, !length_app. simpl.
      unfold MAX_OBSERVATIONS in *. repeat split; try lia.
      apply Forall_drop, Forall_insert; [exact Hbest'|].
      rewrite Forall_forall in Hbest'. apply Hbest'.
      eapply list_elem_of_lookup_2. exact E3.
    + simpl. intros [= <-]. unfold history_ok. simpl.
      rewrite !length_drop, !length_app. simpl.
      unfold MAX_OBSERVATIONS in *. repeat split; try lia.
      apply Forall_drop. exact Hbest'.
  - intros [= <-]. unfold history_ok. simpl.
    apply Nat.ltb_ge in Elen. rewrite !length_app in *. simpl in *.
    repeat split; try lia. exact Hbest'.
Qed.

(** One successful [observe] lengthens the history by one, up to the cap. *)
Lemma observe_length o params_dict reward o' :
  history_ok o -> observe o params_dict reward = Ok o' ->
  length (X_history o') = Nat.min (S (length (X_history o))) MAX_OBSERVATIONS.
Proof.
  intros (HX & HP & Hcap & _). unfold observe.
  destruct (_normalize o params_dict) as [x|] eqn:En; simpl; [|discriminate].
  destruct (MAX_OBSERVATIONS <? length (X_history o ++ [x]))%nat eqn:Elen.
  - apply Nat.ltb_lt in Elen.
    destruct (list_max (y_history o ++ [reward])) as [m|]; simpl; [|discriminate].
    destruct (index (y_history o ++ [reward]) m) as [i|]; simpl; [|discriminate].
    destruct (i <? length (X_history o ++ [x]) - MAX_OBSERVATIONS + 1)%nat.
    + destruct (get (X_history o ++ [x]) i) as [xb|]; simpl; [|discriminate].
      destruct (set (X_history o ++ [x]) 0 xb) as [X1|] eqn:E2; simpl;
        [|discriminate].
      destruct (get (y_history o ++ [reward]) i) as [yb|]; simpl; [|discriminate].
      destruct (set (y_history o ++ [reward]) 0 yb) as [y1|]; simpl; [|discriminate].
      destruct (get (param_history o ++ [params_dict]) i) as [pb|]; simpl;
        [|discriminate].
      destruct (set (param_history o ++ [params_dict]) 0 pb) as [P1|]; simpl;
        [|discriminate].
      intros [= <-]. simpl. apply set_Ok in E2 as [-> _].
      rewrite length_drop, length_insert. rewrite length_app in *. simpl in *.
      unfold MAX_OBSERVATIONS in *. lia.
    + simpl. intros [= <-]. simpl.
      rewrite length_drop. rewrite length_app in *. simpl in *.
      unfold MAX_OBSERVATIONS in *. lia.
  - apply Nat.ltb_ge in Elen. intros [= <-]. simpl.
    rewrite length_app in *. simpl in *. unfold MAX_OBSERVATIONS in *. lia.
Qed.

(** From aligned arrays, [observe] raises only when [_normalize] does,
    that is before anything is updated. *)
Lemma observe_raises_in_normalize o params_dict reward e :
  history_ok o -> observe o params_dict reward = Raise e ->
  _normalize o params_dict = Raise e.
Proof.
  intros (HX & HP & Hcap & Hbest). unfold observe.
  destruct (_normalize o params_dict) as [x|] eqn:En; simpl; [|congruence].
  destruct (MAX_OBSERVATIONS <? length (X_history o ++ [x]))%nat; [|discriminate].
  assert (Hmax : exists m, list_max (y_history o ++ [reward]) = Ok m /\
                           m ∈ y_history o ++ [reward]).
  { destruct (y_history o ++ [reward]) as [|y0 l0] eqn:Hy.
    - destruct (y_history o); discriminate.
    - exists (max_from y0 l0). split; [reflexivity|apply max_from_elem]. }
  destruct Hmax as (m & -> & Hm). simpl.
  destruct (index_elem _ m Hm) as (i & -> & Hlt). simpl.
  assert (HlX : (i < length (X_history o ++ [x]))%nat)
    by (rewrite !length_app in *; simpl in *; lia).
  assert (HlP : (i < length (param_history o ++ [params_dict]))%nat)
    by (rewrite !length_app in *; simpl in *; lia).
  destruct (i <? _)%nat; simpl; [|discriminate].
  destruct (get_lt _ i HlX) as [xb ->]. simpl.
  rewrite set_lt by (rewrite length_app; simpl; lia). simpl.
  destruct (get_lt _ i Hlt) as [yb ->]. simpl.
  rewrite set_lt by (rewrite length_app; simpl; lia). simpl.
  destruct (get_lt _ i HlP) as [pb ->]. simpl.
  rewrite set_lt by (rewrite length_app; simpl; lia). simpl.
  discriminate.
Qed.

Lemma observe_all_history_ok o calls : history_ok o -> history_ok (observe_all o calls).
Proof.
  revert o. induction calls as [|[p r] calls IH]; intros o Ho; simpl; [exact Ho|].
  apply IH. destruct (observe o p r) as [o'|] eqn:E; [|exact Ho].
  eapply observe_history_ok; eassumption.
Qed.

End OptimizerFacts.

Section OptimizerClaims.
Import BayesianOptimizer.

(** Claim C7.  After any sequence of [observe] calls on a fresh optimizer,
    [X_history], [y_history] and [param_history] have equal lengths, that
    length is at most [MAX_OBSERVATIONS = 80], and [best_reward] is at
    least [max(y_history)]. *)
Theorem observe_all_invariants (parameters : list (string * (Q * Q)))
    (gp_noise gp_length_scale : Q) (n_initial n_candidates : nat)
    (calls : list (gmap string Q * Q)) :
  let o := observe_all
             (new parameters gp_noise gp_length_scale n_initial n_candidates)
             calls in
  length (X_history o) = length (y_history o) /\
  length (param_history o) = length (y_history o) /\
  (length (X_history o) <= MAX_OBSERVATIONS)%nat /\
  MAX_OBSERVATIONS = 80%nat /\
  (forall m, list_max (y_history o) = Ok m -> best_ge (best_reward o) m).
Proof.
  intros o.
  assert (Hok : history_ok o).
  { apply observe_all_history_ok, history_ok_new. }
  destruct Hok as (HX & HP & Hcap & Hbest).
  repeat split; try assumption; try lia.
  intros m Hm. rewrite Forall_forall in Hbest. apply Hbest.
  destruct (y_history o) as [|y0 l0]; [discriminate|].
  injection Hm as <-. apply max_from_elem.
Qed.

(** Claim C4, at an input where the code departs from it.  Of
    [MAX_OBSERVATIONS + 50] observations the first is the best (reward 10,
    the others 0).  The final [X_history] has length [MAX_OBSERVATIONS] and
    [best_reward] is 10, but the best observation is gone from the arrays:
    every entry of [y_history] is 0, so [y_history] at the index of its
    maximum is 0, and [X_history[0]] is not the best observation's vector. *)
Theorem history_cap_loses_best :
  let o := observe_all Examples.optimizer Examples.best_first_calls in
  length Examples.best_first_calls = (MAX_OBSERVATIONS + 50)%nat /\
  length (X_history o) = MAX_OBSERVATIONS /\
  best_reward o = Fin 10 /\
  Forall (fun y => y = 0) (y_history o) /\
  (exists i, (m ← list_max (y_history o); index (y_history o) m) = Ok i /\
             y_history o !! i = Some 0) /\
  _normalize Examples.optimizer Examples.params_best
  = Ok [55 # 115; 28 # 58; 14 # 29; 270 # 570; 270 # 570] /\
  X_history o !! 0%nat = Some [0 # 115; 0 # 58; 0 # 29; 0 # 570; 0 # 570].
Proof.
  vm_compute. repeat split.
  - repeat constructor.
  - exists 0%nat. split; reflexivity.
Qed.

End OptimizerClaims.

(** ** Gaussian process *)
Section ResultFacts.

Lemma bind_Ok {A B} (a : A) (k : A -> result B) : (Ok a ≫= k) = k a.
Proof. reflexivity. Qed.

(** A comprehension whose body never raises on the elements of the list
    returns a list of the same length. *)
Lemma mapM_Ok {A B} (P : B -> Prop) (f : A -> result B) (xs : list A) :
  (forall a, a ∈ xs -> exists b, f a = Ok b /\ P b) ->
  exists ys, mapM f xs = Ok ys /\ length ys = length xs /\ Forall P ys.
Proof.
  induction xs as [|a xs IH]; intros Hf; simpl.
  - exists []. repeat split. constructor.
  - destruct (Hf a) as (b & -> & Hb); [apply list_elem_of_here|].
    destruct IH as (ys & -> & Hlen & Hall).
    { intros a' Ha'. apply Hf. now right. }
    rewrite !bind_Ok. exists (b :: ys). simpl. repeat split; auto.
Qed.


(** A loop whose body never raises while an invariant, indexed by the
    number of iterations done, holds. *)
Lemma foldM_Ok {A B} (I : nat -> B -> Prop) (f : B -> A -> result B)
    (xs : list A) (acc : B) :
  I 0%nat acc ->
  (forall k a acc, xs !! k = Some a -> I k acc ->
                   exists acc', f acc a = Ok acc' /\ I (S k) acc') ->
  exists acc', foldM f acc xs = Ok acc' /\ I (length xs) acc'.
Proof.
  revert I acc. induction xs as [|a xs IH]; intros I acc H0 Hstep; simpl.
  - eauto.
  - destruct (Hstep 0%nat a acc eq_refl H0) as (acc1 & -> & H1).
    rewrite bind_Ok.
    apply (IH (fun k => I (S k)) acc1 H1).
    intros k a' acc' Hk Hacc. apply (Hstep (S k) a' acc' Hk Hacc).
Qed.

Lemma py_div_Ok (a b : Q) : ~ b == 0 -> py_div a b = Ok (a / b).
Proof.
  intros Hb. unfold py_div. destruct (Qeq_bool b 0) eqn:E; [|reflexivity].
  apply Qeq_bool_iff in E. contradiction.
Qed.

End ResultFacts.

Section MatrixFacts.
Import GaussianProcess.

Lemma get2_square n M i j :
  square n M -> (i < n)%nat -> (j < n)%nat -> exists v, get2 M i j = Ok v.
Proof.
  intros [Hlen Hrows] Hi Hj. unfold get2, get.
  destruct (lookup_lt_is_Some_2 M i) as [row Hrow]; [lia|].
  rewrite Hrow, bind_Ok.
  rewrite Forall_forall in Hrows.
  pose proof (Hrows row (list_elem_of_lookup_2 _ _ _ Hrow)) as Hl.
  destruct (lookup_lt_is_Some_2 row j) as [v Hv]; [lia|].
  rewrite Hv. eauto.
Qed.





Lemma seq_lookup_lt start len k a :
  seq start len !! k = Some a -> a = (start + k)%nat /\ (k < len)%nat.
Proof. intros H. now apply lookup_seq in H. Qed.

Lemma seq_elem_lt start len a :
  a ∈ seq start len -> (start <= a < start + len)%nat.
Proof. intros H. now apply elem_of_seq in H. Qed.

End MatrixFacts.


Section OverflowFacts.
Import GaussianProcess.

Lemma roo_Ok {A} (P : A -> Prop) (a : A) : P a -> returns_or_overflows P (Ok a).
Proof. intros H. exact H. Qed.






(** What a call that returned or overflowed amounts to. *)
Lemma roo_cases {A} (P : A -> Prop) (r : result A) :
  returns_or_overflows P r ->
  (exists a, r = Ok a /\ P a) \/ r = Raise OverflowError.
Proof. destruct r as [a|e]; simpl; [eauto|intros ->; now right]. Qed.



End OverflowFacts.

Section CholeskyFacts.
Import GaussianProcess.

Variable libm_sqrt : Q -> Q.
Variable float_sq : Q -> result Q.
Hypothesis libm_sqrt_pos : forall a, 0 < a -> 0 < libm_sqrt a.
Hypothesis float_sq_raises : forall a e, float_sq a = Raise e -> e = OverflowError.



End CholeskyFacts.

Section SolveFacts.
Import GaussianProcess.

Lemma solve_triangular_lower_Ok n L b :
  solvable n L -> (length b <= n)%nat ->
  exists x, _solve_triangular_lower L b = Ok x /\ length x = length b.
Proof.
  intros [HsqL Hdiag] Hb. unfold _solve_triangular_lower.
  match goal with
  | |- exists r0, foldM ?f ?acc ?xs = Ok r0 /\ _ =>
      destruct (foldM_Ok (fun (_ : nat) x => length x = length b) f xs acc)
        as (x & Hx & Hlen); [| |exists x; split; assumption]
  end.
  - apply length_replicate.
  - intros k i x Hi Hlen. apply seq_lookup_lt in Hi as [-> Hi]. simpl in *.
    match goal with
    | |- context [mapM ?f ?xs ≫= _] =>
        destruct (mapM_Ok (fun _ => True) f xs) as (pr & Hpr & _ & _)
    end.
    { intros j Hj. apply seq_elem_lt in Hj.
      destruct (get2_square n L k j) as [v1 Hv1]; [assumption|lia|lia|].
      destruct (get_lt x j) as [v2 Hv2]; [lia|].
      rewrite Hv1, bind_Ok, Hv2, bind_Ok. eauto. }
    rewrite Hpr, bind_Ok.
    destruct (get_lt b k) as [bi Hbi]; [lia|]. rewrite Hbi, bind_Ok.
    destruct (Hdiag k) as (lii & Hlii & Hnz); [lia|].
    rewrite Hlii, bind_Ok, (py_div_Ok _ _ Hnz), bind_Ok.
    rewrite set_lt by lia. eexists. split; [reflexivity|].
    now rewrite length_insert.
Qed.

Lemma solve_triangular_upper_Ok n U b :
  solvable n U -> (length b <= n)%nat ->
  exists x, _solve_triangular_upper U b = Ok x /\ length x = length b.
Proof.
  intros [HsqU Hdiag] Hb. unfold _solve_triangular_upper.
  match goal with
  | |- exists r0, foldM ?f ?acc ?xs = Ok r0 /\ _ =>
      destruct (foldM_Ok (fun (_ : nat) x => length x = length b) f xs acc)
        as (x & Hx & Hlen); [| |exists x; split; assumption]
  end.
  - apply length_replicate.
  - intros k i x Hi Hlen.
    assert (Hlt : (i < length b)%nat).
    { apply list_elem_of_lookup_2, list_elem_of_In, in_rev, list_elem_of_In in Hi.
      apply seq_elem_lt in Hi. lia. }
    cbv beta.
    match goal with
    | |- context [mapM ?f ?xs ≫= _] =>
        destruct (mapM_Ok (fun _ => True) f xs) as (pr & Hpr & _ & _)
    end.
    { intros j Hj. apply seq_elem_lt in Hj.
      destruct (get2_square n U i j) as [v1 Hv1]; [assumption|lia|lia|].
      destruct (get_lt x j) as [v2 Hv2]; [lia|].
      rewrite Hv1, bind_Ok, Hv2, bind_Ok. eauto. }
    rewrite Hpr, bind_Ok.
    destruct (get_lt b i) as [bi Hbi]; [lia|]. rewrite Hbi, bind_Ok.
    destruct (Hdiag i) as (uii & Huii & Hnz); [lia|].
    rewrite Huii, bind_Ok, (py_div_Ok _ _ Hnz), bind_Ok.
    rewrite set_lt by lia. eexists. split; [reflexivity|].
    now rewrite length_insert.
Qed.


End SolveFacts.

Section KernelFacts.
Import GaussianProcess.

Variable libm_exp : Q -> Q.
Variable float_sq : Q -> result Q.
Hypothesis float_sq_raises : forall a e, float_sq a = Raise e -> e = OverflowError.






End KernelFacts.

Section SolveRaises.
Import GaussianProcess.


End SolveRaises.

Section PredictClaims.
Import GaussianProcess.









(** On the example process [predict] returns. *)
Lemma predict_returns_example :
  exists mean variance,
    predict exp_approx sqrt_approx sq_range Examples.gp Examples.query
    = Ok (mean, variance).
Proof. vm_compute. eauto. Qed.

(** The fallback at work: with a square-root routine that returns 0 the
    first division of the factorization raises [ZeroDivisionError], and
    [predict] answers [(0, 1)]. *)
Lemma predict_fallback_example :
  _cholesky (fun _ => 0) sq_range [[1; 0]; [0; 1]] = Raise ZeroDivisionError /\
  predict exp_approx (fun _ => 0) sq_range Examples.gp Examples.query = Ok (0, 1).
Proof. split; vm_compute; reflexivity. Qed.

End PredictClaims.

(** * Further properties of the capture context and the tactical engine *)
Section ContextInvariants.
Import CaptureContext.

Lemma has_pmkid_elem c mac : has_pmkid c mac = true <-> lower mac ∈ _pmkids c.
Proof. unfold has_pmkid. apply bool_decide_eq_true. Qed.

Lemma has_handshake_elem c mac :
  has_handshake c mac = true <-> is_Some (_captured c !! lower mac).
Proof. unfold has_handshake. apply bool_decide_eq_true. Qed.

Lemma do_call_pmkid_captured c k :
  (forall mac, has_pmkid c mac = true -> has_handshake c mac = true) ->
  forall mac, has_pmkid (do_call c k) mac = true ->
              has_handshake (do_call c k) mac = true.
Proof.
  intros Hinv mac. destruct k as [now mac0 kind cm|mac0|]; simpl; try apply Hinv.
  rewrite has_pmkid_elem, has_handshake_elem. unfold record_handshake. simpl.
  intros Hin. destruct (decide (lower mac0 = lower mac)) as [<-|Hne].
  - rewrite lookup_insert_eq. eauto.
  - rewrite lookup_insert_ne by exact Hne. apply has_handshake_elem, Hinv.
    apply has_pmkid_elem. destruct (String.eqb kind "pmkid"); [|exact Hin].
    apply elem_of_union in Hin as [Hin|Hin]; [|exact Hin].
    apply elem_of_singleton in Hin. congruence.
Qed.

(** X1.  A PMKID on record implies a handshake on record, and stays so
    under every sequence of [record_handshake], [record_interaction] and
    [new_epoch] calls. *)
Theorem pmkid_implies_handshake (c : CaptureContext.t) (ks : list call)
    (mac : string) :
  (forall m, has_pmkid c m = true -> has_handshake c m = true) ->
  has_pmkid (do_calls c ks) mac = true ->
  has_handshake (do_calls c ks) mac = true.
Proof.
  revert c mac. induction ks as [|k ks IH]; intros c mac Hinv; simpl.
  - apply Hinv.
  - apply IH. apply do_call_pmkid_captured. exact Hinv.
Qed.

Lemma pmkid_implies_handshake_witness :
  has_handshake
    (do_calls empty
       [call_record_handshake 1 "AA:BB:CC:DD:EE:FF" "pmkid" None;
        call_record_interaction "aa:bb:cc:dd:ee:ff"; call_new_epoch])
    "aa:bb:cc:dd:ee:ff" = true.
Proof.
  apply (pmkid_implies_handshake empty
           [call_record_handshake 1 "AA:BB:CC:DD:EE:FF" "pmkid" None;
            call_record_interaction "aa:bb:cc:dd:ee:ff"; call_new_epoch]
           "aa:bb:cc:dd:ee:ff").
  - intros m H. vm_compute in H. discriminate H.
  - reflexivity.
Defined.

Lemma do_call_epoch_le_session c k :
  (forall mac, (get_epoch_interactions c mac <= get_session_interactions c mac)%nat) ->
  forall mac, (get_epoch_interactions (do_call c k) mac
               <= get_session_interactions (do_call c k) mac)%nat.
Proof.
  intros Hinv mac. destruct k as [now mac0 kind cm|mac0|]; simpl.
  - apply Hinv.
  - specialize (Hinv mac).
    unfold get_epoch_interactions, get_session_interactions, record_interaction in *.
    simpl. destruct (decide (lower mac0 = lower mac)) as [E|Hne].
    + rewrite E, !lookup_insert_eq. simpl. lia.
    + rewrite !lookup_insert_ne by exact Hne. exact Hinv.
  - rewrite new_epoch_epoch. lia.
Qed.

(** X2.  The per-epoch interaction count of a MAC never exceeds its session
    count, whatever calls are made; [new_epoch] zeroes the former and leaves
    the latter. *)
Theorem epoch_interactions_le_session (c : CaptureContext.t) (ks : list call)
    (mac : string) :
  (forall m, (get_epoch_interactions c m <= get_session_interactions c m)%nat) ->
  (get_epoch_interactions (do_calls c ks) mac
   <= get_session_interactions (do_calls c ks) mac)%nat /\
  get_epoch_interactions (new_epoch (do_calls c ks)) mac = 0%nat /\
  get_session_interactions (new_epoch (do_calls c ks)) mac
  = get_session_interactions (do_calls c ks) mac.
Proof.
  intros Hinv. split; [|split; [apply new_epoch_epoch|reflexivity]].
  revert c Hinv. induction ks as [|k ks IH]; intros c Hinv; simpl.
  - apply Hinv.
  - apply IH. apply do_call_epoch_le_session. exact Hinv.
Qed.

Lemma epoch_interactions_le_session_witness :
  let ks := [call_record_interaction "AA:BB:CC:DD:EE:FF"; call_new_epoch;
             call_record_interaction "aa:bb:cc:dd:ee:ff"] in
  (get_epoch_interactions (do_calls empty ks) "aa:bb:cc:dd:ee:ff"
   <= get_session_interactions (do_calls empty ks) "aa:bb:cc:dd:ee:ff")%nat /\
  get_epoch_interactions (new_epoch (do_calls empty ks)) "aa:bb:cc:dd:ee:ff" = 0%nat /\
  get_session_interactions (new_epoch (do_calls empty ks)) "aa:bb:cc:dd:ee:ff"
  = get_session_interactions (do_calls empty ks) "aa:bb:cc:dd:ee:ff".
Proof.
  apply (epoch_interactions_le_session empty
           [call_record_interaction "AA:BB:CC:DD:EE:FF"; call_new_epoch;
            call_record_interaction "aa:bb:cc:dd:ee:ff"] "aa:bb:cc:dd:ee:ff").
  intros m. vm_compute. lia.
Defined.

(** X3.  After [record_handshake(mac, kind, client_mac)] with a non-empty
    client MAC, [has_handshake] answers true for every spelling of [mac], and
    [get_new_clients] no longer returns that client, however the AP's and
    the client's MAC are spelled in the query. *)
Theorem record_handshake_client_not_new (c : CaptureContext.t) (now : Q)
    (mac kind cm mac' : string) (clients : list Client) :
  cm <> ""%string ->
  lower mac' = lower mac ->
  let c' := record_handshake c now mac kind (Some cm) in
  has_handshake c' mac' = true /\
  lower cm ∉ get_new_clients c' mac' clients.
Proof.
  intros Hcm Hmac c'. split.
  - apply has_handshake_elem. rewrite Hmac. subst c'. unfold record_handshake.
    simpl. rewrite lookup_insert_eq. eauto.
  - subst c'. unfold get_new_clients, record_handshake. simpl.
    apply String.eqb_neq in Hcm. rewrite Hcm, Hmac, lookup_insert_eq. simpl.
    induction clients as [|cl clients IH]; simpl; [apply not_elem_of_nil|].
    destruct (negb _ && bool_decide _) eqn:E; [|exact IH].
    apply not_elem_of_cons. split; [|exact IH].
    apply andb_true_iff in E as [_ E]. apply bool_decide_eq_true in E.
    intros Heq. apply E. rewrite <- Heq. apply elem_of_union_l.
    now apply elem_of_singleton.
Qed.

Lemma record_handshake_client_not_new_witness :
  let c' := record_handshake empty 1 "aa:bb:cc:dd:ee:ff" "full"
              (Some "11:22:33:44:55:66"%string) in
  has_handshake c' "AA:BB:CC:DD:EE:FF" = true /\
  lower "11:22:33:44:55:66" ∉ get_new_clients c' "AA:BB:CC:DD:EE:FF" [Examples.client1].
Proof.
  apply (record_handshake_client_not_new empty 1 "aa:bb:cc:dd:ee:ff" "full"
           "11:22:33:44:55:66" "AA:BB:CC:DD:EE:FF" [Examples.client1]).
  - discriminate.
  - reflexivity.
Defined.

End ContextInvariants.

Section PlanFacts.
Import CaptureContext TacticalEngine.

Lemma QofN_nonneg (n : nat) : 0 <= QofN n.
Proof.
  unfold QofN. change 0 with (inject_Z 0). rewrite <- Zle_Qle. lia.
Qed.

Lemma score_target_open e c now ap :
  is_open (get_encryption ap) = true -> score_target e c now ap = -500.
Proof.
  intros Hopen. unfold score_target, _score_active, _score_passive, _score_assist.
  rewrite Hopen. now destruct (mode e).
Qed.

Lemma score_assist_ge_1 now ap :
  is_open (get_encryption ap) = false -> 1 <= _score_assist now ap.
Proof.
  intros Hopen. unfold _score_assist. rewrite Hopen. cbv zeta.
  pose proof (QofN_nonneg (length (get_clients ap))) as H1.
  pose proof (QofN_nonneg (active_clients now (get_clients ap))) as H2.
  destruct (-50 <? get_rssi ap)%Z; [lra|].
  destruct (-65 <? get_rssi ap)%Z; [lra|].
  destruct (-75 <? get_rssi ap)%Z; [lra|].
  destruct (-85 <? get_rssi ap)%Z; lra.
Qed.

Lemma slice_to_take {A} (l : list A) (k : Z) : exists n, slice_to l k = take n l.
Proof. unfold slice_to. destruct (k <? 0)%Z; eauto. Qed.

Lemma insert_desc_Permutation x l : insert_desc x l ≡ₚ x :: l.
Proof.
  induction l as [|y l IH]; simpl; [reflexivity|].
  destruct (Qlt_bool (entry_score x) (entry_score y)); [|reflexivity].
  rewrite IH. apply Permutation_swap.
Qed.

Lemma sort_desc_Permutation l : sort_desc l ≡ₚ l.
Proof.
  induction l as [|x l IH]; simpl; [reflexivity|].
  rewrite insert_desc_Permutation. now rewrite IH.
Qed.

Lemma scan_targets_provenance e c clk i all_aps :
  Forall (fun x : entry =>
            fst (fst x) ∈ all_aps /\
            entry_attack x = select_attack e c (fst (fst x)) /\
            exists j, entry_score x = score_target e c (clk j) (fst (fst x)))
         (scan_targets e c clk i all_aps).
Proof.
  revert i. induction all_aps as [|ap rest IH]; intros i; simpl; [constructor|].
  assert (Hrest : Forall (fun x : entry =>
            fst (fst x) ∈ ap :: rest /\
            entry_attack x = select_attack e c (fst (fst x)) /\
            exists j, entry_score x = score_target e c (clk j) (fst (fst x)))
         (scan_targets e c clk (S i) rest)).
  { eapply Forall_impl; [apply IH|]. intros x (H1 & H2 & H3).
    split; [now right|]. split; assumption. }
  destruct (Qlt_bool 0 (score_target e c (clk i) ap)); [|exact Hrest].
  destruct (negb (Attack_eqb (select_attack e c ap) ATTACK_SKIP)); [|exact Hrest].
  constructor; [|exact Hrest]. simpl. split; [apply list_elem_of_here|].
  split; [reflexivity|]. exists i. reflexivity.
Qed.

(** X4.  Every entry [(ap, attack, score)] of a plan comes from the input:
    [ap] is one of the APs given, its encryption is not OPEN or empty (in
    any mode and any spelling), [attack] is [select_attack(ap)] and [score]
    is [score_target(ap)], both taken after the epoch counters were reset;
    and the plan has no more entries than there are APs. *)
Theorem plan_epoch_provenance (e : TacticalEngine.t) (c : CaptureContext.t)
    (clk : nat -> Q) (all_aps : list AP) :
  let plan := snd (plan_epoch e c clk all_aps) in
  Forall (fun x : entry =>
            let ap := fst (fst x) in
            ap ∈ all_aps /\
            is_open (get_encryption ap) = false /\
            entry_attack x = select_attack e (new_epoch c) ap /\
            exists j, entry_score x = score_target e (new_epoch c) (clk j) ap)
         plan /\
  (length plan <= length all_aps)%nat.
Proof.
  intros plan. subst plan. unfold plan_epoch.
  assert (Hgen :
    let plan := slice_to (sort_desc (scan_targets e (new_epoch c) clk 0 all_aps))
                         (max_targets_per_epoch e) in
    Forall (fun x : entry =>
            let ap := fst (fst x) in
            ap ∈ all_aps /\
            is_open (get_encryption ap) = false /\
            entry_attack x = select_attack e (new_epoch c) ap /\
            exists j, entry_score x = score_target e (new_epoch c) (clk j) ap)
         plan /\
    (length plan <= length all_aps)%nat).
  { cbv zeta.
    destruct (slice_to_take (sort_desc (scan_targets e (new_epoch c) clk 0 all_aps))
                (max_targets_per_epoch e)) as [n ->].
    split.
    - apply Forall_take, sort_desc_Forall.
      pose proof (scan_targets_ok e (new_epoch c) clk 0 all_aps) as Hok.
      pose proof (scan_targets_provenance e (new_epoch c) clk 0 all_aps) as Hpr.
      rewrite Forall_forall in *. intros x Hx.
      destruct (Hpr x Hx) as (H1 & H2 & j & H3). destruct (Hok x Hx) as [Hpos _].
      repeat split; try assumption; [|eauto].
      destruct (is_open (get_encryption (fst (fst x)))) eqn:Hopen; [|reflexivity].
      rewrite H3, (score_target_open _ _ _ _ Hopen) in Hpos. discriminate Hpos.
    - rewrite length_take, (Permutation_length (sort_desc_Permutation _)).
      assert (Hlen : forall i l, (length (scan_targets e (new_epoch c) clk i l)
                                  <= length l)%nat).
      { intros i l. revert i. induction l as [|ap l IH]; intros i; simpl; [lia|].
        specialize (IH (S i)).
        destruct (Qlt_bool 0 _); [|lia]. destruct (negb _); simpl; lia. }
      specialize (Hlen 0%nat all_aps). lia. }
  destruct (mode e); simpl; try exact Hgen.
  split; [constructor|lia].
Qed.

Lemma scan_targets_assist e c clk i all_aps :
  mode e = MODE_ASSIST ->
  map (fun x : entry => fst (fst x)) (scan_targets e c clk i all_aps)
  = filter (fun ap => is_open (get_encryption ap) = false) all_aps.
Proof.
  intros Hmode. revert i. induction all_aps as [|ap rest IH]; intros i; simpl;
    [reflexivity|].
  unfold score_target, select_attack. rewrite Hmode.
  rewrite filter_cons.
  destruct (decide (is_open (get_encryption ap) = false)) as [Hopen|Hopen].
  - pose proof (score_assist_ge_1 (clk i) ap Hopen) as Hge.
    assert (Hpos : Qlt_bool 0 (_score_assist (clk i) ap) = true).
    { apply Qlt_bool_iff. eapply Qlt_le_trans; [|exact Hge]. reflexivity. }
    rewrite Hpos.
    assert (Hatk : Attack_eqb (_select_attack_assist ap) ATTACK_SKIP = false).
    { unfold _select_attack_assist. now destruct (get_clients ap). }
    rewrite Hatk. simpl. f_equal. apply IH.
  - apply not_false_is_true in Hopen.
    assert (Hs : _score_assist (clk i) ap = -500).
    { unfold _score_assist. now rewrite Hopen. }
    rewrite Hs. change (Qlt_bool 0 (-500)) with false. cbv iota.
    apply IH.
Qed.

(** X5.  In ASSIST mode, when the target budget is not smaller than the
    number of APs, the plan targets exactly the APs whose encryption is not
    OPEN or empty: captured or not, with or without clients, each of them is
    attacked once and nothing else is. *)
Theorem assist_plans_every_encrypted_ap (e : TacticalEngine.t)
    (c : CaptureContext.t) (clk : nat -> Q) (all_aps : list AP) :
  mode e = MODE_ASSIST ->
  (Z.of_nat (length all_aps) <= max_targets_per_epoch e)%Z ->
  map (fun x : entry => fst (fst x)) (snd (plan_epoch e c clk all_aps))
  ≡ₚ filter (fun ap => is_open (get_encryption ap) = false) all_aps.
Proof.
  intros Hmode Hk. unfold plan_epoch. rewrite Hmode. simpl.
  rewrite slice_to_nonneg by lia.
  rewrite <- (scan_targets_assist e (new_epoch c) clk 0 all_aps Hmode).
  rewrite take_ge.
  - apply fmap_Permutation, sort_desc_Permutation.
  - rewrite (Permutation_length (sort_desc_Permutation _)).
    assert (Hlen : length (scan_targets e (new_epoch c) clk 0 all_aps)
                   = length (map (fun x : entry => fst (fst x))
                               (scan_targets e (new_epoch c) clk 0 all_aps)))
      by now rewrite length_map.
    rewrite Hlen, (scan_targets_assist e (new_epoch c) clk 0 all_aps Hmode).
    pose proof (length_filter (fun ap => is_open (get_encryption ap) = false)
                  all_aps).
    lia.
Qed.

Lemma assist_plans_every_encrypted_ap_witness :
  map (fun x : entry => fst (fst x))
      (snd (plan_epoch (TacticalEngine.mk 3 20 MODE_ASSIST) Examples.captured
              Examples.clock [Examples.ap_no_clients; Examples.ap_one_client]))
  ≡ₚ filter (fun ap => is_open (get_encryption ap) = false)
       [Examples.ap_no_clients; Examples.ap_one_client].
Proof.
  apply (assist_plans_every_encrypted_ap (TacticalEngine.mk 3 20 MODE_ASSIST)
           Examples.captured Examples.clock
           [Examples.ap_no_clients; Examples.ap_one_client]).
  - reflexivity.
  - simpl. lia.
Defined.

(** X6.  Diminishing returns in ACTIVE mode: for an encrypted AP without a
    handshake on record, one more [record_interaction] lowers its score by
    exactly 1, until the per-epoch budget is reached, from where on the
    score is [-100]. *)
Theorem interaction_lowers_active_score (e : TacticalEngine.t)
    (c : CaptureContext.t) (now : Q) (mac : string) (ap : AP) :
  mode e = MODE_ACTIVE ->
  get_mac ap = lower mac ->
  is_open (get_encryption ap) = false ->
  has_handshake c (get_mac ap) = false ->
  let c' := record_interaction c mac in
  (budget_spent e c' (get_mac ap) = true -> score_target e c' now ap = -100) /\
  (budget_spent e c' (get_mac ap) = false ->
   score_target e c' now ap == score_target e c now ap - 1).
Proof.
  intros Hmode Hmac Hopen Hhs c'.
  destruct (score_active_uncaptured now ap Hopen) as [base Hbase].
  unfold score_target. rewrite Hmode.
  assert (Hhs' : has_handshake c' (get_mac ap) = false) by exact Hhs.
  rewrite (Hbase e c' Hhs'), (Hbase e c Hhs).
  assert (Hsess : get_session_interactions c' (get_mac ap)
                  = S (get_session_interactions c (get_mac ap))).
  { subst c'. rewrite Hmac, !get_session_interactions_lower.
    apply record_interaction_session. }
  assert (Hep : get_epoch_interactions c' (get_mac ap)
                = S (get_epoch_interactions c (get_mac ap))).
  { subst c'. rewrite Hmac, !get_epoch_interactions_lower.
    apply record_interaction_epoch. }
  split; intros Hb; rewrite Hb; [reflexivity|].
  assert (Hb0 : budget_spent e c (get_mac ap) = false).
  { unfold budget_spent in *. rewrite Hep in Hb.
    apply Z.leb_gt in Hb. apply Z.leb_gt. lia. }
  rewrite Hb0, Hsess, QofN_S. ring.
Qed.

Lemma interaction_lowers_active_score_witness :
  let c' := record_interaction CaptureContext.empty "aa:bb:cc:dd:ee:ff" in
  (budget_spent Examples.engine c' (get_mac Examples.ap_one_client) = true ->
   score_target Examples.engine c' Examples.now Examples.ap_one_client = -100) /\
  (budget_spent Examples.engine c' (get_mac Examples.ap_one_client) = false ->
   score_target Examples.engine c' Examples.now Examples.ap_one_client
   == score_target Examples.engine CaptureContext.empty Examples.now
        Examples.ap_one_client - 1).
Proof.
  apply (interaction_lowers_active_score Examples.engine CaptureContext.empty
           Examples.now "aa:bb:cc:dd:ee:ff" Examples.ap_one_client);
    reflexivity.
Defined.

End PlanFacts.

(** * MAC extraction from capture files *)
Section MacExtraction.
Import CaptureContext.

Lemma is_hex_lower a : is_hex a = true -> is_lower_hex (ascii_lower a) = true.
Proof. destruct a as [[] [] [] [] [] [] [] []]; intros H; try discriminate H; reflexivity. Qed.

Lemma is_hex_lower_not_dash a :
  is_hex a = true -> Ascii.eqb (ascii_lower a) "-" = false.
Proof. destruct a as [[] [] [] [] [] [] [] []]; intros H; try discriminate H; reflexivity. Qed.

Lemma is_sep_lower p :
  is_sep p = true ->
  (if Ascii.eqb (ascii_lower p) "-" then ":"%char else ascii_lower p) = ":"%char.
Proof. destruct p as [[] [] [] [] [] [] [] []]; intros H; try discriminate H; reflexivity. Qed.

Lemma is_lower_hex_fixed a : is_lower_hex a = true -> ascii_lower a = a.
Proof. destruct a as [[] [] [] [] [] [] [] []]; intros H; try discriminate H; reflexivity. Qed.

Lemma re_search_Some m s g :
  re_search m s = Some g -> exists k, m (substring k (String.length s - k) s) = Some g.
Proof.
  induction s as [|a s IH]; simpl.
  - destruct (m EmptyString) eqn:E; [|discriminate]. intros [= <-]. exists 0%nat. exact E.
  - destruct (m (String a s)) eqn:E.
    + intros [= <-]. exists 0%nat. simpl.
      replace (substring 0 (String.length s) s) with s; [exact E|].
      clear. induction s as [|b s IH]; simpl; [reflexivity|]. now rewrite <- IH.
    + intros H. destruct (IH H) as [k Hk]. exists (S k). exact Hk.
Qed.

Lemma match_mac_canonical n s g :
  match_mac n s = Some g -> canonical_mac n (replace_dash (lower g)).
Proof.
  revert s g. induction n as [|n IH]; intros s g; simpl.
  - destruct s as [|a [|b s]]; try discriminate.
    destruct (is_hex a) eqn:Ha; [|discriminate].
    destruct (is_hex b) eqn:Hb; [|discriminate]. simpl. intros [= <-]. simpl.
    rewrite (is_hex_lower_not_dash a Ha), (is_hex_lower_not_dash b Hb).
    split; now apply is_hex_lower.
  - destruct s as [|a [|b [|p s]]]; try discriminate.
    destruct (is_hex a) eqn:Ha; [|discriminate].
    destruct (is_hex b) eqn:Hb; [|discriminate].
    destruct (is_sep p) eqn:Hp; [|discriminate]. simpl.
    destruct (match_mac n s) as [g'|] eqn:E; [|discriminate]. simpl.
    intros [= <-]. simpl.
    rewrite (is_hex_lower_not_dash a Ha), (is_hex_lower_not_dash b Hb),
      (is_sep_lower p Hp).
    repeat split; try now apply is_hex_lower. exact (IH s g' E).
Qed.

Lemma match_hex_spec n s g :
  match_hex n s = Some g -> String.length g = n /\ all_hex g = true.
Proof.
  revert s g. induction n as [|n IH]; intros s g; simpl.
  - intros [= <-]. auto.
  - destruct s as [|a s]; [discriminate|].
    destruct (is_hex a) eqn:Ha; [|discriminate].
    destruct (match_hex n s) as [g'|] eqn:E; [|discriminate]. simpl.
    intros [= <-]. destruct (IH s g' E) as [Hl Hh]. simpl. rewrite Ha, Hh, Hl. auto.
Qed.

(** Twelve hex digits joined in pairs make a canonical MAC once lowered. *)
Lemma colon_join_canonical raw :
  String.length raw = 12%nat -> all_hex raw = true ->
  canonical_mac 5 (colon_join (lower raw)).
Proof.
  intros Hl Hh.
  do 12 (destruct raw as [|? raw]; [discriminate Hl|]).
  destruct raw; [|discriminate Hl]. clear Hl.
  simpl in Hh. repeat (apply andb_true_iff in Hh as [? Hh]).
  cbn. repeat split; now apply is_hex_lower.
Qed.

(** X7.  Whatever the file name, a MAC returned by [_extract_mac] is in
    canonical form: six pairs of lower-case hex digits separated by colons. *)
Theorem extract_mac_canonical (filename mac : string) :
  _extract_mac filename = Some mac -> canonical_mac 5 mac.
Proof.
  unfold _extract_mac.
  destruct (re_search (match_mac 5) filename) as [g|] eqn:E1.
  - intros [= <-]. apply re_search_Some in E1 as [k Hk].
    eapply match_mac_canonical. exact Hk.
  - destruct (re_search (match_hex 12) filename) as [g|] eqn:E2; [|discriminate].
    intros [= <-]. apply re_search_Some in E2 as [k Hk].
    apply match_hex_spec in Hk as [Hl Hh]. now apply colon_join_canonical.
Qed.

Lemma extract_mac_canonical_witness :
  canonical_mac 5 "14:21:03:b0:47:21".
Proof.
  apply (extract_mac_canonical
           "1772260468_142103B04721_84F3EBEE271E_handshake.22000"
           "14:21:03:b0:47:21").
  reflexivity.
Defined.

End MacExtraction.

Section MacRoundTrip.
Import CaptureContext.
Open Scope string_scope.

Lemma is_hex_not_sep a : is_hex a = true -> is_sep a = false.
Proof. destruct a as [[] [] [] [] [] [] [] []]; intros H; try discriminate H; reflexivity. Qed.

Lemma is_hex_not_underscore a : is_hex a = true -> Ascii.eqb a "_" = false.
Proof. destruct a as [[] [] [] [] [] [] [] []]; intros H; try discriminate H; reflexivity. Qed.

Lemma is_sep_cases a :
  is_sep a = negb (negb (Ascii.eqb a ":") && negb (Ascii.eqb a "-")).
Proof. unfold is_sep. now destruct (Ascii.eqb a ":"), (Ascii.eqb a "-"). Qed.

Lemma lacks_app c a b : lacks c (a ++ b) = lacks c a && lacks c b.
Proof.
  induction a as [|x a IH]; simpl; [reflexivity|]. rewrite IH. apply andb_assoc.
Qed.

Lemma all_hex_lacks_underscore s : all_hex s = true -> lacks "_" s = true.
Proof.
  induction s as [|a s IH]; simpl; [reflexivity|].
  intros H. apply andb_true_iff in H as [Ha Hs].
  now rewrite (is_hex_not_underscore a Ha), IH.
Qed.

Lemma all_hex_lacks_sep s :
  all_hex s = true -> lacks ":" s = true /\ lacks "-" s = true.
Proof.
  induction s as [|a s IH]; simpl; [auto|].
  intros H. apply andb_true_iff in H as [Ha Hs]. destruct (IH Hs) as [H1 H2].
  pose proof (is_hex_not_sep a Ha) as Hsep. unfold is_sep in Hsep.
  apply orb_false_iff in Hsep as [-> ->]. now rewrite H1, H2.
Qed.

Lemma split_on_app sep a b :
  lacks sep a = true -> split_on sep (a ++ String sep b) = a :: split_on sep b.
Proof.
  induction a as [|x a IH]; simpl.
  - intros _. now rewrite Ascii.eqb_refl.
  - intros H. apply andb_true_iff in H as [Hx Ha].
    apply negb_true_iff in Hx. rewrite Hx, (IH Ha). reflexivity.
Qed.

Lemma re_search_here m s g : m s = Some g -> re_search m s = Some g.
Proof. intros H. destruct s; simpl; now rewrite H. Qed.

Lemma re_search_skip m a s : m (String a s) = None ->
  re_search m (String a s) = re_search m s.
Proof. intros H. simpl. now rewrite H. Qed.

Lemma match_mac_no_sep n s :
  lacks ":" s = true -> lacks "-" s = true -> match_mac (S n) s = None.
Proof.
  intros H1 H2. destruct s as [|a [|b [|p s]]]; simpl; try reflexivity.
  simpl in H1, H2.
  repeat (apply andb_true_iff in H1 as [? H1]).
  repeat (apply andb_true_iff in H2 as [? H2]).
  assert (Hp : is_sep p = false).
  { unfold is_sep. apply orb_false_iff. split; now apply negb_true_iff. }
  rewrite Hp. now rewrite !andb_false_r.
Qed.

Lemma re_search_match_mac_no_sep n s :
  lacks ":" s = true -> lacks "-" s = true -> re_search (match_mac (S n)) s = None.
Proof.
  induction s as [|a s IH]; intros H1 H2.
  - reflexivity.
  - rewrite re_search_skip by now apply match_mac_no_sep.
    simpl in H1, H2. apply andb_true_iff in H1 as [_ H1].
    apply andb_true_iff in H2 as [_ H2]. now apply IH.
Qed.

Lemma match_hex_app raw rest :
  all_hex raw = true -> match_hex (String.length raw) (raw ++ rest) = Some raw.
Proof.
  induction raw as [|a raw IH]; simpl; [reflexivity|].
  intros H. apply andb_true_iff in H as [Ha Hr]. now rewrite Ha, (IH Hr).
Qed.

Lemma match_hex_short n a c b :
  (String.length a < n)%nat -> is_hex c = false ->
  match_hex n (a ++ String c b) = None.
Proof.
  revert n. induction a as [|x a IH]; intros n Hn Hc; simpl in *.
  - destruct n; [lia|]. simpl. now rewrite Hc.
  - destruct n; [lia|]. simpl. destruct (is_hex x); [|reflexivity].
    rewrite IH by (lia || assumption). reflexivity.
Qed.

Lemma re_search_match_hex_short n a c s :
  (String.length a < n)%nat -> is_hex c = false ->
  re_search (match_hex n) (a ++ String c s) = re_search (match_hex n) s.
Proof.
  intros Hn Hc. induction a as [|x a IH].
  - change ("" ++ String c s) with (String c s).
    rewrite re_search_skip; [reflexivity|].
    destruct n; [lia|]. simpl. now rewrite Hc.
  - change (String x a ++ String c s) with (String x (a ++ String c s)).
    rewrite re_search_skip.
    + apply IH. simpl in Hn. lia.
    + apply (match_hex_short n (String x a) c s Hn Hc).
Qed.

Lemma lower_colon_join raw :
  String.length raw = 12%nat -> lower (colon_join raw) = colon_join (lower raw).
Proof.
  intros Hl. do 12 (destruct raw as [|? raw]; [discriminate Hl|]).
  destruct raw; [|discriminate Hl]. reflexivity.
Qed.


Lemma match_mac_colon_join raw rest :
  String.length raw = 12%nat -> all_hex raw = true ->
  match_mac 5 (colon_join raw ++ rest) = Some (colon_join raw).
Proof.
  intros Hl Hh. do 12 (destruct raw as [|? raw]; [discriminate Hl|]).
  destruct raw; [|discriminate Hl]. clear Hl.
  cbn -[is_hex] in Hh. repeat (apply andb_true_iff in Hh as [? Hh]).
  cbv -[is_hex].
  repeat match goal with
         | H : is_hex ?a = true |- _ => rewrite H; clear H
         end.
  reflexivity.
Qed.

Lemma replace_dash_lower_colon_join raw :
  String.length raw = 12%nat -> all_hex raw = true ->
  Some (replace_dash (lower (colon_join raw))) = Some (colon_join (lower raw)).
Proof.
  intros Hl Hh. do 12 (destruct raw as [|? raw]; [discriminate Hl|]).
  destruct raw; [|discriminate Hl]. clear Hl.
  cbn -[is_hex] in Hh. repeat (apply andb_true_iff in Hh as [? Hh]).
  cbv -[ascii_lower Ascii.eqb].
  change (ascii_lower ":") with ":"%char.
  change (Ascii.eqb ":" "-") with false.
  repeat match goal with
         | H : is_hex ?a = true |- _ =>
             rewrite (is_hex_lower_not_dash a H); clear H
         end.
  reflexivity.
Qed.

(** X8.  Round trip through the file-name extractor: a name that starts
    with a colon-form MAC of twelve hex digits gives that MAC back in lower
    case; so does a name that starts with the twelve bare digits, when the
    rest of the name has no colon or dash. *)
Theorem extract_mac_round_trip (raw rest : string) :
  String.length raw = 12%nat ->
  all_hex raw = true ->
  _extract_mac (colon_join raw ++ rest) = Some (colon_join (lower raw)) /\
  (lacks ":" rest = true -> lacks "-" rest = true ->
   _extract_mac (raw ++ rest) = Some (colon_join (lower raw))).
Proof.
  intros Hl Hh. split.
  - unfold _extract_mac.
    rewrite (re_search_here (match_mac 5) _ (colon_join raw)).
    + now apply replace_dash_lower_colon_join.
    + now apply match_mac_colon_join.
  - intros Hr1 Hr2. unfold _extract_mac.
    destruct (all_hex_lacks_sep raw Hh) as [H1 H2].
    rewrite re_search_match_mac_no_sep by (rewrite lacks_app; now apply andb_true_iff).
    rewrite (re_search_here (match_hex 12) (raw ++ rest) raw).
    + reflexivity.
    + rewrite <- Hl. now apply match_hex_app.
Qed.

Lemma extract_mac_round_trip_witness :
  _extract_mac (colon_join "AABBCCDDEEFF" ++ ".pcap")
  = Some (colon_join (lower "AABBCCDDEEFF")) /\
  (lacks ":" "_handshake.22000" = true -> lacks "-" "_handshake.22000" = true ->
   _extract_mac ("AABBCCDDEEFF" ++ "_handshake.22000")
   = Some (colon_join (lower "AABBCCDDEEFF"))).
Proof.
  split.
  - apply (extract_mac_round_trip "AABBCCDDEEFF" ".pcap"); reflexivity.
  - intros _ _.
    apply (extract_mac_round_trip "AABBCCDDEEFF" "_handshake.22000"); reflexivity.
Defined.

Lemma append_char c x : String c "" ++ x = String c x.
Proof. reflexivity. Qed.

(** X9.  For a pineapd name [<ts>_<AP12>_<CLIENT12>_<rest>], whose time
    stamp has no underscore and whose two MACs are twelve hex digits each,
    [_extract_ap_client_pair] returns both MACs in colon form and lower
    case; and when the time stamp is shorter than twelve characters and the
    name has no colon or dash, [_extract_mac] returns the same AP MAC. *)
Theorem extract_ap_client_pair_round_trip (int16_parses : string -> bool)
    (ts ap cl rest : string) :
  (forall s, all_hex s = true -> s <> "" -> int16_parses s = true) ->
  lacks "_" ts = true ->
  String.length ap = 12%nat -> all_hex ap = true ->
  String.length cl = 12%nat -> all_hex cl = true ->
  let filename := ts ++ "_" ++ ap ++ "_" ++ cl ++ "_" ++ rest in
  _extract_ap_client_pair int16_parses filename
  = (Some (colon_join (lower ap)), Some (colon_join (lower cl))) /\
  ((String.length ts < 12)%nat ->
   lacks ":" ts = true -> lacks "-" ts = true ->
   lacks ":" rest = true -> lacks "-" rest = true ->
   _extract_mac filename = Some (colon_join (lower ap))).
Proof.
  intros Hint Hts Hlap Hhap Hlcl Hhcl filename. subst filename. split.
  - unfold _extract_ap_client_pair. rewrite !append_char.
    rewrite (split_on_app "_" ts _ Hts).
    rewrite (split_on_app "_" ap _ (all_hex_lacks_underscore ap Hhap)).
    rewrite (split_on_app "_" cl _ (all_hex_lacks_underscore cl Hhcl)).
    rewrite Hlap, Hlcl. simpl.
    rewrite !Hint; try assumption.
    + simpl. now rewrite !lower_colon_join.
    + intros ->. discriminate Hlcl.
    + intros ->. discriminate Hlap.
  - intros Hshort Ht1 Ht2 Hr1 Hr2. unfold _extract_mac. rewrite !append_char.
    destruct (all_hex_lacks_sep ap Hhap) as [Ha1 Ha2].
    destruct (all_hex_lacks_sep cl Hhcl) as [Hc1 Hc2].
    rewrite re_search_match_mac_no_sep.
    + rewrite (re_search_match_hex_short 12 ts "_" _ Hshort eq_refl).
      rewrite (re_search_here (match_hex 12) _ ap); [reflexivity|].
      rewrite <- Hlap. now apply match_hex_app.
    + rewrite !lacks_app. simpl. rewrite !lacks_app. simpl. rewrite !lacks_app.
      simpl. now rewrite Ht1, Ha1, Hc1, Hr1.
    + rewrite !lacks_app. simpl. rewrite !lacks_app. simpl. rewrite !lacks_app.
      simpl. now rewrite Ht2, Ha2, Hc2, Hr2.
Qed.

Lemma extract_ap_client_pair_round_trip_witness :
  let filename :=
    "1772260468" ++ "_" ++ "142103B04721" ++ "_" ++ "84F3EBEE271E" ++ "_"
    ++ "handshake.22000" in
  _extract_ap_client_pair all_hex filename
  = (Some (colon_join (lower "142103B04721")),
     Some (colon_join (lower "84F3EBEE271E"))) /\
  ((String.length "1772260468" < 12)%nat ->
   lacks ":" "1772260468" = true -> lacks "-" "1772260468" = true ->
   lacks ":" "handshake.22000" = true -> lacks "-" "handshake.22000" = true ->
   _extract_mac filename = Some (colon_join (lower "142103B04721"))).
Proof.
  apply (extract_ap_client_pair_round_trip all_hex "1772260468" "142103B04721"
           "84F3EBEE271E" "handshake.22000"); try reflexivity.
  intros s Hs _. exact Hs.
Defined.

End MacRoundTrip.

Section CaptureFiles.
Import CaptureContext.
Open Scope string_scope.




Lemma canonical_lower n s : canonical_mac n s -> lower s = s.
Proof.
  revert s. induction n as [|n IH]; intros s; simpl.
  - destruct s as [|a [|b [|? ?]]]; try tauto. intros [Ha Hb].
    unfold lower. simpl. now rewrite (is_lower_hex_fixed a Ha), (is_lower_hex_fixed b Hb).
  - destruct s as [|a [|b [|p s]]]; try tauto. intros (Ha & Hb & -> & Hs).
    unfold lower in *. simpl.
    rewrite (is_lower_hex_fixed a Ha), (is_lower_hex_fixed b Hb), (IH s Hs).
    reflexivity.
Qed.

(** A MAC returned by [_extract_mac] is already in lower case. *)
Lemma extract_mac_Some_lower (filename mac : string) :
  _extract_mac filename = Some mac -> lower mac = mac.
Proof.
  unfold _extract_mac.
  destruct (re_search (match_mac 5) filename) as [g|] eqn:E1.
  - intros [= <-]. apply re_search_Some in E1 as [k Hk].
    apply (canonical_lower 5). eapply match_mac_canonical. exact Hk.
  - destruct (re_search (match_hex 12) filename) as [g|] eqn:E2; [|discriminate].
    intros [= <-]. apply re_search_Some in E2 as [k Hk].
    apply match_hex_spec in Hk as [Hl Hh].
    apply (canonical_lower 5). now apply colon_join_canonical.
Qed.

Lemma extract_ap_client_pair_lower v filename ap cl :
  _extract_ap_client_pair v filename = (Some ap, Some cl) ->
  lower ap = ap /\ lower cl = cl.
Proof.
  unfold _extract_ap_client_pair.
  destruct (split_on "_" filename) as [|? [|ra [|rc ?]]]; try discriminate.
  destruct (_ && _)%bool; [|discriminate].
  destruct (_ && _)%bool; [|discriminate].
  intros [= <- <-]. split; apply lower_idemp.
Qed.

Lemma scan_file_frame v c f :
  _pmkids (_scan_file v c f) = _pmkids c /\
  _interactions (_scan_file v c f) = _interactions c /\
  _epoch_interactions (_scan_file v c f) = _epoch_interactions c.
Proof. repeat split. Qed.

Lemma scan_file_captured_mono v c f k :
  is_Some (_captured c !! k) -> is_Some (_captured (_scan_file v c f) !! k).
Proof.
  intros Hk. unfold _scan_file. simpl.
  set (cap1 := match _extract_mac (file_basename f) with
               | Some mac => _ | None => _ end).
  assert (H1 : is_Some (cap1 !! k)).
  { subst cap1. destruct (_extract_mac (file_basename f)) as [m|]; [|exact Hk].
    destruct (decide (m = k)) as [->|Hne].
    - rewrite lookup_insert_eq. eauto.
    - now rewrite lookup_insert_ne. }
  destruct (endswith (file_path f) ".22000"); [|exact H1].
  destruct (_extract_mac_from_22000 (file_lines f)) as [cm|]; [|exact H1].
  destruct (cap1 !! cm) eqn:E; [exact H1|].
  destruct (decide (cm = k)) as [->|Hne].
  - rewrite lookup_insert_eq. eauto.
  - now rewrite lookup_insert_ne.
Qed.

Lemma scan_file_captured_new v c f mac :
  _extract_mac (file_basename f) = Some mac ->
  is_Some (_captured (_scan_file v c f) !! mac).
Proof.
  intros Hm. unfold _scan_file. simpl. rewrite Hm.
  set (cap1 := <[mac := _]> (_captured c)).
  assert (H1 : is_Some (cap1 !! mac)) by (subst cap1; rewrite lookup_insert_eq; eauto).
  destruct (endswith (file_path f) ".22000"); [|exact H1].
  destruct (_extract_mac_from_22000 (file_lines f)) as [cm|]; [|exact H1].
  destruct (cap1 !! cm) eqn:E; [exact H1|].
  destruct (decide (cm = mac)) as [->|Hne].
  - rewrite lookup_insert_eq. eauto.
  - now rewrite lookup_insert_ne.
Qed.

Lemma scan_file_clients_mono v c f ap cl :
  cl ∈ default ∅ (_captured_clients c !! ap) ->
  cl ∈ default ∅ (_captured_clients (_scan_file v c f) !! ap).
Proof.
  intros Hcl. unfold _scan_file. simpl.
  destruct (_extract_ap_client_pair v (file_basename f)) as [[a|] [b|]];
    try exact Hcl.
  destruct (decide (a = ap)) as [->|Hne].
  - rewrite lookup_insert_eq. simpl. now apply elem_of_union_r.
  - now rewrite lookup_insert_ne.
Qed.

Lemma scan_file_clients_new v c f ap cl :
  _extract_ap_client_pair v (file_basename f) = (Some ap, Some cl) ->
  cl ∈ default ∅ (_captured_clients (_scan_file v c f) !! ap).
Proof.
  intros Hp. unfold _scan_file. simpl. rewrite Hp, lookup_insert_eq. simpl.
  apply elem_of_union_l. now apply elem_of_singleton.
Qed.

Lemma scan_files_index v files c :
  let c' := fold_left (_scan_file v) files c in
  _pmkids c' = _pmkids c /\
  _interactions c' = _interactions c /\
  _epoch_interactions c' = _epoch_interactions c /\
  (forall k, is_Some (_captured c !! k) -> is_Some (_captured c' !! k)) /\
  (forall ap cl, cl ∈ default ∅ (_captured_clients c !! ap) ->
                 cl ∈ default ∅ (_captured_clients c' !! ap)) /\
  (forall f mac, f ∈ files -> _extract_mac (file_basename f) = Some mac ->
                 is_Some (_captured c' !! mac)) /\
  (forall f ap cl, f ∈ files ->
                   _extract_ap_client_pair v (file_basename f) = (Some ap, Some cl) ->
                   cl ∈ default ∅ (_captured_clients c' !! ap)).
Proof.
  revert c. induction files as [|f files IH]; intros c; simpl.
  - repeat split; auto; intros;
      match goal with H : _ ∈ [] |- _ => now apply elem_of_nil in H end.
  - destruct (IH (_scan_file v c f)) as (H1 & H2 & H3 & H4 & H5 & H6 & H7).
    repeat split; try assumption.
    + intros k Hk. apply H4. now apply scan_file_captured_mono.
    + intros ap cl Hcl. apply H5. now apply scan_file_clients_mono.
    + intros f' mac Hf Hm. apply elem_of_cons in Hf as [->|Hf].
      * apply H4. now apply scan_file_captured_new.
      * eapply H6; eassumption.
    + intros f' ap cl Hf Hp. apply elem_of_cons in Hf as [->|Hf].
      * apply H5. now apply scan_file_clients_new.
      * eapply H7; eassumption.
Qed.

(** X11.  The index built by [_scan_existing] has no PMKID and no
    interaction on record; it has a handshake for the MAC extracted from the
    name of every file met; and every (AP, client) pair extracted from a
    file name is known, so [get_new_clients] for that AP never returns that
    client. *)
Theorem scan_existing_index (int16_parses : string -> bool) (files : list file) :
  let c := _scan_existing int16_parses files in
  (forall mac, has_pmkid c mac = false) /\
  (forall mac, get_session_interactions c mac = 0%nat /\
               get_epoch_interactions c mac = 0%nat) /\
  (forall f mac, f ∈ files -> _extract_mac (file_basename f) = Some mac ->
                 has_handshake c mac = true) /\
  (forall f ap cl clients,
      f ∈ files ->
      _extract_ap_client_pair int16_parses (file_basename f) = (Some ap, Some cl) ->
      cl ∉ get_new_clients c ap clients).
Proof.
  intros c. subst c. unfold _scan_existing.
  destruct (scan_files_index int16_parses files empty)
    as (H1 & H2 & H3 & _ & _ & H6 & H7).
  split; [|split; [|split]].
  - intros mac. unfold has_pmkid. rewrite H1. apply bool_decide_eq_false.
    apply not_elem_of_empty.
  - intros mac. unfold get_session_interactions, get_epoch_interactions.
    rewrite H2, H3. simpl. now rewrite !lookup_empty.
  - intros f mac Hf Hm. apply has_handshake_elem.
    rewrite (extract_mac_Some_lower _ _ Hm).
    eapply H6; eassumption.
  - intros f ap cl clients Hf Hp.
    destruct (extract_ap_client_pair_lower _ _ _ _ Hp) as [Hap Hcl].
    pose proof (H7 f ap cl Hf Hp) as Hin.
    unfold get_new_clients. rewrite Hap.
    induction clients as [|x clients IH]; simpl; [apply not_elem_of_nil|].
    destruct (negb _ && bool_decide _)%bool eqn:E; [|exact IH].
    apply not_elem_of_cons. split; [|exact IH].
    apply andb_true_iff in E as [_ E]. apply bool_decide_eq_true in E.
    intros Heq. apply E. now rewrite <- Heq.
Qed.

End CaptureFiles.

(** * Channel bandit: windows, statistics and state *)
Section BanditWindows.
Import ChannelBandit.

Lemma count_successes_le history : (count_successes history <= length history)%nat.
Proof. unfold count_successes. apply length_filter. Qed.

Lemma slice_last_length {A} (l : list A) (k : Z) :
  (1 <= k)%Z -> length (slice_last l k) = Nat.min (length l) (Z.to_nat k).
Proof.
  intros Hk. unfold slice_last.
  destruct (0 <? k)%Z eqn:E; [|apply Z.ltb_ge in E; lia].
  rewrite length_drop. lia.
Qed.

Lemma slice_last_suffix {A} (l : list A) (k : Z) : slice_last l k `suffix_of` l.
Proof.
  unfold slice_last. destruct (0 <? k)%Z; [apply suffix_drop|].
  destruct (k =? 0)%Z; [reflexivity|apply suffix_drop].
Qed.

(** The window kept by [_get_windowed_stats] and [record_client_activity]. *)
Lemma window_length {A} (l : list A) (w : Z) :
  (1 <= w)%Z ->
  length (if (w <? Z.of_nat (length l))%Z then slice_last l w else l)
  = Nat.min (length l) (Z.to_nat w).
Proof.
  intros Hw. destruct (w <? Z.of_nat (length l))%Z eqn:E.
  - now apply slice_last_length.
  - apply Z.ltb_ge in E. lia.
Qed.

(** X12.  With a window of at least one, [_get_windowed_stats] counts
    exactly the last [min(len(history), window_size)] observations of the
    channel: successes plus failures is that number, hence at most the
    window size.  It cuts the stored history to that window, touches no
    other channel and no counter, and asking again gives the same answer
    and changes nothing more. *)
Theorem windowed_stats_bounded (b : ChannelBandit.t) (channel : Z) :
  (1 <= window_size b)%Z ->
  let history := default [] (_history b !! channel) in
  let b' := fst (_get_windowed_stats b channel) in
  let successes := fst (snd (_get_windowed_stats b channel)) in
  let failures := snd (snd (_get_windowed_stats b channel)) in
  (successes + failures)%nat = Nat.min (length history) (Z.to_nat (window_size b)) /\
  (exists kept, _history b' !! channel = Some kept /\ kept `suffix_of` history /\
                length kept = (successes + failures)%nat) /\
  (forall ch, ch <> channel -> _history b' !! ch = _history b !! ch) /\
  _total_scans b' = _total_scans b /\ _total_epochs b' = _total_epochs b /\
  _get_windowed_stats b' channel = (b', (successes, failures)).
Proof.
  intros Hw history b' successes failures.
  subst b' successes failures. unfold _get_windowed_stats. simpl.
  fold history.
  set (kept := if (window_size b <? Z.of_nat (length history))%Z
               then slice_last history (window_size b) else history).
  assert (Hlen : length kept = Nat.min (length history) (Z.to_nat (window_size b)))
    by (subst kept; now apply window_length).
  pose proof (count_successes_le kept) as Hle.
  assert (Hsum : (count_successes kept + (length kept - count_successes kept))%nat
                 = length kept) by lia.
  split; [lia|]. split; [|split; [|split; [|split]]].
  - exists kept. rewrite lookup_insert_eq. repeat split; [|lia].
    subst kept. destruct (_ <? _)%Z; [apply slice_last_suffix|reflexivity].
  - intros ch Hne. now rewrite lookup_insert_ne.
  - reflexivity.
  - reflexivity.
  - rewrite lookup_insert_eq. simpl.
    assert (Hnocut : (window_size b <? Z.of_nat (length kept))%Z = false)
      by (apply Z.ltb_ge; lia).
    rewrite Hnocut. now rewrite insert_insert_eq.
Qed.

Lemma windowed_stats_bounded_witness :
  let b := update (update (update (new [1; 6]%Z 2 0.1 MODE_ACTIVE) 1 6%Z 1)
                     2 6%Z 0) 3 6%Z 1 in
  let history := default [] (_history b !! 6%Z) in
  let b' := fst (_get_windowed_stats b 6%Z) in
  let successes := fst (snd (_get_windowed_stats b 6%Z)) in
  let failures := snd (snd (_get_windowed_stats b 6%Z)) in
  (successes + failures)%nat = Nat.min (length history) (Z.to_nat (window_size b)) /\
  (exists kept, _history b' !! 6%Z = Some kept /\ kept `suffix_of` history /\
                length kept = (successes + failures)%nat) /\
  (forall ch, ch <> 6%Z -> _history b' !! ch = _history b !! ch) /\
  _total_scans b' = _total_scans b /\ _total_epochs b' = _total_epochs b /\
  _get_windowed_stats b' 6%Z = (b', (successes, failures)).
Proof.
  apply (windowed_stats_bounded
           (update (update (update (new [1; 6]%Z 2 0.1 MODE_ACTIVE) 1 6%Z 1)
                      2 6%Z 0) 3 6%Z 1) 6%Z).
  simpl. lia.
Defined.

(** X13.  A window size of zero does not empty the window: the history is
    then never cut ([history[-0:]] is the whole list) and every observation
    ever recorded is counted. *)
Theorem windowed_stats_zero_window (b : ChannelBandit.t) (channel : Z) :
  window_size b = 0%Z ->
  let history := default [] (_history b !! channel) in
  let r := _get_windowed_stats b channel in
  _history (fst r) !! channel = Some history /\
  (fst (snd r) + snd (snd r))%nat = length history.
Proof.
  intros Hw history r. subst r. unfold _get_windowed_stats. simpl. fold history.
  rewrite Hw. unfold slice_last. simpl.
  assert (Hkept : (if (0 <? Z.of_nat (length history))%Z then history else history)
                  = history) by now destruct (_ <? _)%Z.
  rewrite Hkept, lookup_insert_eq. split; [reflexivity|].
  pose proof (count_successes_le history). lia.
Qed.

Lemma windowed_stats_zero_window_witness :
  let b := update (update (new [1; 6]%Z 0 0.1 MODE_ACTIVE) 1 6%Z 1) 2 6%Z 0 in
  let history := default [] (_history b !! 6%Z) in
  let r := _get_windowed_stats b 6%Z in
  _history (fst r) !! 6%Z = Some history /\
  (fst (snd r) + snd (snd r))%nat = length history.
Proof.
  apply (windowed_stats_zero_window
           (update (update (new [1; 6]%Z 0 0.1 MODE_ACTIVE) 1 6%Z 1) 2 6%Z 0) 6%Z).
  reflexivity.
Defined.

(** X14.  With a window of at least one, [record_client_activity] leaves the
    channel with its last [min(n + 1, window_size)] counts, the newest of
    which is the one just recorded; observation histories, scan and epoch
    counters and the other channels' activity are untouched. *)
Theorem record_client_activity_window (b : ChannelBandit.t) (channel count : Z) :
  (1 <= window_size b)%Z ->
  let before := default [] (_client_activity b !! channel) in
  let b' := record_client_activity b channel count in
  (exists kept, _client_activity b' !! channel = Some kept /\
                length kept = Nat.min (S (length before)) (Z.to_nat (window_size b)) /\
                kept `suffix_of` before ++ [count] /\
                last kept = Some count) /\
  (forall ch, ch <> channel -> _client_activity b' !! ch = _client_activity b !! ch) /\
  _history b' = _history b /\ _total_scans b' = _total_scans b /\
  _total_epochs b' = _total_epochs b.
Proof.
  intros Hw before b'. subst b'. unfold record_client_activity. simpl. fold before.
  set (kept := if (window_size b <? Z.of_nat (length (before ++ [count])))%Z
               then slice_last (before ++ [count]) (window_size b)
               else before ++ [count]).
  assert (Hlen : length kept
                 = Nat.min (length (before ++ [count])) (Z.to_nat (window_size b)))
    by (subst kept; now apply window_length).
  assert (Hsuf : kept `suffix_of` before ++ [count]).
  { subst kept. destruct (_ <? _)%Z; [apply slice_last_suffix|reflexivity]. }
  split; [|repeat split].
  - exists kept. rewrite lookup_insert_eq.
    split; [reflexivity|]. split; [|split; [exact Hsuf|]].
    + rewrite Hlen, length_app. simpl.
      destruct (Z.to_nat (window_size b)); lia.
    + destruct Hsuf as [pre Hpre].
      destruct kept as [|x kept] using rev_ind.
      * rewrite length_app in Hlen. simpl in Hlen. lia.
      * rewrite app_assoc in Hpre. apply app_inj_tail in Hpre as [_ ->].
        apply last_snoc.
  - intros ch Hne. now rewrite lookup_insert_ne.
Qed.

Lemma record_client_activity_window_witness :
  let b := record_client_activity (new [1; 6]%Z 1 0.1 MODE_PASSIVE) 6%Z 4 in
  let before := default [] (_client_activity b !! 6%Z) in
  let b' := record_client_activity b 6%Z 7 in
  (exists kept, _client_activity b' !! 6%Z = Some kept /\
                length kept = Nat.min (S (length before)) (Z.to_nat (window_size b)) /\
                kept `suffix_of` before ++ [7%Z] /\
                last kept = Some 7%Z) /\
  (forall ch, ch <> 6%Z -> _client_activity b' !! ch = _client_activity b !! ch) /\
  _history b' = _history b /\ _total_scans b' = _total_scans b /\
  _total_epochs b' = _total_epochs b.
Proof.
  apply (record_client_activity_window
           (record_client_activity (new [1; 6]%Z 1 0.1 MODE_PASSIVE) 6%Z 4) 6%Z 7).
  simpl. lia.
Defined.

End BanditWindows.

Section BanditStats.
Import ChannelBandit.

Lemma QofN_le (n m : nat) : (n <= m)%nat -> QofN n <= QofN m.
Proof. intros H. unfold QofN. rewrite <- Zle_Qle. lia. Qed.

Lemma QofN_pos (n : nat) : (0 < n)%nat -> 0 < QofN n.
Proof.
  intros H. unfold QofN. change 0 with (inject_Z 0). rewrite <- Zlt_Qlt. lia.
Qed.

Lemma rate_bounds (s t : nat) :
  (s <= t)%nat ->
  let rate := if (0 <? t)%nat then QofN s / QofN t else 0 in
  0 <= rate /\ rate <= 1.
Proof.
  intros Hst rate. subst rate. destruct (0 <? t)%nat eqn:E.
  - apply Nat.ltb_lt in E. pose proof (QofN_pos t E) as Hpos. split.
    + apply Qle_shift_div_l; [exact Hpos|]. rewrite Qmult_0_l. apply QofN_nonneg.
    + apply Qle_shift_div_r; [exact Hpos|]. rewrite Qmult_1_l. now apply QofN_le.
  - split; [apply Qle_refl|discriminate].
Qed.

(** What [get_stats] reports for a channel of a bandit [b0]. *)
Lemma stats_step_entry b0 acc ch :
  (1 <= window_size b0)%Z ->
  window_size (fst acc) = window_size b0 ->
  (forall c, default 0%nat (_total_scans (fst acc) !! c)
             = default 0%nat (_total_scans b0 !! c)) ->
  let acc' := stats_step acc ch in
  window_size (fst acc') = window_size b0 /\
  (forall c, default 0%nat (_total_scans (fst acc') !! c)
             = default 0%nat (_total_scans b0 !! c)) /\
  (forall c, c <> ch -> snd acc' !! c = snd acc !! c) /\
  exists st, snd acc' !! ch = Some st /\
    stats_band st = channel_to_band ch /\
    stats_scans st = default 0%nat (_total_scans b0 !! ch) /\
    (Z.of_nat (stats_successes_windowed st + stats_failures_windowed st)
     <= window_size b0)%Z /\
    0 <= stats_success_rate st /\ stats_success_rate st <= 1.
Proof.
  intros Hw Hws Hscans acc'. subst acc'.
  unfold stats_step, read_scans, _get_windowed_stats. cbv zeta. simpl.
  set (history := default [] (_history (fst acc) !! ch)).
  set (kept := if (window_size (fst acc) <? Z.of_nat (length history))%Z
               then slice_last history (window_size (fst acc)) else history).
  assert (Hlen : length kept
                 = Nat.min (length history) (Z.to_nat (window_size (fst acc))))
    by (subst kept; apply window_length; lia).
  pose proof (count_successes_le kept) as Hle.
  split; [exact Hws|]. split; [|split].
  - intros c. destruct (decide (ch = c)) as [->|Hne].
    + rewrite lookup_insert_eq. simpl. apply Hscans.
    + rewrite lookup_insert_ne by exact Hne. apply Hscans.
  - intros c Hne. now rewrite lookup_insert_ne.
  - eexists. rewrite lookup_insert_eq. split; [reflexivity|]. simpl.
    split; [reflexivity|]. split; [apply Hscans|].
    split; [lia|].
    apply rate_bounds. lia.
Qed.

(** X15.  For a window of at least one, [get_stats] has an entry for every
    configured channel, giving the channel's band, its total scan count,
    windowed successes and failures that add up to at most the window size,
    and a success rate between 0 and 1. *)
Theorem get_stats_entries (b : ChannelBandit.t) (ch : Z) :
  (1 <= window_size b)%Z ->
  ch ∈ channels b ->
  exists st, snd (get_stats b) !! ch = Some st /\
    stats_band st = channel_to_band ch /\
    stats_scans st = default 0%nat (_total_scans b !! ch) /\
    (Z.of_nat (stats_successes_windowed st + stats_failures_windowed st)
     <= window_size b)%Z /\
    0 <= stats_success_rate st /\ stats_success_rate st <= 1.
Proof.
  intros Hw. unfold get_stats.
  assert (Hgen : forall l acc,
    window_size (fst acc) = window_size b ->
    (forall c, default 0%nat (_total_scans (fst acc) !! c)
               = default 0%nat (_total_scans b !! c)) ->
    forall c,
      (c ∈ l \/
       exists st, snd acc !! c = Some st /\
         stats_band st = channel_to_band c /\
         stats_scans st = default 0%nat (_total_scans b !! c) /\
         (Z.of_nat (stats_successes_windowed st + stats_failures_windowed st)
          <= window_size b)%Z /\
         0 <= stats_success_rate st /\ stats_success_rate st <= 1) ->
      exists st, snd (fold_left stats_step l acc) !! c = Some st /\
        stats_band st = channel_to_band c /\
        stats_scans st = default 0%nat (_total_scans b !! c) /\
        (Z.of_nat (stats_successes_windowed st + stats_failures_windowed st)
         <= window_size b)%Z /\
        0 <= stats_success_rate st /\ stats_success_rate st <= 1).
  { induction l as [|x l IH]; intros acc Hws Hsc c Hc; simpl.
    - destruct Hc as [Hc|Hc]; [now apply elem_of_nil in Hc|exact Hc].
    - destruct (stats_step_entry b acc x Hw Hws Hsc) as (H1 & H2 & H3 & st & H4).
      apply IH; [exact H1|exact H2|].
      destruct (decide (c = x)) as [->|Hne]; [right; exists st; exact H4|].
      destruct Hc as [Hc|Hc].
      + apply elem_of_cons in Hc as [Hc|Hc]; [contradiction|now left].
      + right. rewrite H3 by exact Hne. exact Hc. }
  intros Hch. apply Hgen; [reflexivity|reflexivity|now left].
Qed.

Lemma get_stats_entries_witness :
  let b := update (update (new [1; 6]%Z 30 0.1 MODE_ACTIVE) 1 6%Z 1) 2 6%Z 0 in
  exists st, snd (get_stats b) !! 6%Z = Some st /\
    stats_band st = channel_to_band 6%Z /\
    stats_scans st = default 0%nat (_total_scans b !! 6%Z) /\
    (Z.of_nat (stats_successes_windowed st + stats_failures_windowed st)
     <= window_size b)%Z /\
    0 <= stats_success_rate st /\ stats_success_rate st <= 1.
Proof.
  apply (get_stats_entries
           (update (update (new [1; 6]%Z 30 0.1 MODE_ACTIVE) 1 6%Z 1) 2 6%Z 0) 6%Z).
  - simpl. lia.
  - eapply bool_decide_eq_true_1. reflexivity.
Defined.

End BanditStats.

Section BanditState.
Import ChannelBandit.

Lemma load_items_kmap_union {V} (f : Z -> pykey) (m d : gmap Z V) :
  (forall z, int (f z) = Ok z) -> load_items (kmap f m) d = Ok (m ∪ d).
Proof.
  intros Hint. pose proof (int_left_inverse_inj f Hint) as Hinj.
  unfold load_items.
  induction m as [|i x m Hi IH] using map_ind.
  - rewrite kmap_empty, map_fold_empty. now rewrite (left_id_L ∅ (∪)).
  - rewrite (kmap_insert f (Inj0 := Hinj)). rewrite map_fold_insert_L.
    + rewrite IH. simpl. rewrite Hint. simpl. now rewrite insert_union_l.
    + intros j1 j2 z1 z2 acc Hne H1 H2.
      rewrite <- (kmap_insert f (Inj0 := Hinj)) in H1, H2.
      apply (lookup_kmap_Some f (Inj0 := Hinj)) in H1 as (a & -> & _).
      apply (lookup_kmap_Some f (Inj0 := Hinj)) in H2 as (c & -> & _).
      destruct acc as [d'|err]; simpl; [|reflexivity].
      rewrite !Hint. simpl. f_equal.
      apply insert_insert_ne. congruence.
    + rewrite (lookup_kmap f (Inj0 := Hinj)). exact Hi.
Qed.

(** X16.  [load_state] merges rather than replaces: loading the state of a
    bandit [b0] into a bandit [b] that already holds data overwrites the
    history, scan count and client activity of the channels [b0] has an
    entry for and keeps those of every other channel; window size,
    exploration bonus and epoch count are taken from [b0], the channel list
    and mode stay those of [b].  Loading an empty dict keeps everything
    except the epoch count, which becomes 0. *)
Theorem load_state_merges (b b0 : ChannelBandit.t) :
  load_state b (get_state b0)
  = Ok (mk (channels b) (window_size b0) (exploration_bonus b0) (mode b)
           (_history b0 ∪ _history b) (_total_scans b0 ∪ _total_scans b)
           (_total_epochs b0) (_client_activity b0 ∪ _client_activity b)) /\
  load_state b (mkState None None None None None None None None)
  = Ok (mk (channels b) (window_size b) (exploration_bonus b) (mode b)
           (_history b) (_total_scans b) 0 (_client_activity b)).
Proof.
  split.
  - unfold load_state, get_state. simpl.
    rewrite !load_items_kmap_union by (first [exact int_str | exact int_KInt]).
    reflexivity.
  - unfold load_state, load_items. simpl. rewrite !map_fold_empty. reflexivity.
Qed.

Lemma CHANNELS_5G_upper_bound (ch : Z) : ch ∈ CHANNELS_5G -> (36 <= ch <= 177)%Z.
Proof.
  unfold CHANNELS_5G. intros H.
  repeat (apply elem_of_cons in H as [-> | H]; [lia|]).
  now apply elem_of_nil in H.
Qed.

Lemma CHANNELS_2G_bounds (ch : Z) : ch ∈ CHANNELS_2G -> (1 <= ch <= 14)%Z.
Proof.
  unfold CHANNELS_2G. intros H. apply list_elem_of_fmap in H as (n & -> & Hn).
  apply elem_of_seq in Hn. lia.
Qed.

(** X17.  Band classification: every standard 2.4 GHz channel is [2G],
    every standard 5 GHz channel is [5G], every member of [CHANNELS_6G] is
    [6G], and so is the offset form of any raw 6 GHz channel number from 1
    up, from which [offset_to_raw_6g] gives the raw number back. *)
Theorem channel_to_band_standard (ch : Z) :
  (ch ∈ CHANNELS_2G -> channel_to_band ch = Band2G) /\
  (ch ∈ CHANNELS_5G -> channel_to_band ch = Band5G) /\
  (ch ∈ CHANNELS_6G -> channel_to_band ch = Band6G) /\
  ((1 <= ch)%Z -> channel_to_band (raw_6g_to_offset ch) = Band6G /\
                  offset_to_raw_6g (raw_6g_to_offset ch) = ch).
Proof.
  unfold channel_to_band. repeat split.
  - intros H2. pose proof (CHANNELS_2G_bounds ch H2).
    rewrite bool_decide_eq_false_2
      by (intros H6; apply CHANNELS_6G_lower_bound in H6; lia).
    rewrite bool_decide_eq_false_2
      by (intros H5; apply CHANNELS_5G_upper_bound in H5; lia).
    now rewrite bool_decide_eq_true_2.
  - intros H5. pose proof (CHANNELS_5G_upper_bound ch H5).
    rewrite bool_decide_eq_false_2
      by (intros H6; apply CHANNELS_6G_lower_bound in H6; lia).
    now rewrite bool_decide_eq_true_2.
  - intros H6. now rewrite bool_decide_eq_true_2.
  - unfold raw_6g_to_offset, _6G_OFFSET.
    destruct (bool_decide (ch + 190 ∈ CHANNELS_6G)%Z); [reflexivity|].
    rewrite bool_decide_eq_false_2
      by (intros H5; apply CHANNELS_5G_upper_bound in H5; lia).
    rewrite bool_decide_eq_false_2
      by (intros H2; apply CHANNELS_2G_bounds in H2; lia).
    destruct (177 <? ch + 190)%Z eqn:E; [reflexivity|].
    apply Z.ltb_ge in E. lia.
  - unfold offset_to_raw_6g, raw_6g_to_offset. lia.
Qed.

End BanditState.

(** * Further properties of the Gaussian process *)

Section Substitution.
Import GaussianProcess.

Lemma mapM_ext {A B} (f g : A -> result B) (xs : list A) :
  (forall a, a ∈ xs -> f a = g a) -> mapM f xs = mapM g xs.
Proof.
  induction xs as [|a xs IH]; intros H; simpl; [reflexivity|].
  rewrite (H a) by apply list_elem_of_here.
  rewrite IH by (intros a' Ha'; apply H; now right).
  reflexivity.
Qed.

Lemma foldM_ext {A B} (f g : B -> A -> result B) (xs : list A) (acc : B) :
  (forall acc a, a ∈ xs -> f acc a = g acc a) -> foldM f acc xs = foldM g acc xs.
Proof.
  revert acc. induction xs as [|a xs IH]; intros acc H; simpl; [reflexivity|].
  rewrite (H acc a) by apply list_elem_of_here.
  destruct (g acc a) as [acc1|e]; simpl; [|reflexivity].
  apply IH. intros acc' a' Ha'. apply H. now right.
Qed.

(** The entries forward substitution reads. *)
Lemma solve_triangular_lower_ext L L' b :
  (forall i j, (j <= i < length b)%nat -> get2 L' i j = get2 L i j) ->
  _solve_triangular_lower L' b = _solve_triangular_lower L b.
Proof.
  intros Hagree. unfold _solve_triangular_lower.
  apply foldM_ext. intros x i Hi. apply seq_elem_lt in Hi.
  rewrite (mapM_ext _ (fun j => lij ← get2 L i j; xj ← get x j; Ok (lij * xj))).
  - now rewrite (Hagree i i) by lia.
  - intros j Hj. apply seq_elem_lt in Hj. now rewrite (Hagree i j) by lia.
Qed.

(** The entries backward substitution reads. *)
Lemma solve_triangular_upper_ext U U' b :
  (forall i j, (i <= j < length b)%nat -> get2 U' i j = get2 U i j) ->
  _solve_triangular_upper U' b = _solve_triangular_upper U b.
Proof.
  intros Hagree. unfold _solve_triangular_upper.
  apply foldM_ext. intros x i Hi.
  apply list_elem_of_In, in_rev, list_elem_of_In, seq_elem_lt in Hi.
  rewrite (mapM_ext _ (fun j => uij ← get2 U i j; xj ← get x j; Ok (uij * xj))).
  - now rewrite (Hagree i i) by lia.
  - intros j Hj. apply seq_elem_lt in Hj. now rewrite (Hagree i j) by lia.
Qed.

(** X18.  Forward substitution reads only the diagonal and what is below
    it: for a square matrix [L] with a non-zero diagonal and a right-hand
    side [b] no longer than [L], [_solve_triangular_lower] raises nothing
    and returns a vector of the length of [b], and it returns the same
    vector for any matrix [L'] that agrees with [L] on the entries
    [L[i][j]] with [j <= i < len(b)], whatever [L'] holds elsewhere. *)
Theorem solve_triangular_lower_reads_lower (n : nat) (L L' : list (list Q))
    (b : list Q) :
  solvable n L -> (length b <= n)%nat ->
  (forall i j, (j <= i < length b)%nat -> get2 L' i j = get2 L i j) ->
  exists x, _solve_triangular_lower L b = Ok x /\
            _solve_triangular_lower L' b = Ok x /\ length x = length b.
Proof.
  intros Hsol Hb Hagree.
  destruct (solve_triangular_lower_Ok n L b Hsol Hb) as (x & Hx & Hlen).
  exists x. split; [exact Hx|]. split; [|exact Hlen].
  now rewrite (solve_triangular_lower_ext L L' b Hagree).
Qed.

Lemma solve_triangular_lower_reads_lower_witness :
  exists x, _solve_triangular_lower [[2; 0]; [1; 3]] [4; 5] = Ok x /\
            _solve_triangular_lower [[2; 7]; [1; 3]] [4; 5] = Ok x /\
            length x = length [4; 5].
Proof.
  apply (solve_triangular_lower_reads_lower 2 [[2; 0]; [1; 3]] [[2; 7]; [1; 3]]
           [4; 5]).
  - split; [split; [reflexivity|repeat constructor]|].
    intros k Hk. destruct k as [|[|k]]; [| |lia].
    + exists 2. split; [reflexivity|discriminate].
    + exists 3. split; [reflexivity|discriminate].
  - simpl. lia.
  - intros i j Hij. simpl in Hij.
    destruct i as [|[|i]]; destruct j as [|[|j]]; try lia; reflexivity.
Defined.

(** X19.  Backward substitution reads only the diagonal and what is above
    it: for a square matrix [U] with a non-zero diagonal and a right-hand
    side [b] no longer than [U], [_solve_triangular_upper] raises nothing
    and returns a vector of the length of [b], and it returns the same
    vector for any matrix [U'] that agrees with [U] on the entries
    [U[i][j]] with [i <= j < len(b)], whatever [U'] holds elsewhere. *)
Theorem solve_triangular_upper_reads_upper (n : nat) (U U' : list (list Q))
    (b : list Q) :
  solvable n U -> (length b <= n)%nat ->
  (forall i j, (i <= j < length b)%nat -> get2 U' i j = get2 U i j) ->
  exists x, _solve_triangular_upper U b = Ok x /\
            _solve_triangular_upper U' b = Ok x /\ length x = length b.
Proof.
  intros Hsol Hb Hagree.
  destruct (solve_triangular_upper_Ok n U b Hsol Hb) as (x & Hx & Hlen).
  exists x. split; [exact Hx|]. split; [|exact Hlen].
  now rewrite (solve_triangular_upper_ext U U' b Hagree).
Qed.

Lemma solve_triangular_upper_reads_upper_witness :
  exists x, _solve_triangular_upper [[2; 1]; [0; 3]] [4; 6] = Ok x /\
            _solve_triangular_upper [[2; 1]; [7; 3]] [4; 6] = Ok x /\
            length x = length [4; 6].
Proof.
  apply (solve_triangular_upper_reads_upper 2 [[2; 1]; [0; 3]] [[2; 1]; [7; 3]]
           [4; 6]).
  - split; [split; [reflexivity|repeat constructor]|].
    intros k Hk. destruct k as [|[|k]]; [| |lia].
    + exists 2. split; [reflexivity|discriminate].
    + exists 3. split; [reflexivity|discriminate].
  - simpl. lia.
  - intros i j Hij. simpl in Hij.
    destruct i as [|[|i]]; destruct j as [|[|j]]; try lia; reflexivity.
Defined.

End Substitution.

(** * Further properties of the optimizer *)

Section OptimizerRuns.
Import BayesianOptimizer.

Lemma observe_best o p r o' :
  observe o p r = Ok o' ->
  param_names o' = param_names o /\ bounds o' = bounds o /\
  best_reward o' = (if exceeds r (best_reward o) then Fin r else best_reward o) /\
  best_params o' = (if exceeds r (best_reward o) then Some p else best_params o).
Proof.
  unfold observe.
  destruct (_normalize o p) as [x|]; simpl; [|discriminate].
  destruct (MAX_OBSERVATIONS <? length (X_history o ++ [x]))%nat.
  - destruct (list_max (y_history o ++ [r])) as [m|]; simpl; [|discriminate].
    destruct (index (y_history o ++ [r]) m) as [i|]; simpl; [|discriminate].
    destruct (i <? length (X_history o ++ [x]) - MAX_OBSERVATIONS + 1)%nat.
    + destruct (get (X_history o ++ [x]) i) as [xb|]; simpl; [|discriminate].
      destruct (set (X_history o ++ [x]) 0 xb) as [X1|]; simpl; [|discriminate].
      destruct (get (y_history o ++ [r]) i) as [yb|]; simpl; [|discriminate].
      destruct (set (y_history o ++ [r]) 0 yb) as [y1|]; simpl; [|discriminate].
      destruct (get (param_history o ++ [p]) i) as [pb|]; simpl; [|discriminate].
      destruct (set (param_history o ++ [p]) 0 pb) as [P1|]; simpl; [|discriminate].
      intros [= <-]. simpl. auto.
    + simpl. intros [= <-]. simpl. auto.
  - intros [= <-]. simpl. auto.
Qed.

Lemma observe_Ok_normalize o p r o' :
  observe o p r = Ok o' -> exists x, _normalize o p = Ok x.
Proof.
  unfold observe. destruct (_normalize o p) as [x|]; simpl; [eauto|discriminate].
Qed.

Lemma normalizes_same_space o o0 call :
  param_names o = param_names o0 -> bounds o = bounds o0 ->
  normalizes o0 call = normalizes o call.
Proof. intros Hn Hb. unfold normalizes, _normalize. now rewrite Hn, Hb. Qed.

Lemma best_of_more_calls o seen prior call :
  best_of o seen prior -> best_of o seen (prior ++ [call]).
Proof.
  unfold best_of, get_best. destruct (best_reward o) as [|r0]; [auto|].
  intros (Hin & Hall & p & Hp & Hc). repeat split; auto.
  exists p. split; [exact Hp|]. apply elem_of_app. now left.
Qed.

Lemma best_of_observe o seen prior p r o' :
  best_of o seen prior -> observe o p r = Ok o' ->
  best_of o' (seen ++ [r]) (prior ++ [(p, r)]).
Proof.
  intros Hbest Hobs. apply observe_best in Hobs as (_ & _ & Hr & Hp).
  unfold best_of, get_best in *. rewrite Hr, Hp.
  destruct (best_reward o) as [|r0]; simpl.
  - destruct Hbest as [-> _]. split; [apply list_elem_of_here|].
    split; [repeat constructor; apply Qle_refl|].
    exists p. split; [reflexivity|]. apply elem_of_app. right.
    apply list_elem_of_here.
  - destruct Hbest as (Hin & Hall & p0 & Hp0 & Hc).
    destruct (Qlt_bool r0 r) eqn:E.
    + apply Qlt_bool_iff in E. split; [apply elem_of_app; right; apply list_elem_of_here|].
      split.
      * apply Forall_app. split; [|repeat constructor; apply Qle_refl].
        eapply Forall_impl; [exact Hall|]. intros y Hy. simpl in Hy.
        apply Qlt_le_weak. eapply Qle_lt_trans; eassumption.
      * exists p. split; [reflexivity|]. apply elem_of_app. right.
        apply list_elem_of_here.
    + apply Qlt_bool_false in E. split; [apply elem_of_app; now left|].
      split.
      * apply Forall_app. split; [exact Hall|]. repeat constructor. exact E.
      * exists p0. split; [exact Hp0|]. apply elem_of_app. now left.
Qed.

Lemma observe_all_best o0 calls :
  forall o seen prior,
    param_names o = param_names o0 -> bounds o = bounds o0 -> history_ok o ->
    best_of o seen prior ->
    length (y_history o) = Nat.min (length seen) MAX_OBSERVATIONS ->
    best_of (observe_all o calls) (seen ++ accepted o0 calls) (prior ++ calls) /\
    length (y_history (observe_all o calls))
    = Nat.min (length (seen ++ accepted o0 calls)) MAX_OBSERVATIONS.
Proof.
  induction calls as [|[p r] calls IH]; intros o seen prior Hn Hb Hok Hbest Hlen.
  - unfold accepted. simpl. rewrite !app_nil_r. auto.
  - unfold accepted in *. simpl.
    rewrite (normalizes_same_space o o0 (p, r) Hn Hb).
    replace (prior ++ (p, r) :: calls) with ((prior ++ [(p, r)]) ++ calls)
      by now rewrite <- app_assoc.
    destruct (observe o p r) as [o1|e] eqn:Hobs.
    + destruct (observe_Ok_normalize _ _ _ _ Hobs) as [x Hx].
      assert (Hacc : normalizes o (p, r) = true)
        by (unfold normalizes; simpl; now rewrite Hx).
      rewrite Hacc. simpl.
      replace (seen ++ r :: map snd (List.filter (normalizes o0) calls))
        with ((seen ++ [r]) ++ map snd (List.filter (normalizes o0) calls))
        by now rewrite <- app_assoc.
      pose proof (observe_best _ _ _ _ Hobs) as (Hn1 & Hb1 & _ & _).
      pose proof (observe_history_ok _ _ _ _ Hok Hobs) as Hok1.
      pose proof (observe_length _ _ _ _ Hok Hobs) as Hlen1.
      apply IH.
      * congruence.
      * congruence.
      * exact Hok1.
      * eapply best_of_observe; eassumption.
      * destruct Hok as (HX & _). destruct Hok1 as (HX1 & _).
        rewrite length_app. simpl. unfold MAX_OBSERVATIONS in *. lia.
    + apply (observe_raises_in_normalize _ _ _ _ Hok) in Hobs.
      assert (Hacc : normalizes o (p, r) = false)
        by (unfold normalizes; simpl; now rewrite Hobs).
      rewrite Hacc.
      apply IH; auto. now apply best_of_more_calls.
Qed.

(** X20.  After any run of [observe] calls on a fresh optimizer,
    [get_best()] is the largest reward among all the calls that were
    recorded (those whose [params_dict] has every parameter name), together
    with the parameters of a call that earned it, whether or not that
    observation is still in the capped history; before the first recorded
    call it is [(None, -inf)].  The history holds [min(n, 80)] entries after
    [n] recorded calls. *)
Theorem best_is_max_of_accepted (parameters : list (string * (Q * Q)))
    (gp_noise gp_length_scale : Q) (n_initial n_candidates : nat)
    (calls : list (gmap string Q * Q)) :
  let o0 := new parameters gp_noise gp_length_scale n_initial n_candidates in
  let o := observe_all o0 calls in
  best_of o (accepted o0 calls) calls /\
  length (y_history o) = Nat.min (length (accepted o0 calls)) MAX_OBSERVATIONS.
Proof.
  intros o0 o.
  apply (observe_all_best o0 calls o0 [] []); try reflexivity.
  - apply history_ok_new.
  - split; reflexivity.
Qed.

Lemma mapM_length {A B} (f : A -> result B) (xs : list A) ys :
  mapM f xs = Ok ys -> length ys = length xs.
Proof.
  revert ys. induction xs as [|a xs IH]; intros ys H; simpl in H.
  - now injection H as <-.
  - destruct (f a) as [b|]; [|discriminate]. rewrite bind_Ok in H.
    destruct (mapM f xs) as [ys'|]; [|discriminate]. rewrite bind_Ok in H.
    injection H as <-. simpl. now rewrite (IH ys').
Qed.

(** A comprehension whose body can raise nothing but [e] raises [e] as soon
    as the body raises on one element. *)
Lemma mapM_raises {A B} (f : A -> result B) (xs : list A) (e : exn) :
  (forall a e', f a = Raise e' -> e' = e) ->
  (exists a, a ∈ xs /\ f a = Raise e) -> mapM f xs = Raise e.
Proof.
  intros Honly. induction xs as [|a xs IH]; intros (a0 & Hin & Ha0).
  - now apply elem_of_nil in Hin.
  - simpl. destruct (f a) as [b|e'] eqn:E.
    + rewrite bind_Ok. rewrite IH; [reflexivity|].
      apply elem_of_cons in Hin as [->|Hin]; [congruence|eauto].
    + simpl. now rewrite (Honly a e' E).
Qed.

(** A loop whose body can raise nothing but [e] raises [e] when the body
    raises on one element whatever the accumulator. *)
Lemma foldM_raises {A B} (f : B -> A -> result B) (xs : list A) (e : exn) :
  (forall acc a e', f acc a = Raise e' -> e' = e) ->
  (exists a, a ∈ xs /\ forall acc, f acc a = Raise e) ->
  forall acc, foldM f acc xs = Raise e.
Proof.
  intros Honly. induction xs as [|a xs IH]; intros (a0 & Hin & Ha0) acc.
  - now apply elem_of_nil in Hin.
  - simpl. destruct (f acc a) as [acc1|e'] eqn:E.
    + rewrite bind_Ok. apply IH.
      apply elem_of_cons in Hin as [->|Hin]; [|eauto].
      rewrite Ha0 in E. discriminate.
    + simpl. now rewrite (Honly acc a e' E).
Qed.

(** X21.  [_normalize] and [_denormalize] fit together.  [_normalize]
    raises [KeyError] when the dict lacks a parameter name; when the dict
    has every name it returns a vector with one entry per parameter.
    [_denormalize] raises [IndexError] for a vector with fewer entries than
    there are parameters; for a vector with at least that many, hence for
    every vector [_normalize] returns, it returns a dict whose keys are
    exactly the parameter names. *)
Theorem normalize_denormalize_shapes (o : BayesianOptimizer.t)
    (params_dict : gmap string Q) :
  length (param_names o) = length (bounds o) ->
  ((exists name, name ∈ param_names o /\ params_dict !! name = None) ->
   _normalize o params_dict = Raise KeyError) /\
  ((forall name, name ∈ param_names o -> is_Some (params_dict !! name)) ->
   exists x, _normalize o params_dict = Ok x /\
             length x = length (param_names o)) /\
  (forall x, (length x < length (param_names o))%nat ->
             _denormalize o x = Raise IndexError) /\
  (forall x, (length (param_names o) <= length x)%nat ->
             exists params, _denormalize o x = Ok params /\
               forall name, is_Some (params !! name) <-> name ∈ param_names o).
Proof.
  intros Hlen.
  assert (Hfst : (zip (param_names o) (bounds o)).*1 = param_names o)
    by (apply fst_zip; lia).
  split; [|split; [|split]].
  - intros (name & Hin & Hnone). unfold _normalize.
    apply mapM_raises.
    + intros [nm [lo hi]] e'. simpl.
      destruct (params_dict !! nm); [discriminate|congruence].
    + rewrite <- Hfst in Hin. apply list_elem_of_fmap in Hin as ([nm lh] & -> & Hin).
      exists (nm, lh). split; [exact Hin|]. simpl in *. now rewrite Hnone.
  - intros Hall. unfold _normalize.
    match goal with
    | |- exists r0, mapM ?f ?xs = Ok r0 /\ _ =>
        destruct (mapM_Ok (fun _ => True) f xs) as (x & Hx & Hlx & _)
    end.
    + intros [nm lh] Hin. simpl.
      destruct (Hall nm) as [val Hval].
      { rewrite <- Hfst. apply list_elem_of_fmap. exists (nm, lh). auto. }
      rewrite Hval. eauto.
    + exists x. split; [exact Hx|].
      rewrite Hlx, length_zip_with, <- Hlen. lia.
  - intros x Hx. unfold _denormalize. apply foldM_raises.
    + intros params [i nb] e'. simpl. unfold get.
      destruct (x !! i); simpl; [discriminate|congruence].
    + destruct (lookup_lt_is_Some_2 (zip (param_names o) (bounds o)) (length x))
        as [nb Hnb]; [rewrite length_zip_with; lia|].
      exists (length x, nb). split.
      * apply list_elem_of_lookup. exists (length x).
        rewrite list_lookup_imap, Hnb. reflexivity.
      * intros params. simpl. unfold get.
        now rewrite (lookup_ge_None_2 x (length x)).
  - intros x Hx. unfold _denormalize.
    set (zs := zip (param_names o) (bounds o)) in *.
    match goal with
    | |- exists r0, foldM ?f ?acc ?xs = Ok r0 /\ _ =>
        destruct (foldM_Ok
                    (fun (k : nat) (params : gmap string Q) =>
                       forall name, is_Some (params !! name) <->
                                    name ∈ take k (param_names o))
                    f xs acc)
          as (params & Hp & Hkeys)
    end.
    + intros name. rewrite lookup_empty. split.
      * intros [v Hv]. discriminate.
      * intros Hin. now apply elem_of_nil in Hin.
    + intros k a params Ha Hkeys.
      rewrite list_lookup_imap in Ha.
      destruct (zs !! k) as [[name [lo hi]]|] eqn:Hk; [|discriminate].
      simpl in Ha. injection Ha as <-. simpl.
      assert (Hname : param_names o !! k = Some name).
      { subst zs. apply lookup_zip_with_Some in Hk as (nm & lh & Heq & Hnm & _).
        now injection Heq as <- _. }
      destruct (lookup_lt_is_Some_2 x k) as [xk Hxk].
      { apply lookup_lt_Some in Hname. lia. }
      unfold get. rewrite Hxk, bind_Ok. eexists. split; [reflexivity|].
      intros name'. rewrite (take_S_r _ _ _ Hname), elem_of_app,
        list_elem_of_singleton, <- Hkeys.
      destruct (decide (name' = name)) as [->|Hne].
      * rewrite lookup_insert_eq. split; [now right|eauto].
      * rewrite lookup_insert_ne by congruence. split; [now left|].
        intros [H|H]; [exact H|contradiction].
    + exists params. split; [exact Hp|]. subst zs.
      rewrite length_imap, length_zip_with, <- Hlen, Nat.min_id, firstn_all in Hkeys.
      exact Hkeys.
Qed.

Lemma normalize_denormalize_shapes_witness :
  ((exists name, name ∈ param_names Examples.optimizer /\
                 Examples.params_best !! name = None) ->
   _normalize Examples.optimizer Examples.params_best = Raise KeyError) /\
  ((forall name, name ∈ param_names Examples.optimizer ->
                 is_Some (Examples.params_best !! name)) ->
   exists x, _normalize Examples.optimizer Examples.params_best = Ok x /\
             length x = length (param_names Examples.optimizer)) /\
  (forall x, (length x < length (param_names Examples.optimizer))%nat ->
             _denormalize Examples.optimizer x = Raise IndexError) /\
  (forall x, (length (param_names Examples.optimizer) <= length x)%nat ->
             exists params, _denormalize Examples.optimizer x = Ok params /\
               forall name, is_Some (params !! name) <->
                            name ∈ param_names Examples.optimizer).
Proof.
  apply (normalize_denormalize_shapes Examples.optimizer Examples.params_best).
  reflexivity.
Defined.

End OptimizerRuns.

(** * Further properties of channel selection *)

Section BanditSelection.
Import ChannelBandit.

Lemma same_counters_refl b : same_counters b b.
Proof. unfold same_counters. repeat split. Qed.

Lemma same_counters_trans b1 b2 b3 :
  same_counters b1 b2 -> same_counters b2 b3 -> same_counters b1 b3.
Proof.
  unfold same_counters.
  intros (H1 & H2 & H3 & H4 & H5 & H6) (G1 & G2 & G3 & G4 & G5 & G6).
  repeat split; try congruence; try (intros; rewrite G6; apply H6).
Qed.

Lemma same_counters_windowed_stats b ch :
  same_counters b (fst (_get_windowed_stats b ch)).
Proof. unfold same_counters, _get_windowed_stats. simpl. repeat split. Qed.

Lemma same_counters_avg_client_activity b ch :
  same_counters b (fst (_get_avg_client_activity b ch)).
Proof. unfold same_counters, _get_avg_client_activity. simpl. repeat split. Qed.

Lemma same_counters_read_scans b ch :
  same_counters b (fst (read_scans b ch)) /\
  snd (read_scans b ch) = default 0%nat (_total_scans b !! ch).
Proof.
  unfold same_counters, read_scans. simpl. repeat split.
  intros c. destruct (decide (ch = c)) as [->|Hne].
  - now rewrite lookup_insert_eq.
  - now rewrite lookup_insert_ne.
Qed.

Lemma same_counters_record_client_activity b ch count :
  same_counters b (record_client_activity b ch count).
Proof. unfold same_counters, record_client_activity. simpl. repeat split. Qed.

Lemma same_counters_boost b now ch weight : same_counters b (boost b now ch weight).
Proof.
  unfold same_counters, boost. destruct (bool_decide _); simpl; repeat split.
Qed.

Lemma same_counters_stats_step acc ch :
  same_counters (fst acc) (fst (stats_step acc ch)).
Proof.
  unfold stats_step. cbv zeta. cbn [fst].
  eapply same_counters_trans; [apply same_counters_windowed_stats|].
  apply same_counters_read_scans.
Qed.

Lemma same_counters_get_stats b : same_counters b (fst (get_stats b)).
Proof.
  unfold get_stats.
  assert (Hgen : forall l acc, same_counters (fst acc)
                                 (fst (fold_left stats_step l acc))).
  { induction l as [|x l IH]; intros acc; simpl; [apply same_counters_refl|].
    eapply same_counters_trans; [apply same_counters_stats_step|apply IH]. }
  apply (Hgen (channels b) (b, ∅)).
Qed.

Lemma scoring_active rnd : scoring (score_active rnd).
Proof.
  intros b n ch. unfold score_active. cbv zeta. cbn [fst].
  eapply same_counters_trans; [apply same_counters_windowed_stats|].
  apply same_counters_read_scans.
Qed.

Lemma scoring_passive rnd : scoring (score_passive rnd).
Proof.
  intros b n ch. unfold score_passive. cbv zeta. cbn [fst].
  eapply same_counters_trans; [apply same_counters_windowed_stats|].
  eapply same_counters_trans; [apply same_counters_avg_client_activity|].
  apply same_counters_read_scans.
Qed.

Lemma scoring_assist rnd : scoring (score_assist rnd).
Proof.
  intros b n ch. unfold score_assist. cbv zeta. cbn [fst].
  eapply same_counters_trans; [apply same_counters_windowed_stats|].
  apply same_counters_read_scans.
Qed.

Lemma dict_keys_set {V} (d : list (Z * V)) k v :
  dict_keys (dict_set d k v)
  = if bool_decide (k ∈ dict_keys d) then dict_keys d else dict_keys d ++ [k].
Proof.
  unfold dict_keys. induction d as [|[k0 v0] d IH]; simpl; [reflexivity|].
  destruct (k0 =? k)%Z eqn:E.
  - apply Z.eqb_eq in E as ->. simpl.
    rewrite bool_decide_eq_true_2 by apply list_elem_of_here. reflexivity.
  - apply Z.eqb_neq in E. simpl. rewrite IH.
    destruct (bool_decide (k ∈ map fst d)) eqn:Ed.
    + apply bool_decide_eq_true_1 in Ed.
      rewrite bool_decide_eq_true_2 by now right. reflexivity.
    + apply bool_decide_eq_false_1 in Ed.
      rewrite bool_decide_eq_false_2; [reflexivity|].
      intros H. apply elem_of_cons in H as [H|H]; [congruence|contradiction].
Qed.

Lemma score_fold score_ch l :
  scoring score_ch ->
  forall st,
    let r := fold_left (fun st ch =>
                          let r := score_ch (fst (fst st)) (snd (fst st)) ch in
                          (fst (fst r), snd (fst r), dict_set (snd st) ch (snd r)))
                       l st in
    same_counters (fst (fst st)) (fst (fst r)) /\
    (forall c, c ∈ dict_keys (snd r) <-> c ∈ dict_keys (snd st) \/ c ∈ l) /\
    (NoDup (dict_keys (snd st) ++ l) -> dict_keys (snd r) = dict_keys (snd st) ++ l).
Proof.
  intros Hsc. induction l as [|ch l IH]; intros st; simpl.
  - split; [apply same_counters_refl|]. split.
    + intros c. split; [auto|]. intros [H|H]; [exact H|]. now apply elem_of_nil in H.
    + now rewrite app_nil_r.
  - match goal with |- context [fold_left _ l ?st1] => specialize (IH st1) end.
    simpl in IH. destruct IH as (Hsame & Hkeys & Hnodup).
    split; [|split].
    + eapply same_counters_trans; [apply Hsc|exact Hsame].
    + intros c. rewrite Hkeys, dict_keys_set.
      destruct (bool_decide (ch ∈ dict_keys (snd st))) eqn:E.
      * apply bool_decide_eq_true_1 in E. rewrite elem_of_cons.
        split; [tauto|]. intros [H|[->|H]]; auto.
      * rewrite elem_of_app, list_elem_of_singleton, elem_of_cons. tauto.
    + intros Hnd. rewrite Hnodup; rewrite dict_keys_set.
      * rewrite bool_decide_eq_false_2; [now rewrite <- app_assoc|].
        intros Hin. apply NoDup_app in Hnd as (_ & Hdis & _).
        apply (Hdis ch Hin). apply list_elem_of_here.
      * rewrite bool_decide_eq_false_2.
        -- now rewrite <- app_assoc.
        -- intros Hin. apply NoDup_app in Hnd as (_ & Hdis & _).
           apply (Hdis ch Hin). apply list_elem_of_here.
Qed.

Lemma insert_by_score_Permutation scores c l : insert_by_score scores c l ≡ₚ c :: l.
Proof.
  induction l as [|y l IH]; simpl; [reflexivity|].
  destruct (Qlt_bool _ _); [|reflexivity].
  rewrite IH. apply Permutation_swap.
Qed.

Lemma ranked_Permutation scores : ranked scores ≡ₚ dict_keys scores.
Proof.
  unfold ranked. induction (dict_keys scores) as [|c l IH]; simpl; [reflexivity|].
  now rewrite insert_by_score_Permutation, IH.
Qed.

Lemma slice_to_positive {A} (l : list A) (k : Z) :
  (1 <= k)%Z -> slice_to l k = take (Z.to_nat k) l.
Proof.
  intros Hk. unfold slice_to. destruct (k <? 0)%Z eqn:E; [|reflexivity].
  apply Z.ltb_lt in E. lia.
Qed.

Lemma unscanned_fold b l :
  forall st, same_counters b (fst st) ->
    let r := fold_left (fun st c =>
                          let rs := read_scans (fst st) c in
                          (fst rs, if (snd rs =? 0)%nat then snd st ++ [c] else snd st))
                       l st in
    same_counters b (fst r) /\
    snd r = snd st ++ filter (never_scanned b) l.
Proof.
  cbv zeta. induction l as [|c l IH]; intros st Hst; cbn [fold_left].
  - split; [exact Hst|]. now rewrite app_nil_r.
  - destruct (same_counters_read_scans (fst st) c) as [Hsame Hval].
    match goal with |- context [fold_left _ l ?st1] => destruct (IH st1) as (H1 & H2) end.
    { cbn [fst]. eapply same_counters_trans; eassumption. }
    split; [exact H1|]. rewrite H2. cbn [snd]. rewrite Hval.
    destruct Hst as (_ & _ & _ & _ & _ & Hsc). rewrite Hsc.
    rewrite filter_cons. unfold never_scanned at 2.
    destruct (decide (default 0%nat (_total_scans b !! c) = 0%nat)) as [Heq|Hne].
    + rewrite Heq. cbn [Nat.eqb]. now rewrite <- app_assoc.
    + apply Nat.eqb_neq in Hne. now rewrite Hne.
Qed.

Lemma unscanned_channels_spec b :
  same_counters b (fst (unscanned_channels b)) /\
  snd (unscanned_channels b) = filter (never_scanned b) (channels b).
Proof.
  unfold unscanned_channels.
  apply (unscanned_fold b (channels b) (b, [])). apply same_counters_refl.
Qed.

Lemma never_scanned_same b b' c :
  same_counters b b' -> never_scanned b' c <-> never_scanned b c.
Proof.
  intros (_ & _ & _ & _ & _ & Hsc). unfold never_scanned. now rewrite Hsc.
Qed.

Lemma choice_elem rnd n l : l <> [] -> choice rnd n l ∈ l.
Proof.
  intros Hl. unfold choice. apply list_elem_of_In, nth_In.
  apply Nat.mod_upper_bound. destruct l; [contradiction|discriminate].
Qed.

Lemma ensure_unscanned_spec rnd b0 b n selected :
  same_counters b0 b -> selected <> [] ->
  Forall (fun c => c ∈ channels b0) selected ->
  exists b' n' sel,
    ensure_unscanned rnd b n selected = Ok (b', n', sel) /\
    same_counters b0 b' /\ length sel = length selected /\
    Forall (fun c => c ∈ channels b0) sel /\
    ((exists c, c ∈ channels b0 /\ never_scanned b0 c) ->
     exists c, c ∈ sel /\ never_scanned b0 c).
Proof.
  intros Hsame Hne Hall. unfold ensure_unscanned.
  destruct (unscanned_channels_spec b) as [Hsame' Hun].
  pose proof (same_counters_trans _ _ _ Hsame Hsame') as Hsame0.
  assert (Hmem : forall c, c ∈ snd (unscanned_channels b) <->
                           c ∈ channels b0 /\ never_scanned b0 c).
  { intros c. rewrite Hun, list_elem_of_filter, (never_scanned_same b0 b c Hsame).
    destruct Hsame as (-> & _). tauto. }
  destruct (snd (unscanned_channels b)) as [|u0 us] eqn:Eu.
  - eexists _, _, _. split; [reflexivity|].
    split; [exact Hsame0|]. split; [reflexivity|]. split; [exact Hall|].
    intros (c & Hc). apply Hmem in Hc. now apply elem_of_nil in Hc.
  - destruct (existsb _ selected) eqn:Eex.
    + eexists _, _, _. split; [reflexivity|].
      split; [exact Hsame0|]. split; [reflexivity|]. split; [exact Hall|].
      intros _. apply existsb_exists in Eex as (c & Hin & Hc).
      apply bool_decide_eq_true_1 in Hc. exists c.
      split; [now apply list_elem_of_In|]. now apply Hmem.
    + destruct selected as [|s0 ss] eqn:Es; [contradiction|]. rewrite <- Es in *.
      assert (Hch : choice rnd n (u0 :: us) ∈ u0 :: us) by now apply choice_elem.
      apply Hmem in Hch as [Hch1 Hch2].
      assert (Hlt : (length selected - 1 < length selected)%nat)
        by (rewrite Es; simpl; lia).
      eexists _, _, _. split; [reflexivity|].
      split; [exact Hsame0|]. split; [apply length_insert|].
      split; [apply Forall_insert; assumption|].
      intros _. exists (choice rnd n (u0 :: us)). split; [|exact Hch2].
      eapply list_elem_of_lookup_2. apply list_lookup_insert_eq. exact Hlt.
Qed.

Lemma max_by_elem key x l : max_by key x l ∈ x :: l.
Proof.
  unfold max_by. revert x. induction l as [|y l IH]; intros x; simpl.
  - apply list_elem_of_here.
  - specialize (IH (if Qlt_bool (key x) (key y) then y else x)).
    apply elem_of_cons in IH as [-> | IH].
    + destruct (Qlt_bool _ _); [right|]; apply list_elem_of_here.
    + now do 2 right.
Qed.

Lemma diversity_step_spec b scores st band :
  Forall (fun c => c ∈ channels b) (fst st) ->
  length (fst (diversity_step b scores st band)) = length (fst st) /\
  Forall (fun c => c ∈ channels b) (fst (diversity_step b scores st band)).
Proof.
  intros Hall. unfold diversity_step.
  destruct (_bands b band) as [|c0 rest] eqn:Eb; [auto|].
  destruct (negb _ && _); [|auto]. cbn [fst].
  split; [apply length_insert|]. apply Forall_insert; [exact Hall|].
  pose proof (max_by_elem (score_of scores) c0 rest) as Hin.
  rewrite <- Eb in Hin. unfold _bands in Hin.
  now apply list_elem_of_filter in Hin as [_ Hin].
Qed.

Lemma ensure_band_diversity_spec b selected scores :
  Forall (fun c => c ∈ channels b) selected ->
  length (_ensure_band_diversity b selected scores) = length selected /\
  Forall (fun c => c ∈ channels b) (_ensure_band_diversity b selected scores).
Proof.
  intros Hall. unfold _ensure_band_diversity.
  assert (Hgen : forall bands st,
    Forall (fun c => c ∈ channels b) (fst st) ->
    length (fst (fold_left (diversity_step b scores) bands st)) = length (fst st) /\
    Forall (fun c => c ∈ channels b)
           (fst (fold_left (diversity_step b scores) bands st))).
  { induction bands as [|band bands IH]; intros st Hst; cbn [fold_left]; [auto|].
    destruct (diversity_step_spec b scores st band Hst) as [H1 H2].
    destruct (IH _ H2) as [H3 H4]. split; [congruence|exact H4]. }
  apply (Hgen _ (selected, map channel_to_band selected) Hall).
Qed.

Lemma selected_spec score_ch b n k :
  scoring score_ch -> (1 <= k)%Z -> channels b <> [] ->
  let r := score_loop score_ch b n in
  let selected := slice_to (ranked (snd r)) k in
  same_counters b (fst (fst r)) /\ selected <> [] /\
  Forall (fun c => c ∈ channels b) selected /\
  (length selected <= Z.to_nat k)%nat /\
  (NoDup (channels b) ->
   length selected = Nat.min (Z.to_nat k) (length (channels b))).
Proof.
  intros Hsc Hk Hne r selected. subst selected r. unfold score_loop.
  destruct (score_fold score_ch (channels b) Hsc (b, n, []))
    as (Hsame & Hkeys & Hnodup).
  cbv zeta in Hsame, Hkeys, Hnodup. cbn [fst snd] in Hsame, Hkeys, Hnodup.
  set (scores := snd (fold_left _ (channels b) (b, n, []))) in *.
  rewrite slice_to_positive by exact Hk.
  pose proof (ranked_Permutation scores) as Hperm.
  split; [exact Hsame|]. split; [|split; [|split]].
  - intros Hnil.
    assert (Hlen : length (take (Z.to_nat k) (ranked scores)) = 0%nat)
      by now rewrite Hnil.
    rewrite length_take, (Permutation_length Hperm) in Hlen.
    destruct (channels b) as [|c0 cs] eqn:Ec; [contradiction|].
    assert (Hc0 : c0 ∈ dict_keys scores) by (apply Hkeys; right; apply list_elem_of_here).
    destruct (dict_keys scores); [now apply elem_of_nil in Hc0|]. simpl in Hlen. lia.
  - apply Forall_take. rewrite Hperm. apply Forall_forall. intros c Hc.
    apply Hkeys in Hc as [Hc|Hc]; [now apply elem_of_nil in Hc|exact Hc].
  - rewrite length_take. lia.
  - intros Hnd. rewrite length_take, (Permutation_length Hperm), Hnodup; [reflexivity|].
    exact Hnd.
Qed.

Lemma select_passive_spec rnd b n k :
  (1 <= k)%Z -> channels b <> [] ->
  exists b' n' sel,
    _select_passive rnd b n k = Ok (b', n', sel) /\
    same_counters b b' /\ selection_ok b k sel /\
    ((exists c, c ∈ channels b /\ never_scanned b c) ->
     exists c, c ∈ sel /\ never_scanned b c).
Proof.
  intros Hk Hne. unfold _select_passive. cbv zeta.
  destruct (selected_spec (score_passive rnd) b n k (scoring_passive rnd) Hk Hne)
    as (Hsame & Hsel & Hall & Hle & Hlen).
  destruct (ensure_unscanned_spec rnd b _ (snd (fst (score_loop (score_passive rnd) b n)))
              _ Hsame Hsel Hall)
    as (b' & n' & sel & Hens & Hsame' & Hlen' & Hall' & Hexp).
  exists b', n', sel. split; [exact Hens|]. split; [exact Hsame'|].
  split; [|exact Hexp].
  split; [exact Hall'|]. split; [lia|]. split.
  - intros _ ->. destruct (slice_to _ k); [contradiction|discriminate].
  - intros Hnd. rewrite Hlen'. now apply Hlen.
Qed.

Lemma select_diverse_spec rnd score_ch b n k :
  scoring score_ch -> (1 <= k)%Z -> channels b <> [] ->
  let r := score_loop score_ch b n in
  exists b' n' sel,
    (s ← ensure_unscanned rnd (fst (fst r)) (snd (fst r))
           (slice_to (ranked (snd r)) k);
     if (3 <=? k)%Z
     then Ok (fst s, _ensure_band_diversity (fst (fst s)) (snd s) (snd r))
     else Ok s) = Ok (b', n', sel) /\
    same_counters b b' /\ selection_ok b k sel /\
    ((k < 3)%Z -> (exists c, c ∈ channels b /\ never_scanned b c) ->
     exists c, c ∈ sel /\ never_scanned b c).
Proof.
  intros Hsc Hk Hne r.
  destruct (selected_spec score_ch b n k Hsc Hk Hne)
    as (Hsame & Hsel & Hall & Hle & Hlen).
  fold r in Hsame, Hsel, Hall, Hle, Hlen.
  destruct (ensure_unscanned_spec rnd b _ (snd (fst r)) _ Hsame Hsel Hall)
    as (b' & n' & sel & Hens & Hsame' & Hlen' & Hall' & Hexp).
  rewrite Hens, bind_Ok. cbn [fst snd].
  assert (Hsel' : sel <> []).
  { intros ->. destruct (slice_to _ k); [contradiction|discriminate]. }
  destruct (3 <=? k)%Z eqn:E3.
  - assert (Hch : channels b' = channels b) by apply Hsame'.
    destruct (ensure_band_diversity_spec b' sel (snd r)) as [Hd1 Hd2].
    { now rewrite Hch. }
    rewrite Hch in Hd2.
    eexists _, _, _. split; [reflexivity|]. split; [exact Hsame'|].
    split; [|intros Hk3; apply Z.leb_le in E3; lia].
    split; [exact Hd2|]. split; [lia|]. split.
    + intros _ Hnil. rewrite Hnil in Hd1. destruct sel; [contradiction|discriminate].
    + intros Hnd. rewrite Hd1, Hlen'. now apply Hlen.
  - eexists _, _, _. split; [reflexivity|]. split; [exact Hsame'|].
    split; [|intros _; exact Hexp].
    split; [exact Hall'|]. split; [lia|]. split; [auto|].
    intros Hnd. rewrite Hlen'. now apply Hlen.
Qed.

Lemma select_channels_spec rnd b n k :
  (1 <= k)%Z ->
  exists b' n' sel,
    select_channels rnd b n k = Ok (b', n', sel) /\
    same_counters b b' /\ selection_ok b k sel /\
    (mode b = MODE_PASSIVE \/ (k < 3)%Z ->
     (exists c, c ∈ channels b /\ never_scanned b c) ->
     exists c, c ∈ sel /\ never_scanned b c).
Proof.
  intros Hk. unfold select_channels.
  destruct (Z.of_nat (length (channels b)) <=? k)%Z eqn:E.
  - apply Z.leb_le in E. exists b, n, (channels b).
    split; [reflexivity|]. split; [apply same_counters_refl|]. split.
    + split; [now apply Forall_forall|]. split; [lia|]. split; [auto|]. lia.
    + intros _ Hc. exact Hc.
  - apply Z.leb_gt in E.
    assert (Hne : channels b <> []) by (intros Hnil; rewrite Hnil in E; simpl in E; lia).
    destruct (mode b) eqn:Em.
    + destruct (select_diverse_spec rnd (score_active rnd) b n k
                  (scoring_active rnd) Hk Hne)
        as (b' & n' & sel & Hsel & Hsame & Hok & Hexp).
      exists b', n', sel. split; [exact Hsel|]. split; [exact Hsame|].
      split; [exact Hok|]. intros [Hm|Hk3]; [discriminate|auto].
    + destruct (select_passive_spec rnd b n k Hk Hne)
        as (b' & n' & sel & Hsel & Hsame & Hok & Hexp).
      exists b', n', sel. auto.
    + destruct (select_diverse_spec rnd (score_assist rnd) b n k
                  (scoring_assist rnd) Hk Hne)
        as (b' & n' & sel & Hsel & Hsame & Hok & Hexp).
      exists b', n', sel. split; [exact Hsel|]. split; [exact Hsame|].
      split; [exact Hok|]. intros [Hm|Hk3]; [discriminate|auto].
Qed.

Lemma sum_values_insert_fresh m i x : m !! i = None -> sum_values (<[i := x]> m) = (x + sum_values m)%nat.
Proof.
  intros Hi. unfold sum_values. rewrite map_fold_insert_L; [reflexivity| |exact Hi].
  intros. lia.
Qed.

Lemma sum_values_delete m i : sum_values m = (default 0 (m !! i) + sum_values (delete i m))%nat.
Proof.
  destruct (m !! i) as [v|] eqn:E; simpl.
  - rewrite <- (insert_delete_id m i v E) at 1.
    apply sum_values_insert_fresh. apply lookup_delete_eq.
  - now rewrite delete_id.
Qed.

Lemma sum_values_insert m i x : (sum_values (<[i := x]> m) + default 0 (m !! i) = x + sum_values m)%nat.
Proof.
  rewrite (sum_values_delete (<[i := x]> m) i), (sum_values_delete m i).
  rewrite lookup_insert_eq, delete_insert_eq. simpl. lia.
Qed.

Lemma sum_values_zero m : (forall c, default 0%nat (m !! c) = 0%nat) -> sum_values m = 0%nat.
Proof.
  induction m as [|i x m Hi IH] using map_ind; intros H; [reflexivity|].
  rewrite sum_values_insert_fresh by exact Hi.
  pose proof (H i) as Hx. rewrite lookup_insert_eq in Hx. simpl in Hx.
  rewrite IH; [lia|]. intros c. destruct (decide (c = i)) as [->|Hne].
  - now rewrite Hi.
  - specialize (H c). now rewrite lookup_insert_ne in H.
Qed.

Lemma sum_values_same_defaults m' : forall m,
  (forall c, default 0%nat (m' !! c) = default 0%nat (m !! c)) -> sum_values m' = sum_values m.
Proof.
  induction m' as [|i x m1 Hi IH] using map_ind; intros m H.
  - symmetry. apply sum_values_zero. intros c. rewrite <- H. now rewrite lookup_empty.
  - rewrite sum_values_insert_fresh by exact Hi. rewrite (sum_values_delete m i).
    pose proof (H i) as Hx. rewrite lookup_insert_eq in Hx. simpl in Hx.
    rewrite <- Hx. f_equal. apply IH. intros c.
    destruct (decide (c = i)) as [->|Hne].
    + now rewrite Hi, lookup_delete_eq.
    + rewrite lookup_delete_ne by congruence. rewrite <- H.
      now rewrite lookup_insert_ne.
Qed.

Lemma same_counters_sums b b' :
  same_counters b b' ->
  _total_epochs b' = _total_epochs b /\ scans_sum b' = scans_sum b.
Proof.
  intros (_ & _ & _ & _ & He & Hsc). split; [exact He|].
  unfold scans_sum. now apply sum_values_same_defaults.
Qed.

Lemma do_call_counts rnd st c :
  let st' := do_call rnd st c in
  _total_epochs (fst st')
  = (_total_epochs (fst st) + if is_update c then 1 else 0)%nat /\
  scans_sum (fst st')
  = (scans_sum (fst st) + if is_update c then 1 else 0)%nat.
Proof.
  destruct st as [b n]. destruct c as [now ch r|now ch w|ch count| |k];
    cbv zeta; cbn [do_call fst snd is_update].
  - unfold update, scans_sum. cbn [_total_epochs _total_scans].
    pose proof (sum_values_insert (_total_scans b) ch
                  (S (default 0%nat (_total_scans b !! ch)))).
    lia.
  - destruct (same_counters_sums _ _ (same_counters_boost b now ch w)). lia.
  - destruct (same_counters_sums _ _
                (same_counters_record_client_activity b ch count)). lia.
  - destruct (same_counters_sums _ _ (same_counters_get_stats b)). lia.
  - destruct (select_channels_spec rnd b n (Z.pos k))
      as (b' & n' & sel & Hsel & Hsame & _); [lia|].
    rewrite Hsel. cbn [fst].
    destruct (same_counters_sums _ _ Hsame). lia.
Qed.

Lemma do_calls_counts rnd cs : forall st,
  let b := fst (do_calls rnd st cs) in
  _total_epochs b
  = (_total_epochs (fst st) + length (List.filter is_update cs))%nat /\
  scans_sum b = (scans_sum (fst st) + length (List.filter is_update cs))%nat.
Proof.
  unfold do_calls. induction cs as [|c cs IH]; intros st; cbn [fold_left List.filter].
  - cbv zeta. cbn [length]. lia.
  - destruct (IH (do_call rnd st c)) as [H1 H2].
    destruct (do_call_counts rnd st c) as [G1 G2].
    cbv zeta in *. rewrite H1, H2, G1, G2.
    destruct (is_update c); simpl; lia.
Qed.

(** X22.  [select_channels(k)] with [k >= 1] never raises, whatever the
    random draws: it returns only configured channels, at most [k] of
    them, at least one if any channel is configured, and exactly
    [min(k, len(channels))] when the configured channels are distinct.  It
    changes neither the configuration nor the epoch count nor any
    channel's scan count. *)
Theorem select_channels_sound (rnd : ChannelBandit.Random) (b : ChannelBandit.t)
    (n : nat) (k : Z) :
  (1 <= k)%Z ->
  exists b' n' sel,
    select_channels rnd b n k = Ok (b', n', sel) /\
    same_counters b b' /\ selection_ok b k sel.
Proof.
  intros Hk.
  destruct (select_channels_spec rnd b n k Hk)
    as (b' & n' & sel & Hsel & Hsame & Hok & _).
  exists b', n', sel. auto.
Qed.

Lemma select_channels_sound_witness :
  exists b' n' sel,
    select_channels Examples.rnd Examples.bandit 0 2 = Ok (b', n', sel) /\
    same_counters Examples.bandit b' /\ selection_ok Examples.bandit 2 sel.
Proof.
  apply (select_channels_sound Examples.rnd Examples.bandit 0 2). lia.
Defined.

(** X23.  Exploration guarantee: in passive mode, and in every mode when
    fewer than three channels are asked for, a selection of [k >= 1]
    channels contains a never-scanned channel whenever the bandit has one,
    whatever the random draws. *)
Theorem select_channels_explores (rnd : ChannelBandit.Random)
    (b : ChannelBandit.t) (n : nat) (k : Z) :
  (1 <= k)%Z ->
  ChannelBandit.mode b = MODE_PASSIVE \/ (k < 3)%Z ->
  (exists c, c ∈ channels b /\ never_scanned b c) ->
  exists b' n' sel,
    select_channels rnd b n k = Ok (b', n', sel) /\
    exists c, c ∈ sel /\ never_scanned b c.
Proof.
  intros Hk Hmode Hun.
  destruct (select_channels_spec rnd b n k Hk)
    as (b' & n' & sel & Hsel & _ & _ & Hexp).
  exists b', n', sel. auto.
Qed.

Lemma select_channels_explores_witness :
  exists b' n' sel,
    select_channels Examples.rnd Examples.bandit 0 2 = Ok (b', n', sel) /\
    exists c, c ∈ sel /\ never_scanned Examples.bandit c.
Proof.
  apply (select_channels_explores Examples.rnd Examples.bandit 0 2).
  - lia.
  - left. reflexivity.
  - exists 36%Z. split; [|reflexivity].
    eapply bool_decide_eq_true_1. reflexivity.
Defined.

(** X24.  Scan accounting: after any sequence of [update], [boost],
    [record_client_activity], [get_stats] and [select_channels(k)] calls
    with [k >= 1] on a fresh bandit, [_total_epochs] is the number of
    [update] calls made, and it equals the sum of the per-channel scan
    counts. *)
Theorem epochs_count_updates (rnd : ChannelBandit.Random) (channels : list Z)
    (window_size : Z) (exploration_bonus : Q) (mode : Mode) (n : nat)
    (cs : list ChannelBandit.call) :
  let b := fst (do_calls rnd (new channels window_size exploration_bonus mode, n)
                         cs) in
  _total_epochs b = length (List.filter is_update cs) /\
  scans_sum b = _total_epochs b.
Proof.
  intros b. subst b.
  destruct (do_calls_counts rnd cs
              (new channels window_size exploration_bonus mode, n)) as [H1 H2].
  cbv zeta in H1, H2. rewrite H1, H2. split; reflexivity.
Qed.

Lemma min_index_lt key n : (0 < n)%nat -> (min_index key n < n)%nat.
Proof.
  intros Hn. unfold min_index.
  assert (Hgen : forall l best,
    (best < n)%nat -> Forall (fun i => (i < n)%nat) l ->
    (fold_left (fun best i => if Qlt_bool (key i) (key best) then i else best)
               l best < n)%nat).
  { induction l as [|i l IH]; intros best Hb Hl; simpl; [exact Hb|].
    apply Forall_cons in Hl as [Hi Hl].
    apply IH; [|exact Hl]. now destruct (Qlt_bool _ _). }
  apply Hgen; [exact Hn|]. apply Forall_forall. intros i Hi.
  apply elem_of_seq in Hi. lia.
Qed.

Lemma diversity_step_skip b scores st band :
  _bands b band = [] \/ band ∈ snd st ->
  diversity_step b scores st band = st.
Proof.
  intros H. unfold diversity_step.
  destruct (_bands b band) as [|c0 rest]; [reflexivity|].
  destruct H as [H|H]; [discriminate|].
  now rewrite bool_decide_eq_true_2.
Qed.

Lemma diversity_step_adds b scores st band :
  _bands b band <> [] -> band ∉ snd st -> fst st <> [] ->
  exists c, c ∈ _bands b band /\ c ∈ fst (diversity_step b scores st band) /\
    snd (diversity_step b scores st band) = band :: snd st.
Proof.
  intros Hact Hmiss Hsel. unfold diversity_step.
  destruct (_bands b band) as [|c0 rest] eqn:Eb; [contradiction|].
  rewrite bool_decide_eq_false_2 by exact Hmiss.
  assert (Hlen : (0 < length (fst st))%nat)
    by (destruct (fst st); [contradiction|simpl; lia]).
  apply Nat.ltb_lt in Hlen as Hb. rewrite Hb. cbn [negb andb fst snd].
  exists (max_by (score_of scores) c0 rest). split; [apply max_by_elem|].
  split; [|reflexivity].
  eapply list_elem_of_lookup_2. apply list_lookup_insert_eq.
  now apply min_index_lt.
Qed.

(** X25.  Band diversity, for one missing band: when the selection is not
    empty and exactly one band with configured channels has no channel in
    it, [_ensure_band_diversity] returns a selection that contains a
    configured channel of that band. *)
Theorem ensure_band_diversity_one_missing (b : ChannelBandit.t)
    (selected : list Z) (scores : list (Z * Q)) (band : Band) :
  selected <> [] ->
  _bands b band <> [] ->
  band ∉ map channel_to_band selected ->
  (forall band', band' <> band -> _bands b band' <> [] ->
                 band' ∈ map channel_to_band selected) ->
  exists c, c ∈ _ensure_band_diversity b selected scores /\
            c ∈ channels b /\ channel_to_band c = band.
Proof.
  intros Hsel Hact Hmiss Hothers. unfold _ensure_band_diversity.
  set (st0 := (selected, map channel_to_band selected)).
  assert (Hskip : forall st band',
    band' <> band -> snd st = snd st0 \/ snd st = band :: snd st0 ->
    diversity_step b scores st band' = st).
  { intros st band' Hne Hrep. apply diversity_step_skip.
    destruct (_bands b band') as [|c0 rest] eqn:Eb; [now left|right].
    assert (Hin : band' ∈ snd st0) by (apply Hothers; [exact Hne|now rewrite Eb]).
    destruct Hrep as [-> | ->]; [exact Hin|now right]. }
  destruct (diversity_step_adds b scores st0 band Hact Hmiss Hsel)
    as (c & Hc & Hin & Hrep).
  exists c.
  assert (Hcb : c ∈ channels b /\ channel_to_band c = band).
  { unfold _bands in Hc. apply list_elem_of_filter in Hc. tauto. }
  split; [|exact Hcb].
  destruct band; cbn [fold_left].
  - rewrite (Hskip _ Band5G), (Hskip _ Band6G); auto; discriminate.
  - rewrite (Hskip st0 Band2G) by (auto; discriminate).
    rewrite (Hskip _ Band6G); auto; discriminate.
  - rewrite (Hskip st0 Band2G) by (auto; discriminate).
    rewrite (Hskip st0 Band5G) by (auto; discriminate). exact Hin.
Qed.

Lemma ensure_band_diversity_one_missing_witness :
  exists c,
    c ∈ _ensure_band_diversity (new [1; 6; 36]%Z 30 0.1 MODE_ACTIVE) [1; 6]%Z
          [(1%Z, 0.5); (6%Z, 0.4); (36%Z, 0.3)] /\
    c ∈ channels (new [1; 6; 36]%Z 30 0.1 MODE_ACTIVE) /\
    channel_to_band c = Band5G.
Proof.
  apply (ensure_band_diversity_one_missing (new [1; 6; 36]%Z 30 0.1 MODE_ACTIVE)
           [1; 6]%Z [(1%Z, 0.5); (6%Z, 0.4); (36%Z, 0.3)] Band5G).
  - discriminate.
  - vm_compute. discriminate.
  - eapply bool_decide_eq_false_1. reflexivity.
  - intros band' Hne Hact. destruct band'.
    + eapply bool_decide_eq_true_1. reflexivity.
    + contradiction.
    + vm_compute in Hact. contradiction.
Defined.

End BanditSelection.

(** * Further properties of the adapter and the brain *)

Section AdapterFacts.
Import TacticalEngine PineapdAdapter.

Lemma issued_app ag cmds : forall tr,
  exists new, issued ag tr cmds = tr ++ new /\ map fst new = cmds.
Proof.
  induction cmds as [|cmd cmds IH]; intros tr; simpl.
  - exists []. now rewrite app_nil_r.
  - destruct (IH (tr ++ [(cmd, ag tr cmd)])) as (new & Hnew & Hcmds).
    exists ((cmd, ag tr cmd) :: new). split.
    + now rewrite Hnew, <- app_assoc.
    + simpl. now rewrite Hcmds.
Qed.

Lemma issued_snoc ag tr cmds cmd :
  issued ag tr (cmds ++ [cmd])
  = issued ag tr cmds ++ [(cmd, ag (issued ag tr cmds) cmd)].
Proof.
  revert tr. induction cmds as [|c cmds IH]; intros tr; simpl; [reflexivity|].
  apply IH.
Qed.

(** The loop of [_deauth_clients]. *)
Lemma deauth_loop ag ap clients : forall st,
  let r := fold_left (fun st sta =>
                        let r := try_call ag (snd st) (Deauth ap sta) in
                        (fst st || fst r, snd r))
                     clients st in
  snd r = issued ag (snd st) (map (Deauth ap) clients) /\
  forall new, snd r = snd st ++ new -> fst r = fst st || existsb snd new.
Proof.
  cbv zeta. unfold try_call. cbv zeta. cbn [fst snd].
  induction clients as [|sta clients IH]; intros st; cbn [fold_left map issued].
  - split; [reflexivity|].
    intros new Hnew. rewrite <- (app_nil_r (snd st)) in Hnew at 1.
    apply app_inv_head in Hnew as <-. now rewrite orb_false_r.
  - match goal with
    | |- context [fold_left _ clients ?st1] => destruct (IH st1) as [H1 H2]
    end.
    cbn [fst snd] in H1, H2.
    split; [exact H1|]. intros new Hnew.
    destruct (issued_app ag (map (Deauth ap) clients)
                (snd st ++ [(Deauth ap sta, ag (snd st) (Deauth ap sta))]))
      as (new' & Hn' & _).
    assert (Hnew' : new = (Deauth ap sta, ag (snd st) (Deauth ap sta)) :: new').
    { rewrite H1, Hn', <- app_assoc in Hnew. now apply app_inv_head in Hnew. }
    rewrite (H2 new') by (now rewrite H1, Hn').
    rewrite Hnew'. cbn [existsb snd]. now rewrite orb_assoc.
Qed.

(** The loop of [_assoc_then_deauth]. *)
Lemma assoc_deauth_loop ag ap clients : forall tr,
  fold_left (fun tr sta => snd (try_call ag tr (Deauth ap sta))) clients tr
  = issued ag tr (map (Deauth ap) clients).
Proof.
  induction clients as [|sta clients IH]; intros tr; simpl; [reflexivity|].
  apply IH.
Qed.

Lemma execute_attack_spec ag tr ap attack_type :
  let r := execute_attack ag tr ap attack_type in
  snd r = issued ag tr (commands_for ap attack_type) /\
  forall new, snd r = tr ++ new ->
    fst r = (Attack_eqb attack_type ATTACK_ASSOC_DEAUTH
             && negb (String.eqb (default ""%string (ap_mac ap)) ""))
            || existsb snd new.
Proof.
  cbv zeta. unfold execute_attack, commands_for.
  assert (Hnone : forall new, tr = tr ++ new -> new = []).
  { intros new H. rewrite <- (app_nil_r tr) in H at 1.
    now apply app_inv_head in H. }
  destruct (String.eqb (default ""%string (ap_mac ap)) "") eqn:Emac.
  { assert (Hr : (match attack_type with
                  | ATTACK_SKIP => (false, tr)
                  | _ => (false, tr)
                  end) = (false, tr)) by now destruct attack_type.
    rewrite Hr. cbn [fst snd issued]. split; [reflexivity|].
    intros new Hnew. rewrite (Hnone new Hnew). cbn [existsb negb].
    now rewrite andb_false_r. }
  cbn [negb]. rewrite andb_true_r.
  destruct attack_type; cbn [Attack_eqb orb fst snd].
  - unfold _assoc_then_deauth, _associate_only, _broadcast_deauth, deauth_commands.
    cbv zeta.
    destruct (get_clients ap) as [|sta clients] eqn:Ec; cbn [fst snd].
    + split; reflexivity.
    + split; [|reflexivity]. rewrite assoc_deauth_loop. reflexivity.
  - unfold _deauth_clients, _broadcast_deauth, deauth_commands.
    destruct (get_clients ap) as [|sta clients] eqn:Ec.
    + unfold try_call. cbv zeta. cbn [fst snd issued]. split; [reflexivity|].
      intros new Hnew. apply app_inv_head in Hnew as <-. cbn [existsb snd].
      now rewrite orb_false_r.
    + exact (deauth_loop ag ap (sta :: clients) (false, tr)).
  - unfold _broadcast_deauth, try_call. cbv zeta. cbn [fst snd issued].
    split; [reflexivity|]. intros new Hnew. apply app_inv_head in Hnew as <-.
    cbn [existsb snd]. now rewrite orb_false_r.
  - unfold _associate_only, try_call. cbv zeta. cbn [fst snd issued].
    split; [reflexivity|]. intros new Hnew. apply app_inv_head in Hnew as <-.
    cbn [existsb snd]. now rewrite orb_false_r.
  - cbn [issued]. split; [reflexivity|]. intros new Hnew.
    now rewrite (Hnone new Hnew).
Qed.

End AdapterFacts.

Section AdapterRuns.
Import TacticalEngine PineapdAdapter.

(** X26.  The calls the adapter makes for an attack depend only on the AP
    and the attack type, never on how earlier calls went: [execute_attack]
    appends to the trace exactly the calls of [commands_for], in order (an
    association for the two association attacks, then one deauthentication
    per known client or a single broadcast when none is known), and nothing
    for [ATTACK_SKIP] or an AP without a MAC.  A call that raises does not
    stop the calls after it. *)
Theorem adapter_issues_planned_commands (ag : agent) (tr : trace) (ap : AP)
    (attack_type : Attack) :
  let r := execute_attack ag tr ap attack_type in
  snd r = issued ag tr (commands_for ap attack_type) /\
  exists new, snd r = tr ++ new /\ map fst new = commands_for ap attack_type.
Proof.
  intros r. subst r.
  destruct (execute_attack_spec ag tr ap attack_type) as [H _].
  split; [exact H|]. rewrite H. apply issued_app.
Qed.

(** X27.  What the adapter reports: [execute_attack] returns [True]
    exactly when one of the calls it made returned, except that
    [ATTACK_ASSOC_DEAUTH] on an AP with a MAC returns [True] even when
    every call raised. *)
Theorem adapter_result (ag : agent) (tr : trace) (ap : AP) (attack_type : Attack)
    (new : trace) :
  snd (execute_attack ag tr ap attack_type) = tr ++ new ->
  fst (execute_attack ag tr ap attack_type) = true <->
  (attack_type = ATTACK_ASSOC_DEAUTH /\ default ""%string (ap_mac ap) <> ""%string) \/
  Exists (fun co => snd co = true) new.
Proof.
  intros Hnew.
  destruct (execute_attack_spec ag tr ap attack_type) as [_ H].
  rewrite (H new Hnew), orb_true_iff, andb_true_iff, negb_true_iff.
  rewrite Attack_eqb_eq, String.eqb_neq, existsb_exists, Exists_exists.
  split; (intros [Ha|(co & Hin & Hco)]; [now left|right; exists co]).
  - split; [now apply list_elem_of_In|exact Hco].
  - split; [now apply list_elem_of_In|exact Hco].
Qed.

Lemma adapter_result_witness :
  fst (execute_attack Examples.failing_agent [] Examples.ap_one_client
         ATTACK_ASSOC_DEAUTH) = true <->
  (ATTACK_ASSOC_DEAUTH = ATTACK_ASSOC_DEAUTH /\
   default ""%string (ap_mac Examples.ap_one_client) <> ""%string) \/
  Exists (fun co => snd co = true)
         [(Associate Examples.ap_one_client, false);
          (Deauth Examples.ap_one_client Examples.client1, false)].
Proof.
  apply (adapter_result Examples.failing_agent [] Examples.ap_one_client
           ATTACK_ASSOC_DEAUTH). reflexivity.
Defined.

End AdapterRuns.

Section BrainFacts.
Import CaptureContext TacticalEngine NextGenBrain.

Lemma lower_empty s : lower s = ""%string <-> s = ""%string.
Proof.
  split; [|now intros ->]. destruct s; [reflexivity|discriminate].
Qed.

Lemma update_counts b now ch r :
  ChannelBandit._total_epochs (ChannelBandit.update b now ch r)
  = S (ChannelBandit._total_epochs b) /\
  ChannelBandit.scans_sum (ChannelBandit.update b now ch r)
  = S (ChannelBandit.scans_sum b).
Proof.
  unfold ChannelBandit.update, ChannelBandit.scans_sum. simpl.
  split; [reflexivity|].
  pose proof (sum_values_insert (ChannelBandit._total_scans b) ch
                (S (default 0%nat (ChannelBandit._total_scans b !! ch)))).
  lia.
Qed.

Lemma same_counters_feed_bandit b boost_clk items :
  ChannelBandit.same_counters b (feed_bandit b boost_clk items).
Proof.
  unfold feed_bandit.
  assert (Hgen : forall st,
    ChannelBandit.same_counters (fst st)
      (fst (fold_left
              (fun st item =>
                 let ch := fst item in
                 let count := snd item in
                 let b := ChannelBandit.record_client_activity (fst st) ch
                            (Z.of_nat count) in
                 let b := if (0 <? count)%nat
                          then ChannelBandit.boost b (boost_clk (snd st)) ch
                                 (Qmin (QofN count * 0.1) 0.5)
                          else b in
                 (b, S (snd st)))
              items st))).
  { induction items as [|item items IH]; intros st; cbn [fold_left].
    - apply same_counters_refl.
    - eapply same_counters_trans; [|apply IH]. cbv zeta. cbn [fst].
      eapply same_counters_trans;
        [apply same_counters_record_client_activity|].
      destruct (0 <? snd item)%nat;
        [apply same_counters_boost|apply same_counters_refl]. }
  apply (Hgen (b, 0%nat)).
Qed.

Lemma plan_epoch_captured e c clk aps :
  _captured (fst (plan_epoch e c clk aps)) = _captured c.
Proof. unfold plan_epoch. now destruct (TacticalEngine.mode e). Qed.

Lemma captured_count_record_handshake c now mac kind cm :
  captured_count (record_handshake c now mac kind cm)
  = if CaptureContext.has_handshake c mac then captured_count c else S (captured_count c).
Proof.
  unfold captured_count, record_handshake, CaptureContext.has_handshake. cbn [_captured].
  rewrite map_size_insert.
  destruct (_captured c !! lower mac) as [v|] eqn:E.
  - rewrite bool_decide_eq_true_2 by eauto. reflexivity.
  - rewrite bool_decide_eq_false_2; [reflexivity|]. intros [v Hv]. discriminate.
Qed.

(** What one event does to the counts. *)
Lemma do_event_counts ag st e :
  let br := fst st in
  let br' := fst (do_event ag st e) in
  (captured_count (_context br') + _epoch_new_handshakes br
   = captured_count (_context br) + _epoch_new_handshakes br')%nat /\
  (_epoch_new_handshakes br' + _epoch_repeat_handshakes br'
   = _epoch_new_handshakes br + _epoch_repeat_handshakes br
     + if is_handshake e then 1 else 0)%nat /\
  (ChannelBandit._total_epochs (_bandit br')
   = ChannelBandit._total_epochs (_bandit br) + if is_scan e then 1 else 0)%nat /\
  (ChannelBandit.scans_sum (_bandit br')
   = ChannelBandit.scans_sum (_bandit br) + if is_scan e then 1 else 0)%nat.
Proof.
  destruct st as [br tr].
  destruct e as [bclk clk aps|ap attack|now now' mac ch|now ch act];
    cbv zeta; cbn [do_event fst snd is_handshake is_scan].
  - unfold plan_attacks. cbv zeta.
    cbn [fst _context _bandit _epoch_new_handshakes _epoch_repeat_handshakes].
    unfold captured_count. rewrite plan_epoch_captured.
    destruct (same_counters_sums _ _
                (same_counters_feed_bandit (_bandit br) bclk (channel_clients aps))).
    lia.
  - unfold execute_attack.
    assert (Hc : forall c', c' = _context br \/
                 c' = record_interaction (_context br)
                        (lower (default ""%string (ap_mac ap))) ->
                 captured_count c' = captured_count (_context br)).
    { intros c' [-> | ->]; reflexivity. }
    destruct attack; cbn [fst snd _context _bandit _epoch_new_handshakes
                            _epoch_repeat_handshakes];
      try (rewrite Hc by (destruct (String.eqb _ ""); auto)); lia.
  - unfold on_handshake. cbv zeta.
    cbn [_context _bandit _epoch_new_handshakes _epoch_repeat_handshakes].
    rewrite captured_count_record_handshake.
    destruct (CaptureContext.has_handshake (_context br) (lower mac)); cbn [negb].
    + destruct (0 <? ch)%Z.
      * destruct (update_counts (_bandit br) now' ch 1). lia.
      * lia.
    + destruct (0 <? ch)%Z.
      * destruct (update_counts (_bandit br) now' ch 1). lia.
      * lia.
  - unfold on_channel_scanned.
    cbn [_context _bandit _epoch_new_handshakes _epoch_repeat_handshakes].
    destruct act; cbn [negb].
    + lia.
    + destruct (update_counts (_bandit br) now ch 0). lia.
Qed.

End BrainFacts.

Section BrainRuns.
Import CaptureContext TacticalEngine NextGenBrain.

(** X28.  Passive mode transmits nothing: with the engine in passive
    mode, [plan_attacks] returns an empty plan and counts no target, and
    executing the attack the engine selects for any AP makes no call on
    the agent, records no interaction and returns [False]. *)
Theorem passive_never_transmits (br : NextGenBrain.t) (boost_clk clk : nat -> Q)
    (access_points : list AP) (ag : PineapdAdapter.agent)
    (tr : PineapdAdapter.trace) (ap : AP) :
  TacticalEngine.mode (_tactical br) = MODE_PASSIVE ->
  let r := plan_attacks br boost_clk clk access_points in
  snd r = [] /\ _epoch_targets_attacked (fst r) = 0%nat /\
  execute_attack (fst r) ag tr ap
    (select_attack (_tactical (fst r)) (_context (fst r)) ap)
  = (fst r, false, tr).
Proof.
  intros Hmode r. subst r. unfold plan_attacks, plan_epoch, select_attack.
  cbv zeta. rewrite Hmode. cbn [fst snd _tactical _epoch_targets_attacked length].
  rewrite Hmode. repeat split.
Qed.

Lemma passive_never_transmits_witness :
  let r := plan_attacks (Examples.brain MODE_PASSIVE) Examples.clock Examples.clock
             [Examples.ap_one_client] in
  snd r = [] /\ _epoch_targets_attacked (fst r) = 0%nat /\
  execute_attack (fst r) (fun _ _ => true) [] Examples.ap_one_client
    (select_attack (_tactical (fst r)) (_context (fst r)) Examples.ap_one_client)
  = (fst r, false, []).
Proof.
  apply (passive_never_transmits (Examples.brain MODE_PASSIVE) Examples.clock
           Examples.clock [Examples.ap_one_client] (fun _ _ => true) []
           Examples.ap_one_client).
  reflexivity.
Defined.

(** X29.  Every attempted attack counts against the budget: for an attack
    other than [ATTACK_SKIP] on an AP with a MAC, the brain's
    [execute_attack] raises the AP's epoch and session interaction counts
    by one, whether or not the adapter reports success, leaves every other
    AP's counts, the captures and the bandit alone, and returns what the
    adapter returns. *)
Theorem execute_attack_accounting (br : NextGenBrain.t) (ag : PineapdAdapter.agent)
    (tr : PineapdAdapter.trace) (ap : AP) (attack_type : Attack) :
  attack_type <> ATTACK_SKIP -> get_mac ap <> ""%string ->
  let r := execute_attack br ag tr ap attack_type in
  let c := _context br in
  let c' := _context (fst (fst r)) in
  get_epoch_interactions c' (get_mac ap) = S (get_epoch_interactions c (get_mac ap)) /\
  get_session_interactions c' (get_mac ap)
  = S (get_session_interactions c (get_mac ap)) /\
  (forall mac, lower mac <> get_mac ap ->
     get_epoch_interactions c' mac = get_epoch_interactions c mac /\
     get_session_interactions c' mac = get_session_interactions c mac) /\
  _captured c' = _captured c /\ _bandit (fst (fst r)) = _bandit br /\
  (snd (fst r), snd r) = PineapdAdapter.execute_attack ag tr ap attack_type.
Proof.
  intros Hskip Hmac r c c'. subst r c c'. unfold get_mac in *.
  assert (Hr : execute_attack br ag tr ap attack_type
               = (mk (_mode br) (_bandit br)
                     (record_interaction (_context br)
                        (lower (default ""%string (ap_mac ap))))
                     (_tactical br)
                     (_epoch_new_handshakes br) (_epoch_repeat_handshakes br)
                     (_epoch_targets_attacked br) (_epoch_uncaptured_attacked br)
                     (_epoch_channels_scanned br) (_epoch_channels_with_activity br)
                     (_epoch_new_aps br) (_known_ap_macs br),
                  fst (PineapdAdapter.execute_attack ag tr ap attack_type),
                  snd (PineapdAdapter.execute_attack ag tr ap attack_type))).
  { unfold execute_attack. apply String.eqb_neq in Hmac. rewrite Hmac.
    destruct attack_type; try reflexivity. contradiction. }
  rewrite Hr. cbn [fst snd _context _bandit].
  unfold get_epoch_interactions, get_session_interactions, record_interaction.
  cbn [_interactions _epoch_interactions _captured].
  rewrite !lower_idemp, !lookup_insert_eq. cbn [default].
  split; [reflexivity|]. split; [reflexivity|]. split.
  - intros mac Hne. rewrite !lookup_insert_ne by congruence. auto.
  - split; [reflexivity|]. split; [reflexivity|].
    now destruct (PineapdAdapter.execute_attack ag tr ap attack_type).
Qed.

Lemma execute_attack_accounting_witness :
  let br := Examples.brain MODE_ACTIVE in
  let ap := Examples.ap_one_client in
  let r := execute_attack br Examples.failing_agent [] ap ATTACK_DEAUTH_ONLY in
  let c := _context br in
  let c' := _context (fst (fst r)) in
  get_epoch_interactions c' (get_mac ap) = S (get_epoch_interactions c (get_mac ap)) /\
  get_session_interactions c' (get_mac ap)
  = S (get_session_interactions c (get_mac ap)) /\
  (forall mac, lower mac <> get_mac ap ->
     get_epoch_interactions c' mac = get_epoch_interactions c mac /\
     get_session_interactions c' mac = get_session_interactions c mac) /\
  _captured c' = _captured c /\ _bandit (fst (fst r)) = _bandit br /\
  (snd (fst r), snd r)
  = PineapdAdapter.execute_attack Examples.failing_agent [] ap ATTACK_DEAUTH_ONLY.
Proof.
  apply (execute_attack_accounting (Examples.brain MODE_ACTIVE)
           Examples.failing_agent [] Examples.ap_one_client ATTACK_DEAUTH_ONLY).
  - discriminate.
  - discriminate.
Defined.

(** X30.  Accounting between two [on_epoch] calls: over any sequence of
    [plan_attacks], [execute_attack], [on_handshake] and
    [on_channel_scanned] calls, the number of captured APs grows by exactly
    the growth of [_epoch_new_handshakes]; new plus repeat handshakes grow
    by the number of [on_handshake] calls; and the bandit's epoch count and
    the sum of its scan counts both grow by the number of handshakes on a
    known channel plus the number of channels scanned without activity. *)
Theorem events_accounting (ag : PineapdAdapter.agent) (br : NextGenBrain.t)
    (tr : PineapdAdapter.trace) (es : list event) :
  let br' := fst (do_events ag (br, tr) es) in
  (captured_count (_context br') + _epoch_new_handshakes br
   = captured_count (_context br) + _epoch_new_handshakes br')%nat /\
  (_epoch_new_handshakes br' + _epoch_repeat_handshakes br'
   = _epoch_new_handshakes br + _epoch_repeat_handshakes br
     + length (List.filter is_handshake es))%nat /\
  (ChannelBandit._total_epochs (_bandit br')
   = ChannelBandit._total_epochs (_bandit br)
     + length (List.filter is_scan es))%nat /\
  (ChannelBandit.scans_sum (_bandit br')
   = ChannelBandit.scans_sum (_bandit br) + length (List.filter is_scan es))%nat.
Proof.
  cbv zeta. unfold do_events. revert br tr.
  induction es as [|e es IH]; intros br tr; cbn [fold_left List.filter].
  - cbn [length fst]. lia.
  - destruct (do_event_counts ag (br, tr) e) as (G1 & G2 & G3 & G4).
    cbv zeta in G1, G2, G3, G4. cbn [fst] in G1, G2, G3, G4.
    destruct (do_event ag (br, tr) e) as [br1 tr1]. cbn [fst] in G1, G2, G3, G4.
    destruct (IH br1 tr1) as (H1 & H2 & H3 & H4).
    destruct (is_handshake e), (is_scan e); cbn [length]; lia.
Qed.

End BrainRuns.
